(** * Adaptive Multilevel Splitting: the resampling loop of [scripts/AMS.py]

    A shallow embedding of [AMS.run] and of the numpy primitives it is
    written with, followed by the properties of the selection rule, the
    weight, the restart search, the merge and the natural-length
    bookkeeping.

    Conventions of the embedding.
    - A score is a float that may be NaN: [option Q], with [None] for NaN
      and [Some q] for a number; comparisons with NaN are false, as in
      IEEE 754.
    - The weight and the probability are binary64 numbers: rationals that
      every operation of lines 115 and 167 rounds with [b64], to the nearest
      number of 53 significant bits (ties to even) with gradual underflow
      below 2^-1022.  Overflow is not modelled: the numbers rounded here are
      bounded by the ensemble size, which is taken to fit a machine integer.
      A division by numpy is total and may leave an infinity or NaN.
    - A numpy array of shape (N, T, D) is a list of N rows, each a list of T
      states, each a list of D floats; an array of shape (N, T) is a list of
      N rows of T floats.
    - The trajectory generator is stochastic: it threads a hidden state of
      type [W].  [rng.choice] threads the generator state of type [R] and
      draws through [next_uint].
    - The [while] loop is run with fuel; running out of fuel is the outcome
      [OutOfFuel], distinct from a result and from an exception.
    - The collaborators are functions of the estimator's record; their
      results are nested lists, read as arrays of rank three (trajectories)
      and two (scores).  Where numpy refuses their shapes the embedding
      raises the exception numpy raises: a score array that does not match
      the mask of line 104, a batch of the wrong number of rows at line
      131, an ensemble that the block of line 138 does not fit, a
      continuation of another width or with too short a score series in
      the merge loop.  numpy would stretch an axis of length one over a
      longer one in three of these places (one state component, one score
      for a slice of several steps); the embedding refuses that like any
      other mismatch, since no collaborator of the estimator returns such
      arrays.  The rows of a nested list are not forced to be equally long:
      the properties that need it state it as a contract. *)

From Stdlib Require Import QArith Qround Qabs Qpower Lia Lqa Sorted.
From stdpp Require Import base tactics option list numbers sorting.

Local Open Scope nat_scope.

(** ** Floats with NaN *)

Abbreviation float := (option Q) (only parsing).
Abbreviation state := (list float) (only parsing).        (* one row of axis 2 *)
Abbreviation trajectory := (list state) (only parsing).   (* shape (T, D) *)
Abbreviation batch := (list trajectory) (only parsing).   (* shape (N, T, D) *)
Abbreviation series := (list float) (only parsing).       (* shape (T,) *)

Definition nan : float := None.

Definition isnan (x : float) : bool :=
  match x with None => true | Some _ => false end.

(** [a <= b], [a < b], [a >= b], [a > b] on floats: false when either side
    is NaN. *)
Definition float_le (a b : float) : bool :=
  match a, b with
  | Some x, Some y => Qle_bool x y
  | _, _ => false
  end.

Definition float_lt (a b : float) : bool :=
  match a, b with
  | Some x, Some y => negb (Qle_bool y x)
  | _, _ => false
  end.

Definition float_ge (a b : float) : bool := float_le b a.
Definition float_gt (a b : float) : bool := float_lt b a.

(** ** Binary64 arithmetic *)

(** The exponent of a positive rational: [2 ^ ilog2 x <= x < 2 ^ (ilog2 x + 1)]. *)
Definition ilog2 (x : Q) : Z :=
  let d := (Z.log2 (Qnum x) - Z.log2 (Zpos (Qden x)))%Z in
  if Qle_bool (2 ^ d) x then d else (d - 1)%Z.

(** The integer nearest to [u], the even one of the two when [u] lies half
    way. *)
Definition rne (u : Q) : Z :=
  let n := Qfloor u in
  match (u - inject_Z n ?= 1 # 2)%Q with
  | Lt => n
  | Gt => (n + 1)%Z
  | Eq => if Z.even n then n else (n + 1)%Z
  end.

(** The exponent of the last bit of the binary64 numbers around [x]: 53
    significant bits, and no bit below 2^-1074. *)
Definition ulp_exp (x : Q) : Z := Z.max (ilog2 (Qabs x) - 52) (-1074).

(** The binary64 number nearest to [x], in lowest terms. *)
Definition b64 (x : Q) : Q :=
  Qred (if Qeq_bool x 0 then 0
        else inject_Z (rne (x / 2 ^ ulp_exp x)) * 2 ^ ulp_exp x).

(** What a division by numpy leaves: a number, an infinity or NaN.
    Dividing by zero raises nothing there. *)
Inductive f64 : Type :=
  | Finite (x : Q)
  | Infinite (negative : bool)
  | NotANumber.

(** [x / n] for a binary64 number [x] and a Python integer [n]: [n] is
    converted to binary64 and the quotient rounded. *)
Definition np_true_divide (x : Q) (n : Z) : f64 :=
  if (n =? 0)%Z then
    if Qeq_bool x 0 then NotANumber else Infinite (negb (Qle_bool 0 x))
  else Finite (b64 (x / b64 (inject_Z n))).

(** ** numpy primitives *)

(** [np.isnan(traj).any(axis=2)] on one trajectory. *)
Definition isnan_any (tr : trajectory) : list bool :=
  (λ s : state, existsb isnan s) <$> tr.

(** [np.argmax] of a boolean vector: the first [True], and 0 when there is
    none. *)
Definition np_argmax (m : list bool) : nat :=
  from_option fst 0 (list_find (λ b : bool, b = true) m).

(** [a.shape[1]], read on the first row. *)
Definition shape1 {A : Type} (a : list (list A)) : nat :=
  match a with
  | [] => 0
  | row :: _ => length row
  end.

(** [a.shape[2]], read on the first state of the first row. *)
Definition shape2 (a : batch) : nat :=
  match a with
  | (s :: _) :: _ => length s
  | _ => 0
  end.

(** Two arrays agree on their first two axes: as many rows, each as long
    in the one as in the other.  A boolean mask indexes an array of its
    own shape only (line 104). *)
Definition same_shape {A B : Type} (a : list (list A)) (b : list (list B)) : bool :=
  bool_decide (length <$> a = length <$> b).

(** [np.nanmax] of one row: the maximum of the entries that are not NaN,
    and NaN when all are. *)
Definition fmax_nan (a b : float) : float :=
  match a, b with
  | None, _ => b
  | _, None => a
  | Some x, Some y => if Qle_bool x y then Some y else Some x
  end.

Definition np_nanmax (row : series) : float := foldr fmax_nan nan row.

(** [np.unique] of a float vector: the distinct numbers in increasing
    order, followed by a single NaN when the vector holds one (numpy's
    default [equal_nan=True]). *)
Fixpoint insert_unique (x : Q) (l : list Q) : list Q :=
  match l with
  | [] => [x]
  | y :: l' =>
      match (x ?= y)%Q with
      | Lt => x :: l
      | Eq => l
      | Gt => y :: insert_unique x l'
      end
  end.

Definition sorted_distinct (a : list float) : list Q :=
  foldr (λ x acc, match x with Some v => insert_unique v acc | None => acc end)
        [] a.

Definition np_unique (a : list float) : list float :=
  (Some <$> sorted_distinct a) ++ (if existsb isnan a then [nan] else []).

(** [a[i]] for a Python integer [i]: negative indices count from the end,
    [None] stands for IndexError. *)
Definition py_index {A : Type} (a : list A) (i : Z) : option A :=
  if (0 <=? i)%Z then a !! Z.to_nat i
  else if (- Z.of_nat (length a) <=? i)%Z then a !! Z.to_nat (Z.of_nat (length a) + i)
  else None.

(** [np.flatnonzero] of a boolean vector. *)
Fixpoint flatnonzero_from (i : nat) (m : list bool) : list nat :=
  match m with
  | [] => []
  | b :: m' => (if b then [i] else []) ++ flatnonzero_from (S i) m'
  end.

Definition np_flatnonzero (m : list bool) : list nat := flatnonzero_from 0 m.

(** [np.count_nonzero]. *)
Definition np_count_nonzero (m : list bool) : nat :=
  length (filter (λ b : bool, b = true) m).

(** [np.max] of a vector of lengths; [None] stands for the ValueError on an
    empty vector. *)
Definition np_max (a : list nat) : option nat :=
  match a with
  | [] => None
  | x :: a' => Some (foldr Nat.max x a')
  end.

(** ** Natural lengths *)

(** Lines 97-98: [Nt = np.argmax(np.isnan(traj).any(axis=2), axis=1)] then
    [Nt = np.where(Nt == 0, traj.shape[1], Nt)].  [np.argmax] refuses a time
    axis of length zero: [initial] raises its ValueError before it reads
    these lengths, and [iteration] before it reads those of lines 127-128. *)
Definition initial_lengths (traj : batch) : list nat :=
  (λ tr, let n := np_argmax (isnan_any tr) in
         if n =? 0 then shape1 traj else n) <$> traj.

(** Lines 127-128: [new_nt = np.argmax(np.isnan(new_traj).any(axis=2), axis=1)]
    then [new_nt[np.all(~np.isnan(new_traj), axis=(1, 2))] = new_traj.shape[1]]. *)
Definition clone_lengths (new_traj : batch) : list nat :=
  (λ tr, if forallb (λ s : state, forallb (λ x, negb (isnan x)) s) tr
         then shape1 new_traj
         else np_argmax (isnan_any tr)) <$> new_traj.

(** The natural length as the specification words it: the first time step
    at which some component of the state is undefined, and the allocated
    length when there is no such step. *)
Definition spec_natural_length (T : nat) (tr : trajectory) : nat :=
  from_option fst T (list_find (λ s : state, existsb isnan s = true) tr).

(** ** Exceptions and outcomes *)

Inductive exn : Type :=
  | AttributeError      (* a collaborator was never set *)
  | ValueError
  | IndexError
  | ZeroDivisionError.

Inductive outcome (A : Type) : Type :=
  | Return (a : A)
  | Raise (e : exn)
  | OutOfFuel.
Arguments Return {A} a.
Arguments Raise {A} e.
Arguments OutOfFuel {A}.

Definition bind {A B : Type} (f : A → outcome B) (m : outcome A) : outcome B :=
  match m with
  | Return a => f a
  | Raise e => Raise e
  | OutOfFuel => OutOfFuel
  end.

#[global] Instance outcome_bind : MBind outcome := @bind.
#[global] Instance outcome_ret : MRet outcome := @Return.

Definition attr {A : Type} (field : option A) : outcome A :=
  match field with
  | Some a => Return a
  | None => Raise AttributeError
  end.

Definition or_raise {A : Type} (e : exn) (o : option A) : outcome A :=
  match o with
  | Some a => Return a
  | None => Raise e
  end.

(** ** The estimator *)

(** The region classifier.  [model.is_on] and [model.is_off] are called on
    the whole batch (lines 102-103) and on a single trajectory (lines
    154-155): they classify each state, whatever the leading axes. *)
Record Model : Type := {
  is_on : state → bool;
  is_off : state → bool;
}.

(** The attributes of an [AMS] object.  [set_score], [set_model] and
    [set_traj_func] fill the three optional fields; [__init__] sets none of
    them, and reading one that was never set raises AttributeError. *)
Record AMS (W : Type) : Type := {
  N_traj : Z;
  nc : Z;
  comp_score : option (batch → list series);
  model : option Model;
  comp_traj : option (W → Z → list state → batch * W);
}.
Arguments N_traj {W} _.
Arguments nc {W} _.
Arguments comp_score {W} _.
Arguments model {W} _.
Arguments comp_traj {W} _.

(** Line 14: [self.dimension = 2], never assigned again, so that line 137
    always takes its first branch. *)
Definition dimension : nat := 2.

(** [__init__]. *)
Definition AMS_init {W : Type} (n c : Z) : AMS W :=
  {| N_traj := n; nc := c;
     comp_score := None; model := None; comp_traj := None |}.

Definition set_score {W} (f : batch → list series) (a : AMS W) : AMS W :=
  {| N_traj := N_traj a; nc := nc a;
     comp_score := Some f; model := model a; comp_traj := comp_traj a |}.

Definition set_model {W} (m : Model) (a : AMS W) : AMS W :=
  {| N_traj := N_traj a; nc := nc a;
     comp_score := comp_score a; model := Some m; comp_traj := comp_traj a |}.

Definition set_traj_func {W} (f : W → Z → list state → batch * W) (a : AMS W) : AMS W :=
  {| N_traj := N_traj a; nc := nc a;
     comp_score := comp_score a; model := model a; comp_traj := Some f |}.

(** [score[onzone], score[offzone] = 0, 1] on one row: the two assignments
    run in this order, so a step flagged by both masks ends at 1. *)
Definition zone_override (on off : list bool) (sc : series) : series :=
  imap (λ j x, if default false (off !! j) then Some 1%Q
               else if default false (on !! j) then Some 0%Q
               else x) sc.

Definition classify (m : Model) (tr : trajectory) (sc : series) : series :=
  zone_override (is_on m <$> tr) (is_off m <$> tr) sc.

(** The local variables of [run] that live across iterations. *)
Record loop_state (W R : Type) : Type := {
  st_k : nat;
  st_w : Q;
  st_traj : batch;
  st_score : list series;
  st_Nt : list nat;
  st_max_Nt : nat;
  st_Q : list float;
  st_rng : R;
  st_world : W;
}.
Arguments st_k {W R} _.
Arguments st_w {W R} _.
Arguments st_traj {W R} _.
Arguments st_score {W R} _.
Arguments st_Nt {W R} _.
Arguments st_max_Nt {W R} _.
Arguments st_Q {W R} _.
Arguments st_rng {W R} _.
Arguments st_world {W R} _.

(** What lines 110-119 of an iteration decide before anything is
    regenerated. *)
Record cloning (R : Type) : Type := {
  cl_threshold : float;
  cl_idx : list nat;
  cl_other_idx : list nat;
  cl_Q_min : list float;
  cl_new_ind : list nat;
  cl_restart : list nat;
  cl_rng : R;
}.
Arguments cl_threshold {R} _.
Arguments cl_idx {R} _.
Arguments cl_other_idx {R} _.
Arguments cl_Q_min {R} _.
Arguments cl_new_ind {R} _.
Arguments cl_restart {R} _.
Arguments cl_rng {R} _.

(** The dictionary [run] returns, without its wall-clock [runtime]. *)
Record result : Type := {
  probability : f64;
  iterations : nat;
  nb_transitions : nat;
  trajectories : batch;
  scores : list series;
}.

(** Line 108: [len(np.unique(Q)) > self.nc]. *)
Definition distinct_levels (q : list float) : nat := length (np_unique q).

Definition loop_guard (c : Z) (q : list float) : bool :=
  (c <? Z.of_nat (distinct_levels q))%Z.

(** Line 110: [np.unique(Q)[self.nc-1]]. *)
Definition select_threshold (c : Z) (q : list float) : option float :=
  py_index (np_unique q) (c - 1).

(** Line 111. *)
Definition select_idx (q : list float) (threshold : float) : list nat :=
  np_flatnonzero ((λ x, float_le x threshold) <$> q).

Definition select_other (q : list float) (threshold : float) : list nat :=
  np_flatnonzero ((λ x, float_gt x threshold) <$> q).

(** Line 115: the factor [1 - len(idx)/self.N_traj], a quotient of
    Python integers rounded once and a difference rounded once. *)
Definition weight_factor (n_idx : nat) (n : Z) : Q :=
  b64 (1 - b64 (inject_Z (Z.of_nat n_idx) / inject_Z n)).

(** Line 119, one row of
    [np.nanargmax(score[new_ind] >= Q_min[:,np.newaxis], axis=1)]. *)
Definition restart_index (src_score : series) (q_min : float) : nat :=
  np_argmax ((λ x, float_ge x q_min) <$> src_score).

(** Lines 138 and 141: [np.concatenate] with a block of NaN along axis 1. *)
Definition pad_traj (d pad : nat) (traj : batch) : batch :=
  (λ tr, tr ++ replicate pad (replicate d nan)) <$> traj.

Definition pad_score (pad : nat) (score : list series) : list series :=
  (λ sc, sc ++ replicate pad nan) <$> score.

(** Lines 138 and 141 again: [np.concatenate] takes the blocks
    [np.full((self.N_traj, new_max - max_Nt, self.dimension), np.nan)] and
    [np.full((self.N_traj, new_max - max_Nt), np.nan)] only next to arrays of
    [N_traj] rows, the first of states of width [dimension]. *)
Definition fits_block (n : Z) (traj : batch) (score : list series) : bool :=
  bool_decide (Z.of_nat (length traj) = n) &&
  forallb (forallb (λ s : state, length s =? dimension)) traj &&
  bool_decide (Z.of_nat (length score) = n).

(** Lines 136-142: the storage grows by [new_max - max_Nt] steps when
    [new_max > max_Nt]. *)
Definition grow_traj (max_Nt new_max : nat) (traj : batch) : batch :=
  if max_Nt <? new_max then pad_traj dimension (new_max - max_Nt) traj else traj.

Definition grow_score (max_Nt new_max : nat) (score : list series) : list series :=
  if max_Nt <? new_max then pad_score (new_max - max_Nt) score else score.

(** Line 120: [init_clone = traj[new_ind,restart,:]]. *)
Definition init_clone (traj : batch) (new_ind restart : list nat) : list state :=
  zip_with (λ s r, (traj !!! s) !!! r) new_ind restart.

(** Line 131: the sum [restart + new_nt] wants as many lengths as there
    are clones; numpy lets a single length serve them all.  [None] stands for
    the ValueError on any other number. *)
Definition broadcast_lengths (k : nat) (new_nt : list nat) : option (list nat) :=
  if length new_nt =? k then Some new_nt
  else if length new_nt =? 1 then Some (replicate k (new_nt !!! 0))
  else None.

(** Line 131: [Nt[idx] = restart + new_nt]. *)
Definition assign_lengths (Nt : list nat) (idx restart new_nt : list nat) : list nat :=
  foldl (λ acc i, <[idx !!! i := restart !!! i + new_nt !!! i]> acc)
        Nt (seq 0 (length idx)).

(** Lines 148-149 (and 151-152) on the row being overwritten: the first
    [r + 1] entries come from the source row, the next [l - 1] from the
    continuation without its initial entry, and whatever the row held from
    step [r + l] on stays. *)
Definition clone_row {A : Type} (r l : nat) (src cont old : list A) : list A :=
  list_inserts (r + 1) (take (l - 1) (drop 1 cont))
    (list_inserts 0 (take (r + 1) src) old).

(** Lines 146-157: the body of the merge loop for one [i]. *)
Definition merge_one (m : Model) (idx new_ind restart new_nt : list nat)
    (new_traj : batch) (new_score : list series)
    (ts : batch * list series) (i : nat) : batch * list series :=
  let t := idx !!! i in
  let r := restart !!! i in
  let l := new_nt !!! i in
  let src := new_ind !!! i in
  (* traj[t,:r+1,:] = traj[new_ind[i],:r+1,:]
     traj[t,r+1:r+l,:] = new_traj[i,1:l,:] *)
  let row := clone_row r l (ts.1 !!! src) (new_traj !!! i) (ts.1 !!! t) in
  (* score[t,:r+1] = score[new_ind[i],:r+1]
     score[t,r+1:r+l] = new_score[i,1:l] *)
  let srow := clone_row r l (ts.2 !!! src) (new_score !!! i) (ts.2 !!! t) in
  (* score[t, onzone], score[t, offzone] = 0, 1 *)
  (<[t := row]> ts.1, <[t := classify m row srow]> ts.2).

Definition merge (m : Model) (idx new_ind restart new_nt : list nat)
    (new_traj : batch) (new_score : list series)
    (traj : batch) (score : list series) : batch * list series :=
  foldl (merge_one m idx new_ind restart new_nt new_traj new_score)
        (traj, score) (seq 0 (length idx)).

(** What lines 146-152 ask of the [i]-th continuation, in the order they
    ask it: that it exists (line 146 reads [new_nt[i]]), that its states
    have the width of the stored ones (line 149), that it has a score
    series (line 152) and that this series reaches the last step copied
    (line 152 again).  The result is the exception of the first request
    that fails. *)
Definition merge_refusal (width : nat) (new_nt : list nat) (new_traj : batch)
    (new_score : list series) (i : nat) : option exn :=
  match new_nt !! i, new_traj !! i with
  | Some l, Some cont =>
      if negb (forallb (λ s : state, length s =? width) cont) then Some ValueError
      else match new_score !! i with
           | None => Some IndexError
           | Some sc =>
               if (1 <? l) && (length sc <? l) then Some ValueError else None
           end
  | _, _ => Some IndexError
  end.

(** The first refusal of the merge loop over [range(k)]. *)
Definition merge_refusals (width : nat) (new_nt : list nat) (new_traj : batch)
    (new_score : list series) (k : nat) : option exn :=
  head (omap (merge_refusal width new_nt new_traj new_score) (seq 0 k)).

(** The row the merge loop writes for the [i]-th regenerated trajectory,
    read off the array as it is before the loop. *)
Definition merged_row {A : Type} (idx new_ind restart new_nt : list nat)
    (new_a a : list (list A)) (i : nat) : list A :=
  clone_row (restart !!! i) (new_nt !!! i)
    (a !!! (new_ind !!! i)) (new_a !!! i) (a !!! (idx !!! i)).

Arguments init_clone : simpl never.
Arguments merge : simpl never.
Arguments grow_traj : simpl never.
Arguments grow_score : simpl never.
Arguments clone_lengths : simpl never.
Arguments initial_lengths : simpl never.
Arguments assign_lengths : simpl never.
Arguments select_threshold : simpl never.
Arguments select_idx : simpl never.
Arguments select_other : simpl never.
Arguments weight_factor : simpl never.
Arguments broadcast_lengths : simpl never.
Arguments fits_block : simpl never.
Arguments merge_refusals : simpl never.
Arguments shape2 : simpl never.

Section Run.
Context {W R : Type}.
(** One draw of the bit generator behind [self.rng]. *)
Variable next_uint : R → nat * R.

(** [self.rng.choice(a, size=size)] for a non-empty [a]: [size] draws with
    replacement. *)
Fixpoint rng_choice (g : R) (a : list nat) (size : nat) : list nat * R :=
  match size with
  | 0 => ([], g)
  | S n =>
      let '(u, g) := next_uint g in
      let '(rest, g) := rng_choice g a n in
      (default 0 (a !! (u mod length a)) :: rest, g)
  end.

Variable ams : AMS W.

(** Lines 110-119: threshold, selection, clone sources, restart steps.
    The division of line 115 is by [self.N_traj]; [rng.choice] refuses an
    empty population unless no sample is asked for. *)
Definition plan (st : loop_state W R) : outcome (cloning R) :=
  threshold ← or_raise IndexError (select_threshold (nc ams) (st_Q st));
  let idx := select_idx (st_Q st) threshold in
  let other_idx := select_other (st_Q st) threshold in
  let Q_min := (λ i, st_Q st !!! i) <$> idx in
  if (N_traj ams =? 0)%Z then Raise ZeroDivisionError else
  if bool_decide (other_idx = [] ∧ idx ≠ []) then Raise ValueError else
  let '(new_ind, g) := rng_choice (st_rng st) other_idx (length idx) in
  let restart :=
    zip_with (λ s q, restart_index (st_score st !!! s) q) new_ind Q_min in
  Return {| cl_threshold := threshold; cl_idx := idx; cl_other_idx := other_idx;
            cl_Q_min := Q_min; cl_new_ind := new_ind; cl_restart := restart;
            cl_rng := g |}.

(** Lines 110-161: one pass through the body of the [while] loop.  The
    product of line 115 is rounded like its factor.  The model is read at
    line 154, after the first continuation has been copied. *)
Definition iteration (st : loop_state W R) : outcome (loop_state W R) :=
  p ← plan st;
  let idx := cl_idx p in
  let w := b64 (st_w st * weight_factor (length idx) (N_traj ams)) in
  let start := init_clone (st_traj st) (cl_new_ind p) (cl_restart p) in
  gen ← attr (comp_traj ams);
  let new_traj := (gen (st_world st) (Z.of_nat (length idx)) start).1 in
  let wd := (gen (st_world st) (Z.of_nat (length idx)) start).2 in
  sc ← attr (comp_score ams);
  let new_score := sc new_traj in
  if shape1 new_traj =? 0 then Raise ValueError else
  let new_nt := clone_lengths new_traj in
  lens ← or_raise ValueError (broadcast_lengths (length idx) new_nt);
  let Nt := assign_lengths (st_Nt st) idx (cl_restart p) lens in
  new_max ← or_raise ValueError (np_max ((λ t, Nt !!! t) <$> idx));
  if (st_max_Nt st <? new_max)
     && negb (fits_block (N_traj ams) (st_traj st) (st_score st))
  then Raise ValueError else
  let traj := grow_traj (st_max_Nt st) new_max (st_traj st) in
  let score := grow_score (st_max_Nt st) new_max (st_score st) in
  let max_Nt := if st_max_Nt st <? new_max then new_max else st_max_Nt st in
  let refusals := merge_refusals (shape2 traj) new_nt new_traj new_score in
  _ ← from_option Raise (Return ()) (refusals 1);
  m ← attr (model ams);
  _ ← from_option Raise (Return ()) (refusals (length idx));
  let merged :=
    merge m idx (cl_new_ind p) (cl_restart p) new_nt new_traj new_score traj score in
  Return {| st_k := st_k st + 1; st_w := w;
            st_traj := merged.1; st_score := merged.2;
            st_Nt := Nt; st_max_Nt := max_Nt; st_Q := np_nanmax <$> merged.2;
            st_rng := cl_rng p; st_world := wd |}.

(** Line 108: the [while] loop. *)
Fixpoint loop (fuel : nat) (st : loop_state W R) : outcome (loop_state W R) :=
  if loop_guard (nc ams) (st_Q st) then
    match fuel with
    | 0 => OutOfFuel
    | S fuel => st ← iteration st; loop fuel st
    end
  else Return st.

(** Lines 86-106: the state in which the loop is entered.  [np.argmax]
    refuses a zero-length axis and [np.max] an empty vector; the masks of
    line 104 have the shape of the trajectories and index a score array of
    that shape only. *)
Definition initial (g : R) (wd : W) (init_state : list state)
    : outcome (loop_state W R) :=
  gen ← attr (comp_traj ams);
  let traj := (gen wd (N_traj ams) init_state).1 in
  let wd := (gen wd (N_traj ams) init_state).2 in
  if shape1 traj =? 0 then Raise ValueError else
  let Nt := initial_lengths traj in
  max_Nt ← or_raise ValueError (np_max Nt);
  sc ← attr (comp_score ams);
  let score := sc traj in
  m ← attr (model ams);
  if negb (same_shape traj score) then Raise IndexError else
  let score := zip_with (classify m) traj score in
  Return {| st_k := 0; st_w := 1; st_traj := traj; st_score := score;
            st_Nt := Nt; st_max_Nt := max_Nt; st_Q := np_nanmax <$> score;
            st_rng := g; st_world := wd |}.

(** Lines 163-173.  In [w*count_collapse/self.N_traj] the count is a
    numpy integer: it is converted to binary64, the product rounded, and
    the division is numpy's. *)
Definition count_collapse (q : list float) (zmax : float) : nat :=
  np_count_nonzero ((λ x, float_ge x zmax) <$> q).

Definition finish (st : loop_state W R) (zmax : float) : result :=
  {| probability :=
       np_true_divide
         (b64 (st_w st * b64 (inject_Z (Z.of_nat (count_collapse (st_Q st) zmax)))))
         (N_traj ams);
     iterations := st_k st;
     nb_transitions := count_collapse (st_Q st) zmax;
     trajectories := st_traj st;
     scores := st_score st |}.

(** [run(init_state, zmax)].  The record comes with the state of
    [self.rng] and the hidden state of the trajectory function as the run
    leaves them. *)
Definition run (fuel : nat) (g : R) (wd : W) (init_state : list state)
    (zmax : float) : outcome (result * R * W) :=
  st ← initial g wd init_state;
  st ← loop fuel st;
  Return (finish st zmax, st_rng st, st_world st).

(** The first [n] passes through the loop, without the last evaluation of
    the guard: the state in which the [n]-th pass leaves the run, or the
    state of exit if the loop ends before. *)
Fixpoint passes (n : nat) (st : loop_state W R) : outcome (loop_state W R) :=
  match n with
  | 0 => Return st
  | S n =>
      if loop_guard (nc ams) (st_Q st) then st ← iteration st; passes n st
      else Return st
  end.

(** The states in which the loop guard is evaluated during a run that
    entered the loop in [st0]. *)
Inductive reachable (st0 : loop_state W R) : loop_state W R → Prop :=
  | reach_entry : reachable st0 st0
  | reach_iter st st' :
      reachable st0 st →
      loop_guard (nc ams) (st_Q st) = true →
      iteration st = Return st' →
      reachable st0 st'.

End Run.

(** ** The selection, as the specification words it *)

(** [x] is one of the levels of [q]: some entry of [q] is the number [x]. *)
Definition level_of (q : list float) (x : Q) : Prop :=
  ∃ i y, q !! i = Some (Some y) ∧ (y == x)%Q.

(** [v] is the [n]-th smallest distinct value of [q], counting from 1: it
    is a level of [q], and the levels of [q] below it are [n - 1] pairwise
    different numbers. *)
Definition nth_smallest_distinct (n : nat) (q : list float) (v : Q) : Prop :=
  level_of q v ∧
  ∃ below : list Q,
    S (length below) = n ∧
    (∀ i j x y, below !! i = Some x → below !! j = Some y → (x == y)%Q → i = j) ∧
    (∀ x, (x < v)%Q ∧ level_of q x ↔ ∃ y, y ∈ below ∧ (y == x)%Q).

(** [q] holds [n] distinct values: its levels are those of a list of
    pairwise different numbers, and NaN counts for one more. *)
Definition has_distinct_values (n : nat) (q : list float) : Prop :=
  ∃ l : list Q,
    (∀ i j x y, l !! i = Some x → l !! j = Some y → (x == y)%Q → i = j) ∧
    (∀ x, level_of q x ↔ ∃ y, y ∈ l ∧ (y == x)%Q) ∧
    n = length l + (if existsb isnan q then 1 else 0).

(** ** Contracts of the collaborators *)

(** Every row of a two- or three-dimensional array has the length [T] of
    axis 1. *)
Definition rectangular {A : Type} (T : nat) (a : list (list A)) : Prop :=
  Forall (λ row, length row = T) a.

(** [generate(batch_size, init_states) -> trajectories[batch_size, T, D]]. *)
Definition generator_rows {W : Type} (gen : W → Z → list state → batch * W) : Prop :=
  ∀ wd n init, length (gen wd n init).1 = Z.to_nat n.

Definition generator_rectangular {W : Type}
    (gen : W → Z → list state → batch * W) : Prop :=
  ∀ wd n init, ∃ T, rectangular T (gen wd n init).1.

(** A generated state has [dimension] components. *)
Definition generator_width {W : Type}
    (gen : W → Z → list state → batch * W) : Prop :=
  ∀ wd n init,
    Forall (Forall (λ s : state, length s = dimension)) (gen wd n init).1.

(** [score(trajectories) -> scores[batch_size, T]]: one score per
    trajectory and time step. *)
Definition score_shape (sc : batch → list series) : Prop :=
  ∀ b, length (sc b) = length b ∧
       ∀ i tr s, b !! i = Some tr → sc b !! i = Some s → length s = length tr.

(** The score function propagates the undefined marker. *)
Definition score_propagates (sc : batch → list series) : Prop :=
  ∀ b i tr s j st,
    b !! i = Some tr → sc b !! i = Some s → tr !! j = Some st →
    existsb isnan st = true → s !! j = Some nan.

(** An undefined state lies in neither region. *)
Definition classifier_skips_nan (m : Model) : Prop :=
  ∀ st, existsb isnan st = true → is_on m st = false ∧ is_off m st = false.

(** ** Invariants of the ensemble *)

(** The scores agree with the region override at every step. *)
Definition overridden (m : Model) (traj : batch) (score : list series) : Prop :=
  ∀ i tr sc j st x,
    traj !! i = Some tr → score !! i = Some sc →
    tr !! j = Some st → sc !! j = Some x →
    (is_off m st = true → x = Some 1%Q) ∧
    (is_off m st = false → is_on m st = true → x = Some 0%Q).

(** A step with a defined score has a defined state. *)
Definition score_on_defined (traj : batch) (score : list series) : Prop :=
  ∀ i tr sc j x,
    traj !! i = Some tr → score !! i = Some sc → sc !! j = Some (Some x) →
    ∃ st, tr !! j = Some st ∧ existsb isnan st = false.

(** The two invariants on one trajectory and its score series. *)
Definition row_overridden (m : Model) (tr : trajectory) (sc : series) : Prop :=
  ∀ j st x, tr !! j = Some st → sc !! j = Some x →
    (is_off m st = true → x = Some 1%Q) ∧
    (is_off m st = false → is_on m st = true → x = Some 0%Q).

Definition row_defined (tr : trajectory) (sc : series) : Prop :=
  ∀ j x, sc !! j = Some (Some x) →
    ∃ st, tr !! j = Some st ∧ existsb isnan st = false.

(** The arrays [traj] and [score] of a state: as many rows in both, all of
    the same non-zero length [T], scores overridden in the two regions. *)
Record ensemble_ok (m : Model) (T : nat) (traj : batch) (score : list series)
    : Prop := {
  ok_T : 0 < T;
  ok_rows : length score = length traj;
  ok_traj : rectangular T traj;
  ok_score : rectangular T score;
  ok_zone : overridden m traj score;
}.

(** The defined states of a trajectory form a prefix: every step before a
    defined state holds a defined state. *)
Definition row_closed (tr : trajectory) : Prop :=
  ∀ j j' s, tr !! j = Some s → existsb isnan s = false → j' ≤ j →
    ∃ s', tr !! j' = Some s' ∧ existsb isnan s' = false.

Definition prefix_closed (traj : batch) : Prop :=
  ∀ i tr, traj !! i = Some tr → row_closed tr.

(** The generator pads a path with the undefined marker past its stopping
    point, and nowhere else. *)
Definition generator_padded {W : Type}
    (gen : W → Z → list state → batch * W) : Prop :=
  ∀ wd n init, prefix_closed (gen wd n init).1.

(** ** Two small worlds to run the estimator in *)

Module Toy.
(** A walker on the line: a state is a position and a time.  From a
    state it hops once to the right, by one to three quarters depending
    on the call, and stops. *)
Definition pt (x : Q) (t : Z) : state := [Some x; Some (inject_Z t)].
Definition gap : state := [nan; nan].

Definition xcoord (s : state) : float :=
  if existsb isnan s then nan else default nan (s !! 0).

Definition score_x (b : batch) : list series :=
  (λ tr : trajectory, xcoord <$> tr) <$> b.

Definition well : Model :=
  {| is_on := λ s, float_le (xcoord s) (Some 0%Q);
     is_off := λ s, float_ge (xcoord s) (Some 1%Q) |}.

Definition hop (k : nat) (s : state) : state :=
  match s with
  | [Some x; Some t] =>
      [Some (Qred (x + inject_Z (Z.of_nat (1 + k mod 3)) / 4));
       Some (Qred (t + 1))]
  | _ => gap
  end.

Definition walk (k : nat) (s : state) : trajectory := [s; hop k s; gap].

Definition gen (wd : nat) (n : Z) (init : list state) : batch * nat :=
  ((λ i, walk (wd + i) (default gap (init !! i))) <$> seq 0 (Z.to_nat n),
   wd + Z.to_nat n).

Definition next (g : nat) : nat * nat := (g, S g).

Definition ams (n c : Z) : AMS nat :=
  set_traj_func gen (set_model well (set_score score_x (AMS_init n c))).

Definition start : list state := replicate 3 (pt (1 # 4) 0).
End Toy.

Module Replay.
(** A generator that replays recorded batches, one per call. *)
Definition gen (tape : list batch) (wd : nat) (n : Z) (init : list state)
    : batch * nat :=
  (default [] (tape !! wd), S wd).

Definition ams (tape : list batch) (n c : Z) : AMS nat :=
  set_traj_func (gen tape)
    (set_model Toy.well (set_score Toy.score_x (AMS_init n c))).

(** Two walkers: the first idles at 1/4 for four steps, the second climbs
    to 3/4 in three.  The continuation drawn for the first one falls back
    to the start region at once. *)
Definition tape : list batch :=
  [ [ [Toy.pt (1 # 4) 0; Toy.pt (1 # 4) 1; Toy.pt (1 # 4) 2; Toy.pt (1 # 4) 3];
      [Toy.pt (1 # 4) 0; Toy.pt (1 # 2) 1; Toy.pt (3 # 4) 2; Toy.gap] ];
    [ [Toy.pt (1 # 4) 0; Toy.pt 0 1; Toy.gap] ] ].

Definition start : list state := replicate 2 (Toy.pt (1 # 4) 0).
End Replay.

Module Stall.
(** Two walkers of which one gets nowhere for a long time.  The first
    climbs to 1/2 and then to 3/4 and stops; the second stops at 1/4.  At
    each of the first 1075 restarts a walker falls back to half the
    position it is restarted from and stops (from an undefined state it
    goes nowhere): the clone of the climber at 1/2 ends with level 1/2,
    below 3/4, and is selected again at the next iteration.  From then on
    a restarted walker leaps to 1. *)
Definition climber : trajectory :=
  [Toy.pt (1 # 8) 0; Toy.pt (1 # 2) 1; Toy.pt (3 # 4) 2; Toy.gap].

Definition idler : trajectory :=
  [Toy.pt (1 # 8) 0; Toy.pt (1 # 4) 1; Toy.gap; Toy.gap].

Definition move (to : Q → Q) (s : state) : trajectory :=
  match s with
  | [Some x; Some t] => [s; [Some (Qred (to x)); Some (Qred (t + 1))]; Toy.gap]
  | _ => [Toy.gap; Toy.gap; Toy.gap]
  end.

Definition fall : state → trajectory := move (λ x, x / 2)%Q.
Definition leap : state → trajectory := move (λ _, 1%Q).

Definition gen (wd : nat) (n : Z) (init : list state) : batch * nat :=
  ((λ i, match wd with
         | 0 => if i =? 0 then climber else idler
         | S _ => (if wd <=? 1075 then fall else leap) (default Toy.gap (init !! i))
         end) <$> seq 0 (Z.to_nat n),
   S wd).

Definition ams : AMS nat :=
  set_traj_func gen (set_model Toy.well (set_score Toy.score_x (AMS_init 2 1))).

Definition start : list state := replicate 2 (Toy.pt (1 # 8) 0).
End Stall.

(** ** Repeated runs *)

(** One row of the table [run_multiple] fills: probability, iterations and
    transitions of a run (numpy stores the two counts as floats), without
    the wall-clock column. *)
Record stats_row : Type := {
  row_probability : f64;
  row_iterations : nat;
  row_transitions : nat;
}.

Definition stats_of (res : result) : stats_row :=
  {| row_probability := probability res;
     row_iterations := iterations res;
     row_transitions := nb_transitions res |}.

Section RunMultiple.
Context {W R : Type}.
Variable next_uint : R → nat * R.
Variable ams : AMS W.

(** Lines 195-200: [nb_runs] calls of [self.run(init_state)], each with the
    default [zmax = 1], on the generator states the call before left. *)
Fixpoint run_each (fuel n : nat) (g : R) (wd : W) (init_state : list state)
    : outcome (list stats_row * R * W) :=
  match n with
  | 0 => Return ([], g, wd)
  | S n =>
      out ← run next_uint ams fuel g wd init_state (Some 1%Q);
      rest ← run_each fuel n out.1.2 out.2 init_state;
      Return (stats_of out.1.1 :: rest.1.1, rest.1.2, rest.2)
  end.

(** [run_multiple(nb_runs, init_state)]: line 194, [np.zeros((nb_runs, 4))],
    refuses a negative [nb_runs]. *)
Definition run_multiple (fuel : nat) (nb_runs : Z) (g : R) (wd : W)
    (init_state : list state) : outcome (list stats_row * R * W) :=
  if (nb_runs <? 0)%Z then Raise ValueError
  else run_each fuel (Z.to_nat nb_runs) g wd init_state.

(** The iterations of a run that entered the loop in [st0], with the
    number of trajectories each of them regenerated. *)
Inductive iterates (st0 : loop_state W R) : list nat → loop_state W R → Prop :=
  | iterates_entry : iterates st0 [] st0
  | iterates_iter sizes st st' p :
      iterates st0 sizes st →
      loop_guard (nc ams) (st_Q st) = true →
      plan next_uint ams st = Return p →
      iteration next_uint ams st = Return st' →
      iterates st0 (sizes ++ [length (cl_idx p)]) st'.

End RunMultiple.

(** The natural lengths on record fit the allocated length [T]. *)
Definition lengths_ok {W R : Type} (T : nat) (st : loop_state W R) : Prop :=
  length (st_Nt st) = length (st_traj st) ∧
  (∀ i n, st_Nt st !! i = Some n → n ≤ st_max_Nt st) ∧
  st_max_Nt st ≤ T.

(** The states stored all have [dimension] components. *)
Definition width_ok (traj : batch) : Prop :=
  Forall (Forall (λ s : state, length s = dimension)) traj.

(** ** Powers of two *)

Lemma two_pow_pos (z : Z) : (0 < 2 ^ z)%Q.
Proof. by apply Qpower_0_lt. Qed.

Lemma two_pow_plus (a b : Z) : (2 ^ (a + b) == 2 ^ a * 2 ^ b)%Q.
Proof. by apply Qpower_plus. Qed.

Lemma two_pow_le (a b : Z) : (a ≤ b)%Z → (2 ^ a <= 2 ^ b)%Q.
Proof. intros H. by apply Qpower_le_compat_l. Qed.

Lemma two_pow_lt (a b : Z) : (a < b)%Z → (2 ^ a < 2 ^ b)%Q.
Proof. intros H. by apply Qpower_lt_compat_l. Qed.

Lemma two_pow_Z (k : Z) : (0 ≤ k)%Z → (2 ^ k == inject_Z (2 ^ k))%Q.
Proof. intros H. symmetry. by apply (Zpower_Qpower 2). Qed.

Lemma two_pow_minus (a b : Z) : (2 ^ a / 2 ^ b == 2 ^ (a - b))%Q.
Proof.
  replace a with ((a - b) + b)%Z at 1 by lia. rewrite two_pow_plus.
  field. pose proof (two_pow_pos b). lra.
Qed.

(** ** The binary logarithm *)

Lemma ilog2_spec (x : Q) :
  (0 < x)%Q → (2 ^ ilog2 x <= x)%Q ∧ (x < 2 ^ (ilog2 x + 1))%Q.
Proof.
  intros Hx. destruct x as [a b].
  assert (0 < a)%Z as Ha by (unfold Qlt in Hx; simpl in Hx; lia).
  destruct (Z.log2_spec a Ha) as [Ha1 Ha2].
  destruct (Z.log2_spec (Zpos b) ltac:(lia)) as [Hb1 Hb2].
  pose proof (Z.log2_nonneg a) as Hla. pose proof (Z.log2_nonneg (Zpos b)) as Hlb.
  set (la := Z.log2 a) in *. set (lb := Z.log2 (Zpos b)) in *.
  assert (2 ^ la <= inject_Z a)%Q as HA1.
  { rewrite two_pow_Z by done. by rewrite <- Zle_Qle. }
  assert (inject_Z a < 2 ^ (la + 1))%Q as HA2.
  { rewrite two_pow_Z by lia. rewrite <- Zlt_Qlt. by rewrite <- Z.add_1_r in Ha2. }
  assert (2 ^ lb <= inject_Z (Zpos b))%Q as HB1.
  { rewrite two_pow_Z by done. by rewrite <- Zle_Qle. }
  assert (inject_Z (Zpos b) < 2 ^ (lb + 1))%Q as HB2.
  { rewrite two_pow_Z by lia. rewrite <- Zlt_Qlt. by rewrite <- Z.add_1_r in Hb2. }
  assert (0 < inject_Z (Zpos b))%Q as HB0 by done.
  assert (a # b < 2 ^ (la - lb + 1))%Q as HU.
  { rewrite (Qmake_Qdiv a b). apply Qlt_shift_div_r; [done|].
    apply Qlt_le_trans with (2 ^ (la + 1))%Q; [done|].
    replace (la + 1)%Z with ((la - lb + 1) + lb)%Z by lia.
    rewrite two_pow_plus. apply Qmult_le_l; [apply two_pow_pos | done]. }
  assert (2 ^ (la - lb - 1) <= a # b)%Q as HL.
  { rewrite (Qmake_Qdiv a b). apply Qle_shift_div_l; [done|].
    apply Qle_trans with (2 ^ la)%Q; [|done].
    replace la with ((la - lb - 1) + (lb + 1))%Z at 2 by lia.
    rewrite two_pow_plus. apply Qmult_le_l; [apply two_pow_pos|].
    by apply Qlt_le_weak. }
  unfold ilog2. simpl Qnum. simpl Qden. fold la lb.
  destruct (Qle_bool (2 ^ (la - lb)) (a # b)) eqn:E.
  - apply Qle_bool_iff in E. done.
  - split; [done|]. replace (la - lb - 1 + 1)%Z with (la - lb)%Z by lia.
    apply Qnot_le_lt. intros H%Qle_bool_iff. congruence.
Qed.

Lemma ilog2_lt (x : Q) (k : Z) : (0 < x)%Q → (x < 2 ^ k)%Q → (ilog2 x < k)%Z.
Proof.
  intros Hx Hk. destruct (ilog2_spec x Hx) as [H1 _].
  destruct (Z.lt_ge_cases (ilog2 x) k) as [|Hge]; [done|]. exfalso.
  apply two_pow_le in Hge. lra.
Qed.

Lemma ilog2_ge (x : Q) (k : Z) : (0 < x)%Q → (2 ^ k <= x)%Q → (k ≤ ilog2 x)%Z.
Proof.
  intros Hx Hk. destruct (ilog2_spec x Hx) as [_ H2].
  destruct (Z.le_gt_cases k (ilog2 x)) as [|Hlt]; [done|]. exfalso.
  assert (ilog2 x + 1 ≤ k)%Z as Hle by lia.
  apply two_pow_le in Hle. lra.
Qed.

Lemma ilog2_mono (x y : Q) : (0 < x)%Q → (x <= y)%Q → (ilog2 x ≤ ilog2 y)%Z.
Proof.
  intros Hx Hxy. apply ilog2_ge; [lra|].
  destruct (ilog2_spec x Hx) as [H1 _]. lra.
Qed.

Lemma ilog2_comp (x y : Q) : (0 < x)%Q → (x == y)%Q → ilog2 x = ilog2 y.
Proof.
  intros Hx E. apply Z.le_antisymm.
  - apply ilog2_mono; [done|]. rewrite E. apply Qle_refl.
  - apply ilog2_mono; [by rewrite <- E|]. rewrite E. apply Qle_refl.
Qed.

(** ** Rounding to the nearest integer *)

Lemma rne_bounds (u : Q) : (Qfloor u ≤ rne u)%Z ∧ (rne u ≤ Qfloor u + 1)%Z.
Proof.
  unfold rne. destruct (_ ?= _)%Q; [destruct (Z.even _)| |]; lia.
Qed.

Lemma rne_Z (k : Z) : rne (inject_Z k) = k.
Proof.
  unfold rne. rewrite Qfloor_Z.
  assert (inject_Z k - inject_Z k < 1 # 2)%Q as H by lra.
  by rewrite (proj1 (Qlt_alt _ _) H).
Qed.

Lemma rne_comp (u v : Q) : (u == v)%Q → rne u = rne v.
Proof.
  intros E. unfold rne. rewrite (Qfloor_comp _ _ E).
  assert ((u - inject_Z (Qfloor v) ?= 1 # 2) = (v - inject_Z (Qfloor v) ?= 1 # 2))%Q
    as -> by (by rewrite E).
  done.
Qed.

Lemma rne_mono (u v : Q) : (u <= v)%Q → (rne u ≤ rne v)%Z.
Proof.
  intros Huv. pose proof (Qfloor_resp_le _ _ Huv) as Hf.
  destruct (rne_bounds u) as [_ Hu]. destruct (rne_bounds v) as [Hv _].
  destruct (Z.eq_dec (Qfloor u) (Qfloor v)) as [E|Hne]; [|lia].
  unfold rne. rewrite E.
  destruct (Qcompare_spec (v - inject_Z (Qfloor v)) (1 # 2)) as [Ev|Ev|Ev];
    destruct (Qcompare_spec (u - inject_Z (Qfloor v)) (1 # 2)) as [Eu|Eu|Eu];
    try (destruct (Z.even (Qfloor v))); try lia.
  all: exfalso; lra.
Qed.

Lemma rne_le (u : Q) (m : Z) : (u <= inject_Z m)%Q → (rne u ≤ m)%Z.
Proof. intros H%rne_mono. by rewrite rne_Z in H. Qed.

Lemma rne_ge (u : Q) (m : Z) : (inject_Z m <= u)%Q → (m ≤ rne u)%Z.
Proof. intros H%rne_mono. by rewrite rne_Z in H. Qed.

(** ** Binary64 *)

Lemma Qabs_pos_eq (x : Q) : (0 < x)%Q → Qabs x = x.
Proof.
  destruct x as [a b]. intros H. unfold Qlt in H. simpl in H.
  unfold Qabs. f_equal. lia.
Qed.

Lemma ulp_exp_pos (x : Q) :
  (0 < x)%Q → ulp_exp x = Z.max (ilog2 x - 52) (-1074).
Proof. intros H. unfold ulp_exp. by rewrite Qabs_pos_eq. Qed.

Lemma b64_zero (x : Q) : (x == 0)%Q → b64 x = 0%Q.
Proof. intros E. unfold b64. by rewrite (proj2 (Qeq_bool_iff _ _) E). Qed.

Lemma b64_pos (x : Q) :
  (0 < x)%Q →
  (b64 x == inject_Z (rne (x / 2 ^ ulp_exp x)) * 2 ^ ulp_exp x)%Q.
Proof.
  intros H. unfold b64. rewrite Qred_correct.
  destruct (Qeq_bool x 0) eqn:E; [|done].
  apply Qeq_bool_iff in E. lra.
Qed.

Lemma b64_comp (x y : Q) : (x == y)%Q → b64 x = b64 y.
Proof.
  intros E. unfold b64. apply Qred_complete.
  assert (Qeq_bool x 0 = Qeq_bool y 0) as ->.
  { destruct (Qeq_bool x 0) eqn:Ex, (Qeq_bool y 0) eqn:Ey; try done.
    - apply Qeq_bool_iff in Ex. apply Qeq_bool_neq in Ey. by rewrite <- E in Ey.
    - apply Qeq_bool_iff in Ey. apply Qeq_bool_neq in Ex. by rewrite E in Ex. }
  destruct (Qeq_bool y 0) eqn:Ey; [done|]. apply Qeq_bool_neq in Ey.
  assert (ulp_exp x = ulp_exp y) as ->.
  { unfold ulp_exp. f_equal. f_equal. apply ilog2_comp; [|by rewrite E].
    rewrite E. apply Qabs_case; intros; lra. }
  rewrite (rne_comp (x / _) (y / 2 ^ ulp_exp y)); [done|]. by rewrite E.
Qed.

Lemma b64_one : b64 1 = 1%Q.
Proof. by vm_compute. Qed.

(** A rational at most an integer multiple of its last place is rounded
    to at most this multiple, and symmetrically. *)
Lemma b64_le_multiple (x : Q) (m : Z) :
  (0 < x)%Q → (x <= inject_Z m * 2 ^ ulp_exp x)%Q →
  (b64 x <= inject_Z m * 2 ^ ulp_exp x)%Q.
Proof.
  intros Hx H. rewrite (b64_pos x Hx).
  pose proof (two_pow_pos (ulp_exp x)) as Hp.
  apply Qmult_le_compat_r; [|lra]. rewrite <- Zle_Qle. apply rne_le.
  apply Qle_shift_div_r; done.
Qed.

Lemma b64_ge_multiple (x : Q) (m : Z) :
  (0 < x)%Q → (inject_Z m * 2 ^ ulp_exp x <= x)%Q →
  (inject_Z m * 2 ^ ulp_exp x <= b64 x)%Q.
Proof.
  intros Hx H. rewrite (b64_pos x Hx).
  pose proof (two_pow_pos (ulp_exp x)) as Hp.
  apply Qmult_le_compat_r; [|lra]. rewrite <- Zle_Qle. apply rne_ge.
  apply Qle_shift_div_l; done.
Qed.

Lemma b64_nonneg (x : Q) : (0 <= x)%Q → (0 <= b64 x)%Q.
Proof.
  intros Hx. destruct (Qeq_dec x 0) as [E|Hne].
  - rewrite (b64_zero x E). lra.
  - assert (0 < x)%Q as Hpos by lra.
    pose proof (b64_ge_multiple x 0 Hpos) as H.
    rewrite Qmult_0_l in H. apply H. lra.
Qed.

Lemma b64_mono (x y : Q) : (0 <= x)%Q → (x <= y)%Q → (b64 x <= b64 y)%Q.
Proof.
  intros Hx Hxy. destruct (Qeq_dec x 0) as [E|Hne].
  { rewrite (b64_zero x E). apply b64_nonneg. lra. }
  assert (0 < x)%Q as Hx0 by lra. assert (0 < y)%Q as Hy0 by lra.
  pose proof (ilog2_mono x y Hx0 Hxy) as He.
  pose proof (ulp_exp_pos x Hx0) as Eqx. pose proof (ulp_exp_pos y Hy0) as Eqy.
  destruct (Z.eq_dec (ulp_exp x) (ulp_exp y)) as [Eq|Hq].
  - rewrite (b64_pos x Hx0), (b64_pos y Hy0), Eq.
    pose proof (two_pow_pos (ulp_exp y)) as Hp.
    apply Qmult_le_compat_r; [|lra]. rewrite <- Zle_Qle. apply rne_mono.
    apply Qmult_le_compat_r; [done|]. apply Qlt_le_weak, Qinv_lt_0_compat, Hp.
  - assert (ulp_exp x < ulp_exp y)%Z as Hlt by lia.
    assert (ulp_exp y = ilog2 y - 52)%Z as Eqy' by lia.
    assert (ilog2 x < ilog2 y)%Z as Hexy by lia.
    destruct (ilog2_spec x Hx0) as [_ Hxu]. destruct (ilog2_spec y Hy0) as [Hyl _].
    apply Qle_trans with (2 ^ ilog2 y)%Q.
    + assert (2 ^ ilog2 y == inject_Z (2 ^ (ilog2 y - ulp_exp x)) * 2 ^ ulp_exp x)%Q
        as ->.
      { rewrite <- two_pow_Z by lia. rewrite <- two_pow_plus. f_equiv. lia. }
      apply b64_le_multiple; [done|].
      rewrite <- two_pow_Z by lia. rewrite <- two_pow_plus.
      apply Qle_trans with (2 ^ (ilog2 x + 1))%Q; [lra|].
      apply two_pow_le. lia.
    + assert (2 ^ ilog2 y == inject_Z (2 ^ 52) * 2 ^ ulp_exp y)%Q as E.
      { rewrite <- two_pow_Z by lia. rewrite <- two_pow_plus. f_equiv. lia. }
      rewrite E. apply b64_ge_multiple; [done|]. by rewrite <- E.
Qed.

Lemma b64_canon (x : Q) : Qred (b64 x) = b64 x.
Proof. unfold b64. apply Qred_complete, Qred_correct. Qed.

(** Rounding leaves a binary64 number as it is. *)
Lemma b64_idem (x : Q) : (0 <= x)%Q → b64 (b64 x) = b64 x.
Proof.
  intros Hx.
  enough (b64 (b64 x) == b64 x)%Q as E.
  { rewrite <- (b64_canon (b64 x)). rewrite <- (b64_canon x) at 2.
    by apply Qred_complete. }
  destruct (Qeq_dec (b64 x) 0) as [E0|Hne].
  { rewrite (b64_zero _ E0). by rewrite E0. }
  pose proof (b64_nonneg x Hx) as Hy.
  assert (0 < b64 x)%Q as Hy0 by lra.
  assert (0 < x)%Q as Hx0.
  { destruct (Qeq_dec x 0) as [E|Hn]; [|lra]. rewrite (b64_zero x E) in Hy0. lra. }
  set (q := ulp_exp x). set (n := rne (x / 2 ^ q)).
  pose proof (b64_pos x Hx0) as Ey. fold q n in Ey.
  pose proof (two_pow_pos q) as Hq.
  destruct (ilog2_spec x Hx0) as [_ Hxu].
  pose proof (ulp_exp_pos x Hx0) as Eq. fold q in Eq.
  (* the significand has at most 53 bits, or is 2^53 *)
  assert (n ≤ 2 ^ 53)%Z as Hn.
  { apply rne_le. apply Qle_shift_div_r; [done|].
    rewrite <- two_pow_Z by lia. rewrite <- two_pow_plus.
    apply Qle_trans with (2 ^ (ilog2 x + 1))%Q; [lra|]. apply two_pow_le. lia. }
  assert (0 < n)%Z as Hn0.
  { destruct (Z.lt_ge_cases 0 n) as [|Hle]; [done|]. exfalso.
    assert (inject_Z n <= 0)%Q as H by (change 0%Q with (inject_Z 0); by rewrite <- Zle_Qle).
    assert (inject_Z n * 2 ^ q <= 0)%Q; [|lra].
    rewrite <- (Qmult_0_l (2 ^ q)). apply Qmult_le_compat_r; lra. }
  (* the rounded number is an integer multiple of its own last place *)
  assert (∃ m : Z, (b64 x == inject_Z m * 2 ^ ulp_exp (b64 x))%Q) as [m Hm].
  { pose proof (ulp_exp_pos (b64 x) Hy0) as Eq'.
    destruct (Z.eq_dec n (2 ^ 53)%Z) as [En|Hnn].
    - assert (b64 x == 2 ^ (53 + q))%Q as Ep.
      { rewrite Ey, En, <- two_pow_Z by lia. by rewrite <- two_pow_plus. }
      assert (ilog2 (b64 x) = 53 + q)%Z as El.
      { apply Z.le_antisymm.
        - apply Z.lt_succ_r, ilog2_lt; [done|]. rewrite Ep. apply two_pow_lt. lia.
        - apply ilog2_ge; [done|]. rewrite Ep. apply Qle_refl. }
      exists (2 ^ 52)%Z. rewrite Eq', El. rewrite Ep, <- two_pow_Z by lia.
      rewrite <- two_pow_plus. by replace (52 + (53 + q - 52) `max` (-1074))%Z
        with (53 + q)%Z by lia.
    - assert (ilog2 (b64 x) < 53 + q)%Z as El.
      { apply ilog2_lt; [done|].
        rewrite Ey, (two_pow_plus 53 q), (two_pow_Z 53) by lia.
        apply Qmult_lt_r; [done|]. rewrite <- Zlt_Qlt. lia. }
      assert (ulp_exp (b64 x) ≤ q)%Z as Hle by lia.
      exists (n * 2 ^ (q - ulp_exp (b64 x)))%Z.
      generalize dependent (ulp_exp (b64 x)). intros q' _ Hle.
      rewrite inject_Z_mult, <- two_pow_Z by lia. rewrite <- Qmult_assoc.
      rewrite <- two_pow_plus. rewrite Ey.
      by replace (q - q' + q')%Z with q by lia. }
  rewrite (b64_pos _ Hy0).
  pose proof (two_pow_pos (ulp_exp (b64 x))) as Hq'.
  assert (b64 x / 2 ^ ulp_exp (b64 x) == inject_Z m)%Q as Ed.
  { rewrite Hm at 1. field. lra. }
  rewrite (rne_comp _ _ Ed), rne_Z. by rewrite <- Hm.
Qed.

Lemma b64_le_1 (x : Q) : (0 <= x)%Q → (x <= 1)%Q → (b64 x <= 1)%Q.
Proof. intros H0 H1. rewrite <- b64_one. by apply b64_mono. Qed.

(** ** Facts on the numpy primitives *)

Lemma float_le_Some x y : float_le (Some x) (Some y) = true ↔ (x <= y)%Q.
Proof. simpl. apply Qle_bool_iff. Qed.

Lemma float_lt_Some x y : float_lt (Some x) (Some y) = true ↔ (x < y)%Q.
Proof.
  simpl. rewrite negb_true_iff, <- not_true_iff_false, Qle_bool_iff.
  split; [apply Qnot_le_lt | apply Qlt_not_le].
Qed.

Lemma float_le_true a b :
  float_le a b = true ↔ ∃ x y, a = Some x ∧ b = Some y ∧ (x <= y)%Q.
Proof.
  split.
  - destruct a as [x|], b as [y|]; try discriminate.
    intros H. exists x, y. by rewrite <- float_le_Some.
  - intros (x & y & -> & -> & H). by apply float_le_Some.
Qed.

Lemma float_lt_true a b :
  float_lt a b = true ↔ ∃ x y, a = Some x ∧ b = Some y ∧ (x < y)%Q.
Proof.
  split.
  - destruct a as [x|], b as [y|]; try discriminate.
    intros H. exists x, y. by rewrite <- float_lt_Some.
  - intros (x & y & -> & -> & H). by apply float_lt_Some.
Qed.

(** [np.argmax] of a mask that holds a [True]: the first one. *)
Lemma np_argmax_first (m : list bool) j :
  m !! j = Some true →
  m !! np_argmax m = Some true ∧ np_argmax m ≤ j ∧
  ∀ i, i < np_argmax m → m !! i = Some false.
Proof.
  intros Hj. unfold np_argmax.
  destruct (list_find (λ b : bool, b = true) m) as [[i b]|] eqn:Hf.
  - apply list_find_Some in Hf as (Hi & -> & Hmin). simpl.
    split; [done|]. split.
    + destruct (decide (i ≤ j)) as [|Hlt]; [done|].
      exfalso. apply (Hmin j true); [done | lia | done].
    + intros i' Hi'. destruct (m !! i') as [[]|] eqn:E.
      * exfalso. by apply (Hmin i' true).
      * done.
      * apply lookup_ge_None in E. apply lookup_lt_Some in Hi. lia.
  - apply list_find_None in Hf.
    exfalso. by apply (Forall_lookup_1 _ _ _ _ Hf Hj).
Qed.

(** [np.argmax] of a mask without [True] is 0. *)
Lemma np_argmax_none (m : list bool) :
  (∀ j, m !! j ≠ Some true) → np_argmax m = 0.
Proof.
  intros Hm. unfold np_argmax.
  destruct (list_find (λ b : bool, b = true) m) as [[i b]|] eqn:Hf; [|done].
  apply list_find_Some in Hf as (Hi & -> & _). by destruct (Hm i).
Qed.

Lemma np_argmax_lt (m : list bool) : m ≠ [] → np_argmax m < length m.
Proof.
  intros Hne. unfold np_argmax.
  destruct (list_find (λ b : bool, b = true) m) as [[i b]|] eqn:Hf; simpl.
  - apply list_find_Some in Hf as (Hi & _). by apply lookup_lt_Some in Hi.
  - destruct m; [done | simpl; lia].
Qed.

Lemma elem_of_flatnonzero_from (m : list bool) o i :
  i ∈ flatnonzero_from o m ↔ o ≤ i ∧ m !! (i - o) = Some true.
Proof.
  revert o. induction m as [|b m IH]; intros o; simpl.
  - rewrite elem_of_nil. intuition discriminate.
  - rewrite elem_of_app, IH. split.
    + intros [Hb | [Ho Hm]].
      * destruct b; [|by apply elem_of_nil in Hb].
        apply list_elem_of_singleton in Hb. subst i.
        split; [lia|]. by replace (o - o) with 0 by lia.
      * split; [lia|]. by replace (i - o) with (S (i - S o)) by lia.
    + intros [Ho Hm]. destruct (decide (i = o)) as [->|Hne].
      * left. replace (o - o) with 0 in Hm by lia. simpl in Hm.
        injection Hm as ->. by apply list_elem_of_singleton.
      * right. split; [lia|].
        by replace (i - o) with (S (i - S o)) in Hm by lia.
Qed.

Lemma elem_of_np_flatnonzero (m : list bool) i :
  i ∈ np_flatnonzero m ↔ m !! i = Some true.
Proof.
  unfold np_flatnonzero. rewrite elem_of_flatnonzero_from.
  replace (i - 0) with i by lia. intuition lia.
Qed.

Lemma NoDup_flatnonzero_from (m : list bool) o : NoDup (flatnonzero_from o m).
Proof.
  revert o. induction m as [|b m IH]; intros o; simpl; [constructor|].
  destruct b; simpl; [|done].
  constructor; [|done]. rewrite elem_of_flatnonzero_from. lia.
Qed.

Lemma length_flatnonzero_from (m : list bool) o :
  length (flatnonzero_from o m) = length (filter (λ b : bool, b = true) m).
Proof.
  revert o. induction m as [|b m IH]; intros o; [done|].
  cbn [flatnonzero_from]. destruct b.
  - rewrite filter_cons_True by done. simpl. by rewrite IH.
  - rewrite filter_cons_False by done. simpl. by rewrite IH.
Qed.

Lemma length_np_flatnonzero (m : list bool) :
  length (np_flatnonzero m) = np_count_nonzero m.
Proof. apply length_flatnonzero_from. Qed.

Lemma np_count_nonzero_le (m : list bool) : np_count_nonzero m ≤ length m.
Proof. apply length_filter. Qed.

Lemma np_count_nonzero_lt (m : list bool) j :
  m !! j = Some false → np_count_nonzero m < length m.
Proof.
  intros Hj. unfold np_count_nonzero.
  apply (length_filter_lt _ _ false); [|done].
  apply list_elem_of_lookup. eauto.
Qed.

(** *** [np.unique] *)

Lemma insert_unique_elem x l y : y ∈ insert_unique x l → y = x ∨ y ∈ l.
Proof.
  induction l as [|z l IH]; simpl.
  - intros ->%list_elem_of_singleton. by left.
  - destruct (x ?= z)%Q.
    + by right.
    + intros [->|H]%elem_of_cons; [by left | by right].
    + intros [->|H]%elem_of_cons; [right; left|].
      destruct (IH H) as [->|?]; [by left | right; by right].
Qed.

Lemma insert_unique_keeps x l y :
  y ∈ l → y ∈ insert_unique x l.
Proof.
  induction l as [|z l IH]; simpl; [by intros ?%elem_of_nil|].
  intros Hy. destruct (x ?= z)%Q; [done | by right |].
  apply elem_of_cons in Hy as [->|Hy]; [left | right; auto].
Qed.

Lemma insert_unique_holds x l : ∃ y, y ∈ insert_unique x l ∧ (y == x)%Q.
Proof.
  induction l as [|z l IH]; simpl.
  - exists x. split; [left | reflexivity].
  - destruct (x ?= z)%Q eqn:E.
    + apply Qeq_alt in E. exists z. split; [left | by symmetry].
    + exists x. split; [left | reflexivity].
    + destruct IH as (y & Hy & Hxy). exists y. split; [by right | done].
Qed.

Lemma insert_unique_sorted x l :
  StronglySorted Qlt l → StronglySorted Qlt (insert_unique x l).
Proof.
  induction 1 as [|z l Hs IH Hz]; simpl.
  - repeat constructor.
  - destruct (x ?= z)%Q eqn:E.
    + by constructor.
    + apply Qlt_alt in E. constructor; [by constructor|].
      constructor; [done|].
      apply Forall_lookup_2. intros k y Hy.
      apply Qlt_trans with z; [done|]. by apply (Forall_lookup_1 _ _ _ _ Hz Hy).
    + apply Qgt_alt in E. constructor; [done|].
      apply Forall_lookup_2. intros k y Hy.
      apply list_elem_of_lookup_2, insert_unique_elem in Hy as [->|Hy]; [done|].
      apply list_elem_of_lookup_1 in Hy as [k' Hy].
      by apply (Forall_lookup_1 _ _ _ _ Hz Hy).
Qed.


Lemma sorted_distinct_sorted a : StronglySorted Qlt (sorted_distinct a).
Proof.
  induction a as [|[x|] a IH]; simpl.
  - constructor.
  - by apply insert_unique_sorted.
  - done.
Qed.

Lemma sorted_lookup_lt (l : list Q) i j x y :
  StronglySorted Qlt l → l !! i = Some x → l !! j = Some y → i < j → (x < y)%Q.
Proof.
  intros Hs. revert i j. induction Hs as [|z l Hs IH Hz]; intros i j Hi Hj Hij.
  - done.
  - destruct j as [|j]; [lia|]. simpl in Hj. destruct i as [|i].
    + injection Hi as ->. by apply (Forall_lookup_1 _ _ _ _ Hz Hj).
    + simpl in Hi. apply (IH i j); [done | done | lia].
Qed.

Lemma sorted_distinct_level a x :
  (∃ y, y ∈ sorted_distinct a ∧ (y == x)%Q) ↔ level_of a x.
Proof.
  unfold level_of. induction a as [|[z|] a IH]; simpl.
  - split.
    + intros (y & Hy & _). by apply elem_of_nil in Hy.
    + intros (i & y & Hi & _). done.
  - split.
    + intros (y & Hy & Hyx). apply insert_unique_elem in Hy as [->|Hy].
      * exists 0, z. done.
      * destruct (proj1 IH) as (i & y' & Hi & Hy'); [by exists y|].
        exists (S i), y'. done.
    + intros (i & y & Hi & Hyx). destruct i as [|i].
      * injection Hi as ->.
        destruct (insert_unique_holds y (sorted_distinct a)) as (y' & Hy' & E).
        exists y'. split; [done|]. by rewrite E.
      * simpl in Hi. destruct (proj2 IH) as (y' & Hy' & E); [by exists i, y|].
        exists y'. split; [by apply insert_unique_keeps | done].
  - rewrite IH. split.
    + intros (i & y & Hi & Hyx). exists (S i), y. done.
    + intros (i & y & Hi & Hyx). destruct i as [|i]; [done|].
      exists i, y. done.
Qed.


Lemma length_np_unique a :
  length (np_unique a) =
  length (sorted_distinct a) + (if existsb isnan a then 1 else 0).
Proof.
  unfold np_unique. rewrite length_app, length_fmap.
  by destruct (existsb isnan a).
Qed.


Lemma sorted_lookup_inj (l : list Q) i j x y :
  StronglySorted Qlt l → l !! i = Some x → l !! j = Some y → (x == y)%Q → i = j.
Proof.
  intros Hs Hi Hj E.
  destruct (Nat.lt_total i j) as [Hlt|[->|Hlt]]; [|done|].
  - pose proof (sorted_lookup_lt _ _ _ _ _ Hs Hi Hj Hlt) as Hxy.
    rewrite E in Hxy. by apply Qlt_irrefl in Hxy.
  - pose proof (sorted_lookup_lt _ _ _ _ _ Hs Hj Hi Hlt) as Hxy.
    rewrite E in Hxy. by apply Qlt_irrefl in Hxy.
Qed.

(** [len(np.unique(Q))] is the number of distinct values of Q. *)
Lemma distinct_levels_spec (q : list float) :
  has_distinct_values (distinct_levels q) q.
Proof.
  exists (sorted_distinct q). split; [|split].
  - intros i j x y. apply sorted_lookup_inj, sorted_distinct_sorted.
  - intros x. symmetry. apply sorted_distinct_level.
  - apply length_np_unique.
Qed.

Lemma existsb_isnan_lookup (a : list float) :
  existsb isnan a = true ↔ ∃ i, a !! i = Some nan.
Proof.
  induction a as [|[z|] a IH]; simpl.
  - split; [done | by intros [i Hi]].
  - rewrite IH. split; intros [i Hi]; [by exists (S i)|].
    destruct i as [|i]; [done | by exists i].
  - split; [by exists 0 | done].
Qed.

(** The threshold under the loop guard, for [1 <= nc]: a number, at
    position [nc - 1] of the sorted distinct levels. *)
Lemma select_threshold_guard (c : Z) (q : list float) :
  (1 ≤ c)%Z → loop_guard c q = true →
  ∃ v, select_threshold c q = Some (Some v) ∧
       sorted_distinct q !! Z.to_nat (c - 1) = Some v.
Proof.
  intros Hc Hg. unfold loop_guard, distinct_levels in Hg.
  apply Z.ltb_lt in Hg. rewrite length_np_unique in Hg.
  assert (Z.to_nat (c - 1) < length (sorted_distinct q)) as Hlt.
  { destruct (existsb isnan q); lia. }
  destruct (lookup_lt_is_Some_2 _ _ Hlt) as [v Hv].
  exists v. split; [|done].
  unfold select_threshold, py_index.
  rewrite (proj2 (Z.leb_le 0 (c - 1))) by lia.
  unfold np_unique. rewrite lookup_app_l by (by rewrite length_fmap).
  by rewrite list_lookup_fmap, Hv.
Qed.

Lemma nth_smallest_sorted_distinct (q : list float) n v :
  sorted_distinct q !! n = Some v → nth_smallest_distinct (S n) q v.
Proof.
  intros Hv. pose proof (sorted_distinct_sorted q) as Hs. split.
  { apply sorted_distinct_level. exists v. split; [|reflexivity].
    apply list_elem_of_lookup. eauto. }
  exists (take n (sorted_distinct q)). split; [|split].
  - rewrite length_take. apply lookup_lt_Some in Hv. lia.
  - intros i j x y [Hi Hx]%lookup_take_Some [Hj Hy]%lookup_take_Some E.
    by apply (sorted_lookup_inj _ _ _ _ _ Hs Hi Hj).
  - intros x. split.
    + intros [Hxv (y & Hy & E)%sorted_distinct_level].
      exists y. split; [|done].
      apply list_elem_of_lookup in Hy as [k Hk].
      apply list_elem_of_lookup. exists k. apply lookup_take_Some. split; [done|].
      destruct (Nat.lt_total k n) as [Hlt|[->|Hlt]]; [done| |].
      * rewrite Hv in Hk. injection Hk as ->.
        rewrite E in Hxv. by apply Qlt_irrefl in Hxv.
      * pose proof (sorted_lookup_lt _ _ _ _ _ Hs Hv Hk Hlt) as Hvy.
        rewrite E in Hvy. exfalso. apply (Qlt_irrefl x).
        by apply Qlt_trans with v.
    + intros (y & Hy & E). apply list_elem_of_lookup in Hy as [k Hk].
      apply lookup_take_Some in Hk as [Hk Hlt]. split.
      * rewrite <- E. by apply (sorted_lookup_lt _ _ _ _ _ Hs Hk Hv).
      * apply sorted_distinct_level. exists y. split; [|done].
        apply list_elem_of_lookup. eauto.
Qed.

Lemma elem_of_select_idx (q : list float) (v : Q) i :
  i ∈ select_idx q (Some v) ↔ ∃ x, q !! i = Some (Some x) ∧ (x <= v)%Q.
Proof.
  unfold select_idx. rewrite elem_of_np_flatnonzero, list_lookup_fmap.
  split.
  - destruct (q !! i) as [a|]; [|done]. intros [= H].
    apply float_le_true in H as (x & y & -> & [= <-] & H). eauto.
  - intros (x & -> & H). simpl. f_equal. by apply Qle_bool_iff.
Qed.

Lemma elem_of_select_other (q : list float) (v : Q) i :
  i ∈ select_other q (Some v) ↔ ∃ x, q !! i = Some (Some x) ∧ (v < x)%Q.
Proof.
  unfold select_other. rewrite elem_of_np_flatnonzero, list_lookup_fmap.
  split.
  - destruct (q !! i) as [a|]; [|done]. intros [= H].
    change (float_lt (Some v) a = true) in H.
    apply float_lt_true in H as (x & y & [= <-] & -> & H). eauto.
  - intros (x & -> & H). simpl. f_equal. by apply (float_lt_Some v x).
Qed.

Section PlanFacts.
Context {W R : Type} (next_uint : R → nat * R) (ams : AMS W).

(** What a returned [plan] holds, field by field. *)
Lemma plan_Return (st : loop_state W R) (p : cloning R) :
  plan next_uint ams st = Return p →
  select_threshold (nc ams) (st_Q st) = Some (cl_threshold p) ∧
  cl_idx p = select_idx (st_Q st) (cl_threshold p) ∧
  cl_other_idx p = select_other (st_Q st) (cl_threshold p) ∧
  cl_Q_min p = (λ i, st_Q st !!! i) <$> cl_idx p ∧
  (cl_new_ind p, cl_rng p) =
    rng_choice next_uint (st_rng st) (cl_other_idx p) (length (cl_idx p)) ∧
  cl_restart p =
    zip_with (λ s q, restart_index (st_score st !!! s) q)
             (cl_new_ind p) (cl_Q_min p) ∧
  N_traj ams ≠ 0%Z ∧
  (cl_idx p ≠ [] → cl_other_idx p ≠ []).
Proof.
  unfold plan. destruct (select_threshold (nc ams) (st_Q st)) as [th|]; [|done].
  simpl. destruct (Z.eqb_spec (N_traj ams) 0); [done|].
  case_bool_decide as Hd; [done|].
  destruct (rng_choice _ _ _ _) as [new_ind g] eqn:Hc.
  intros [= <-]. simpl. rewrite Hc. repeat split; try done.
  intros Hi Ho. apply Hd. done.
Qed.
End PlanFacts.

(** ** The loop guard *)

Section LoopFacts.
Context {W R : Type} (next_uint : R → nat * R) (ams : AMS W).

Lemma loop_guard_true (q : list float) :
  loop_guard (nc ams) q = true ↔ (nc ams < Z.of_nat (distinct_levels q))%Z.
Proof. apply Z.ltb_lt. Qed.

Lemma loop_guard_false (q : list float) :
  loop_guard (nc ams) q = false ↔ (Z.of_nat (distinct_levels q) ≤ nc ams)%Z.
Proof. unfold loop_guard. rewrite Z.ltb_ge. done. Qed.

Lemma loop_exit fuel (st : loop_state W R) :
  loop_guard (nc ams) (st_Q st) = false → loop next_uint ams fuel st = Return st.
Proof. intros Hg. destruct fuel; simpl; by rewrite Hg. Qed.

Lemma loop_enter fuel (st : loop_state W R) :
  loop_guard (nc ams) (st_Q st) = true →
  loop next_uint ams (S fuel) st =
  (iteration next_uint ams st ≫= loop next_uint ams fuel).
Proof. intros Hg. simpl. by rewrite Hg. Qed.

(** A loop that returns does so in a reachable state whose guard is
    false. *)
Lemma loop_Return fuel (st0 st : loop_state W R) :
  loop next_uint ams fuel st0 = Return st →
  reachable next_uint ams st0 st ∧ loop_guard (nc ams) (st_Q st) = false.
Proof.
  revert st0. induction fuel as [|fuel IH]; intros st0; simpl.
  - destruct (loop_guard (nc ams) (st_Q st0)) eqn:Hg; [done|].
    intros [= <-]. split; [constructor | done].
  - destruct (loop_guard (nc ams) (st_Q st0)) eqn:Hg.
    + destruct (iteration next_uint ams st0) as [st1| |] eqn:Hit; try done.
      simpl. intros Hl. destruct (IH _ Hl) as [Hr Hg']. split; [|done].
      clear -Hr Hg Hit. induction Hr.
      * eapply reach_iter; [apply reach_entry | done | done].
      * eapply reach_iter; [by apply IHHr | done | done].
    + intros [= <-]. split; [constructor | done].
Qed.

(** What the state of loop entry holds. *)
Lemma initial_Return g wd init (st0 : loop_state W R) :
  initial ams g wd init = Return st0 →
  ∃ gen sc m,
    comp_traj ams = Some gen ∧ comp_score ams = Some sc ∧ model ams = Some m ∧
    st_traj st0 = (gen wd (N_traj ams) init).1 ∧
    st_world st0 = (gen wd (N_traj ams) init).2 ∧
    st_score st0 = zip_with (classify m) (st_traj st0) (sc (st_traj st0)) ∧
    st_Q st0 = np_nanmax <$> st_score st0 ∧
    st_Nt st0 = initial_lengths (st_traj st0) ∧
    np_max (st_Nt st0) = Some (st_max_Nt st0) ∧
    shape1 (st_traj st0) ≠ 0 ∧
    st_k st0 = 0 ∧ st_w st0 = 1%Q ∧ st_rng st0 = g.
Proof.
  unfold initial. destruct (comp_traj ams) as [gen|]; [|done]. simpl.
  destruct (Nat.eqb_spec (shape1 (gen wd (N_traj ams) init).1) 0); [done|].
  destruct (np_max _) as [mx|] eqn:Hmx; [|done]. simpl.
  destruct (comp_score ams) as [sc|]; [|done]. simpl.
  destruct (model ams) as [m|]; [|done]. simpl.
  destruct (same_shape _ _); [|done]. simpl.
  intros [= <-]. exists gen, sc, m. simpl. repeat split; done.
Qed.

(** The score array of entry has the shape of the trajectories. *)
Lemma initial_Return_shape g wd init (st0 : loop_state W R) :
  initial ams g wd init = Return st0 →
  ∃ sc, comp_score ams = Some sc ∧
        length <$> st_traj st0 = length <$> sc (st_traj st0).
Proof.
  unfold initial. destruct (comp_traj ams) as [gen|]; [|done]. simpl.
  destruct (Nat.eqb_spec (shape1 (gen wd (N_traj ams) init).1) 0); [done|].
  destruct (np_max _) as [mx|] eqn:Hmx; [|done]. simpl.
  destruct (comp_score ams) as [sc|]; [|done]. simpl.
  destruct (model ams) as [m|]; [|done]. simpl.
  destruct (same_shape _ _) eqn:Hs; [|done]. simpl.
  intros [= <-]. exists sc. split; [done|]. simpl.
  by apply bool_decide_eq_true in Hs.
Qed.
End LoopFacts.

(** A run whose ensemble of entry has at most nc levels. *)
Lemma run_at_most_nc_levels
    {W R : Type} (next_uint : R → nat * R) (ams : AMS W)
    (fuel : nat) (st : loop_state W R) g wd init zmax :
  initial ams g wd init = Return st →
  (Z.of_nat (distinct_levels (st_Q st)) ≤ nc ams)%Z →
  ∃ res gen,
    run next_uint ams fuel g wd init zmax = Return (res, g, st_world st) ∧
    iterations res = 0 ∧
    trajectories res = st_traj st ∧ scores res = st_score st ∧
    comp_traj ams = Some gen ∧
    st_traj st = (gen wd (N_traj ams) init).1 ∧
    st_world st = (gen wd (N_traj ams) init).2.
Proof.
  intros Hi Hle.
  destruct (initial_Return _ _ _ _ _ Hi)
    as (gen & sc & m & Hgen & _ & _ & Ht & Hw & _ & _ & _ & _ & _ & Hk & _ & Hg).
  eexists _, gen. unfold run. rewrite Hi. simpl.
  rewrite loop_exit by (by apply loop_guard_false). simpl.
  rewrite Hg. split; [reflexivity|]. simpl. done.
Qed.

(** ** Selection *)

(** C2. In an iteration (the guard holds, and nc is at least 1 as [run]
    requires) the threshold is the nc-th smallest distinct value of Q
    counted from 1, [idx] holds exactly the indices whose Q is at most the
    threshold and [other_idx] exactly those whose Q is above it; these are
    the values a returned [plan] carries. *)
Theorem C2_threshold_and_partition
    {W R : Type} (next_uint : R → nat * R) (ams : AMS W) (st : loop_state W R) :
  (1 ≤ nc ams)%Z →
  loop_guard (nc ams) (st_Q st) = true →
  ∃ v : Q,
    select_threshold (nc ams) (st_Q st) = Some (Some v) ∧
    nth_smallest_distinct (Z.to_nat (nc ams)) (st_Q st) v ∧
    (∀ i, i ∈ select_idx (st_Q st) (Some v) ↔
          ∃ x, st_Q st !! i = Some (Some x) ∧ (x <= v)%Q) ∧
    (∀ i, i ∈ select_other (st_Q st) (Some v) ↔
          ∃ x, st_Q st !! i = Some (Some x) ∧ (v < x)%Q) ∧
    (∀ p, plan next_uint ams st = Return p →
          cl_threshold p = Some v ∧
          cl_idx p = select_idx (st_Q st) (Some v) ∧
          cl_other_idx p = select_other (st_Q st) (Some v)).
Proof.
  intros Hc Hg.
  destruct (select_threshold_guard _ _ Hc Hg) as (v & Hth & Hv).
  exists v. split; [done|]. split; [|split; [|split]].
  - replace (Z.to_nat (nc ams)) with (S (Z.to_nat (nc ams - 1))) by lia.
    by apply nth_smallest_sorted_distinct.
  - apply elem_of_select_idx.
  - apply elem_of_select_other.
  - intros p (Hth' & Hidx & Hother & _)%plan_Return.
    rewrite Hth in Hth'. injection Hth' as Hth'. by rewrite <- Hth' in *.
Qed.

Lemma C2_threshold_and_partition_witness :
  ∃ st p,
    initial (Toy.ams 3 2) 0 0 Toy.start = Return st ∧
    plan Toy.next (Toy.ams 3 2) st = Return p ∧
    cl_threshold p = Some (3 # 4) ∧
    nth_smallest_distinct 2 (st_Q st) (3 # 4) ∧
    cl_idx p = [0; 1] ∧ cl_other_idx p = [2].
Proof.
  destruct (initial (R:=nat) (Toy.ams 3 2) 0 0 Toy.start) as [st| |] eqn:E;
    [|by vm_compute in E..].
  destruct (plan Toy.next (Toy.ams 3 2) st) as [p| |] eqn:Ep.
  2,3: vm_compute in E; injection E as <-; by vm_compute in Ep.
  exists st, p. split; [done|]. split; [done|].
  destruct (C2_threshold_and_partition Toy.next (Toy.ams 3 2) st)
    as (v & Hth & Hnth & _ & _ & Hp).
  - done.
  - vm_compute in E. injection E as <-. by vm_compute.
  - destruct (Hp p Ep) as (Hpt & Hpi & Hpo).
    assert (v = 3 # 4) as ->.
    { vm_compute in E. injection E as <-. vm_compute in Hth. congruence. }
    split; [done|]. split; [done|].
    rewrite Hpi, Hpo. vm_compute in E. injection E as <-. by vm_compute.
Defined.

(** C3, as the claim states it, fails: with Q = (1/4, 1/2, 3/4) and nc = 2
    the threshold is 1/2, and the trajectory of index 1, whose Q is the
    threshold exactly, is selected for regeneration. *)
Lemma C3_ties_at_threshold_counterexample :
  ¬ (∀ (q : list float) (c : Z) (v : Q) (i : nat),
       (1 ≤ c)%Z → loop_guard c q = true →
       select_threshold c q = Some (Some v) →
       q !! i = Some (Some v) →
       i ∉ select_idx q (Some v)).
Proof.
  intros H.
  apply (H [Some (1 # 4); Some (1 # 2); Some (3 # 4)] 2%Z (1 # 2) 1);
    [lia | done | done | done |].
  vm_compute. by right; left.
Qed.

(** C3, amended. In an iteration a trajectory is selected for
    regeneration exactly when its Q is at most the threshold: every
    trajectory below the threshold and every trajectory at the threshold
    is selected, and the cloning sources are the trajectories strictly
    above it, none of which is selected. *)
Theorem C3_ties_at_threshold_are_discarded
    (q : list float) (c : Z) (v : Q) (i : nat) (x : Q) :
  select_threshold c q = Some (Some v) →
  q !! i = Some (Some x) →
  ((x == v)%Q → i ∈ select_idx q (Some v)) ∧
  ((x < v)%Q → i ∈ select_idx q (Some v)) ∧
  (i ∈ select_other q (Some v) ↔ (v < x)%Q) ∧
  (i ∈ select_other q (Some v) ↔ i ∉ select_idx q (Some v)).
Proof.
  intros _ Hi.
  assert (i ∈ select_idx q (Some v) ↔ (x <= v)%Q) as Hidx.
  { rewrite elem_of_select_idx. split.
    - intros (y & Hy & Hle). rewrite Hi in Hy. by injection Hy as ->.
    - eauto. }
  assert (i ∈ select_other q (Some v) ↔ (v < x)%Q) as Hoth.
  { rewrite elem_of_select_other. split.
    - intros (y & Hy & Hlt). rewrite Hi in Hy. by injection Hy as ->.
    - eauto. }
  split; [|split; [|split]].
  - intros E. apply Hidx. rewrite E. apply Qle_refl.
  - intros E. apply Hidx. by apply Qlt_le_weak.
  - done.
  - rewrite Hoth, Hidx. split; [apply Qlt_not_le | apply Qnot_le_lt].
Qed.

Lemma C3_ties_at_threshold_are_discarded_witness :
  1 ∈ select_idx [Some (1 # 4); Some (1 # 2); Some (3 # 4)] (Some (1 # 2)) ∧
  2 ∉ select_idx [Some (1 # 4); Some (1 # 2); Some (3 # 4)] (Some (1 # 2)).
Proof.
  split.
  - destruct (C3_ties_at_threshold_are_discarded
                [Some (1 # 4); Some (1 # 2); Some (3 # 4)] 2 (1 # 2) 1 (1 # 2))
      as (H & _); [done | done |].
    apply H. reflexivity.
  - destruct (C3_ties_at_threshold_are_discarded
                [Some (1 # 4); Some (1 # 2); Some (3 # 4)] 2 (1 # 2) 2 (3 # 4))
      as (_ & _ & H1 & H2); [done | done |].
    apply H2, H1. reflexivity.
Defined.

(** ** Natural lengths *)

Lemma np_argmax_isnan_any (tr : trajectory) :
  np_argmax (isnan_any tr) =
  from_option fst 0 (list_find (λ s : state, existsb isnan s = true) tr).
Proof.
  unfold np_argmax, isnan_any.
  assert (fst <$> list_find (λ b : bool, b = true) ((λ s : state, existsb isnan s) <$> tr)
          = fst <$> list_find (λ s : state, existsb isnan s = true) tr) as H.
  { induction tr as [|s tr IH]; [done|]. csimpl.
    destruct (existsb isnan s) eqn:E.
    - repeat case_decide; done.
    - repeat case_decide; try done.
      destruct (list_find _ (_ <$> tr)) as [[i b]|],
               (list_find _ tr) as [[j s']|]; simpl in *; congruence. }
  destruct (list_find _ (_ <$> tr)) as [[i b]|],
           (list_find _ tr) as [[j s']|]; simpl in *; congruence.
Qed.

Lemma all_defined_existsb (s : state) :
  forallb (λ x, negb (isnan x)) s = negb (existsb isnan s).
Proof. induction s as [|[x|] s IH]; simpl; done. Qed.

Lemma all_defined_list_find (tr : trajectory) :
  forallb (λ s : state, forallb (λ x, negb (isnan x)) s) tr = true ↔
  list_find (λ s : state, existsb isnan s = true) tr = None.
Proof.
  induction tr as [|s tr IH]; [done|]. csimpl.
  rewrite all_defined_existsb. case_decide as E.
  - rewrite E. done.
  - apply not_true_is_false in E. rewrite E. simpl. rewrite IH.
    destruct (list_find _ tr) as [[j s']|]; done.
Qed.

(** Lines 127-128 compute the natural length of the specification. *)
Lemma clone_lengths_spec (b : batch) :
  clone_lengths b = spec_natural_length (shape1 b) <$> b.
Proof.
  unfold clone_lengths. apply list_fmap_ext. intros _ tr _.
  unfold spec_natural_length. rewrite np_argmax_isnan_any.
  destruct (forallb _ tr) eqn:E.
  - apply all_defined_list_find in E. by rewrite E.
  - destruct (list_find _ tr) as [[i s]|] eqn:F; [done|].
    apply all_defined_list_find in F. congruence.
Qed.

(** Lines 97-98 compute it as well, unless a trajectory is undefined from
    its first step. *)
Lemma initial_lengths_spec (b : batch) :
  (∀ i tr s, b !! i = Some tr → tr !! 0 = Some s → existsb isnan s = false) →
  initial_lengths b = spec_natural_length (shape1 b) <$> b.
Proof.
  intros H0. unfold initial_lengths. apply list_fmap_ext. intros i tr Hi.
  unfold spec_natural_length. rewrite np_argmax_isnan_any.
  destruct (list_find _ tr) as [[j s]|] eqn:F; [|done]. simpl.
  apply list_find_Some in F as (Hj & Hs & _).
  destruct j as [|j]; [|done].
  rewrite (H0 _ _ _ Hi Hj) in Hs. done.
Qed.

(** C9 fails on a trajectory that is undefined from its first step: for
    the batch of one such trajectory of allocated length 2, lines 97-98
    give the natural length 2, where lines 127-128 give 0, the index of the
    first undefined step. *)
Theorem C9_lengths_disagree_when_undefined_from_start :
  initial_lengths [[Toy.gap; Toy.gap]] = [2] ∧
  clone_lengths [[Toy.gap; Toy.gap]] = [0] ∧
  spec_natural_length 2 <$> [[Toy.gap; Toy.gap]] = [0].
Proof. by vm_compute. Qed.

(** ** One iteration *)

Lemma length_clone_row {A : Type} r l (src cont old : list A) :
  length (clone_row r l src cont old) = length old.
Proof. unfold clone_row. by rewrite !length_inserts. Qed.

Lemma length_zone_override on off sc : length (zone_override on off sc) = length sc.
Proof. apply length_imap. Qed.

Lemma length_classify m tr sc : length (classify m tr sc) = length sc.
Proof. apply length_zone_override. Qed.

Lemma length_pad_traj d pad traj : length (pad_traj d pad traj) = length traj.
Proof. apply length_fmap. Qed.

Lemma length_pad_score pad score : length (pad_score pad score) = length score.
Proof. apply length_fmap. Qed.

Section MergeLength.
Context (m : Model) (idx new_ind restart new_nt : list nat).
Context (new_traj : batch) (new_score : list series).

Lemma length_merge_one ts i :
  length (merge_one m idx new_ind restart new_nt new_traj new_score ts i).1
    = length ts.1 ∧
  length (merge_one m idx new_ind restart new_nt new_traj new_score ts i).2
    = length ts.2.
Proof. unfold merge_one. simpl. by rewrite !length_insert. Qed.

Lemma length_foldl_merge_one ts (l : list nat) :
  length (foldl (merge_one m idx new_ind restart new_nt new_traj new_score) ts l).1
    = length ts.1 ∧
  length (foldl (merge_one m idx new_ind restart new_nt new_traj new_score) ts l).2
    = length ts.2.
Proof.
  revert ts. induction l as [|i l IH]; intros ts; [done|]. simpl.
  destruct (IH (merge_one m idx new_ind restart new_nt new_traj new_score ts i))
    as [-> ->].
  apply length_merge_one.
Qed.

(** The ensemble keeps its number of trajectories through the merge. *)
Lemma length_merge traj score :
  length (merge m idx new_ind restart new_nt new_traj new_score traj score).1
    = length traj ∧
  length (merge m idx new_ind restart new_nt new_traj new_score traj score).2
    = length score.
Proof. apply (length_foldl_merge_one (traj, score)). Qed.
End MergeLength.

(** The merge loop goes through when none of its passes is refused. *)
Lemma merge_refusals_None width new_nt new_traj new_score k :
  merge_refusals width new_nt new_traj new_score k = None ↔
  ∀ i, i < k → merge_refusal width new_nt new_traj new_score i = None.
Proof.
  unfold merge_refusals.
  assert (∀ l : list nat,
            head (omap (merge_refusal width new_nt new_traj new_score) l) = None ↔
            ∀ i, i ∈ l → merge_refusal width new_nt new_traj new_score i = None)
    as H.
  { induction l as [|x l IH]; simpl.
    - split; [|done]. by intros _ i Hi%elem_of_nil.
    - destruct (merge_refusal width new_nt new_traj new_score x) eqn:E; simpl.
      + split; [done|]. intros H. rewrite H in E; [done|]. apply elem_of_cons. by left.
      + rewrite IH. split.
        * intros H i [->|Hi]%elem_of_cons; [done | by apply H].
        * intros H i Hi. apply H, elem_of_cons. by right. }
  rewrite H. split.
  - intros Hl i Hi. apply Hl, elem_of_seq. lia.
  - intros Hl i Hi%elem_of_seq. apply Hl. lia.
Qed.

(** A pass that is not refused has its continuation, of the width asked
    for and with scores up to the last step copied. *)
Lemma merge_refusal_None width new_nt new_traj new_score i :
  merge_refusal width new_nt new_traj new_score i = None ↔
  ∃ l cont sc,
    new_nt !! i = Some l ∧ new_traj !! i = Some cont ∧ new_score !! i = Some sc ∧
    Forall (λ s : state, length s = width) cont ∧
    (1 < l → l ≤ length sc).
Proof.
  unfold merge_refusal.
  destruct (new_nt !! i) as [l|]; [|split; [done | by intros (? & ? & ? & ? & _)]].
  destruct (new_traj !! i) as [cont|];
    [|split; [done | by intros (? & ? & ? & _ & ? & _)]].
  assert (forallb (λ s : state, length s =? width) cont = true ↔
          Forall (λ s : state, length s = width) cont) as Hw.
  { induction cont as [|s cont IH]; simpl; [by split|].
    rewrite andb_true_iff, IH, Nat.eqb_eq. split.
    - intros [? ?]. by constructor.
    - by inversion 1. }
  destruct (forallb _ cont) eqn:Hf; simpl.
  - destruct (new_score !! i) as [sc|];
      [|split; [done | by intros (? & ? & ? & _ & _ & ? & _)]].
    destruct (Nat.ltb_spec 1 l) as [H1|H1]; simpl.
    + destruct (Nat.ltb_spec (length sc) l) as [H2|H2].
      * split; [done|]. intros (? & ? & ? & [= <-] & _ & [= <-] & _ & H). lia.
      * split; [|done]. intros _. exists l, cont, sc.
        repeat split; try done. by apply Hw.
    + split; [|done]. intros _. exists l, cont, sc.
      repeat split; try done; [by apply Hw | lia].
  - split; [done|]. intros (? & ? & ? & _ & [= <-] & _ & H & _).
    apply Hw in H. done.
Qed.

(** When the merge loop goes through, line 131 had a length for each
    clone. *)
Lemma broadcast_lengths_merged width new_nt new_traj new_score k lens :
  k ≠ 0 →
  broadcast_lengths k new_nt = Some lens →
  merge_refusals width new_nt new_traj new_score k = None →
  lens = new_nt ∧ length new_nt = k.
Proof.
  intros Hk Hb Hm. unfold broadcast_lengths in Hb.
  destruct (Nat.eqb_spec (length new_nt) k) as [E|E]; [by injection Hb as <-|].
  destruct (Nat.eqb_spec (length new_nt) 1) as [E1|E1]; [|done].
  exfalso. rewrite merge_refusals_None in Hm.
  destruct (proj1 (merge_refusal_None _ _ _ _ _) (Hm (k - 1) ltac:(lia)))
    as (l & _ & _ & Hl & _).
  apply lookup_lt_Some in Hl. lia.
Qed.

Section IterationFacts.
Context {W R : Type} (next_uint : R → nat * R) (ams : AMS W).

(** What a returned [iteration] holds, local by local. *)
Lemma iteration_Return (st st' : loop_state W R) :
  iteration next_uint ams st = Return st' →
  ∃ p gen sc m new_max,
    plan next_uint ams st = Return p ∧
    comp_traj ams = Some gen ∧ comp_score ams = Some sc ∧ model ams = Some m ∧
    let out := gen (st_world st) (Z.of_nat (length (cl_idx p)))
                 (init_clone (st_traj st) (cl_new_ind p) (cl_restart p)) in
    let merged := merge m (cl_idx p) (cl_new_ind p) (cl_restart p)
                    (clone_lengths out.1) out.1 (sc out.1)
                    (grow_traj (st_max_Nt st) new_max (st_traj st))
                    (grow_score (st_max_Nt st) new_max (st_score st)) in
    shape1 out.1 ≠ 0 ∧
    st_Nt st' = assign_lengths (st_Nt st) (cl_idx p) (cl_restart p)
                  (clone_lengths out.1) ∧
    np_max ((λ t, st_Nt st' !!! t) <$> cl_idx p) = Some new_max ∧
    st_traj st' = merged.1 ∧ st_score st' = merged.2 ∧
    st_Q st' = np_nanmax <$> st_score st' ∧
    st_w st' = b64 (st_w st * weight_factor (length (cl_idx p)) (N_traj ams)) ∧
    st_k st' = st_k st + 1 ∧ st_rng st' = cl_rng p ∧ st_world st' = out.2 ∧
    st_max_Nt st' = (if st_max_Nt st <? new_max then new_max else st_max_Nt st).
Proof.
  unfold iteration. destruct (plan next_uint ams st) as [p| |]; [|done..]. simpl.
  destruct (comp_traj ams) as [gen|]; [|done]. simpl.
  destruct (comp_score ams) as [sc|]; [|done]. simpl.
  destruct (Nat.eqb_spec (shape1 (gen (st_world st) (Z.of_nat (length (cl_idx p)))
    (init_clone (st_traj st) (cl_new_ind p) (cl_restart p))).1) 0)
    as [|Hsh]; [done|].
  destruct (broadcast_lengths _ _) as [lens|] eqn:Hb; [|done]. simpl.
  destruct (np_max _) as [new_max|] eqn:Hmax; [|done]. simpl.
  destruct (_ && negb _); [done|].
  destruct (merge_refusals _ _ _ _ 1); [done|]. simpl.
  destruct (model ams) as [m|]; [|done]. simpl.
  destruct (merge_refusals _ _ _ _ (length (cl_idx p))) eqn:Hm; [done|]. simpl.
  intros [= <-]. exists p, gen, sc, m, new_max. simpl.
  assert (length (cl_idx p) ≠ 0) as Hk by (by destruct (cl_idx p)).
  destruct (broadcast_lengths_merged _ _ _ _ _ _ Hk Hb Hm) as [-> _].
  repeat split; done.
Qed.

(** The shapes numpy has accepted when an [iteration] returns: a
    continuation per clone, an ensemble that fits the block of NaN if the
    time axis grows, and continuations of the width of the stored states
    with scores up to the last step copied. *)
Lemma iteration_Return_shapes (st st' : loop_state W R) p gen sc new_max :
  iteration next_uint ams st = Return st' →
  plan next_uint ams st = Return p →
  comp_traj ams = Some gen → comp_score ams = Some sc →
  np_max ((λ t, st_Nt st' !!! t) <$> cl_idx p) = Some new_max →
  let out := gen (st_world st) (Z.of_nat (length (cl_idx p)))
               (init_clone (st_traj st) (cl_new_ind p) (cl_restart p)) in
  length out.1 = length (cl_idx p) ∧
  (st_max_Nt st < new_max →
     fits_block (N_traj ams) (st_traj st) (st_score st) = true) ∧
  ∀ i, i < length (cl_idx p) →
    merge_refusal (shape2 (grow_traj (st_max_Nt st) new_max (st_traj st)))
      (clone_lengths out.1) out.1 (sc out.1) i = None.
Proof.
  unfold iteration. intros Hit Hp Hgen Hsc. revert Hit.
  rewrite Hp, Hgen, Hsc. simpl.
  destruct (shape1 _ =? 0); [done|].
  destruct (broadcast_lengths _ _) as [lens|] eqn:Hb; [|done]. simpl.
  destruct (np_max _) as [new_max'|] eqn:Hmax; [|done]. simpl.
  destruct (_ && negb _) eqn:Hfit; [done|].
  destruct (merge_refusals _ _ _ _ 1); [done|]. simpl.
  destruct (model ams) as [m|]; [|done]. simpl.
  destruct (merge_refusals _ _ _ _ (length (cl_idx p))) eqn:Hm; [done|]. simpl.
  intros [= <-]. simpl. rewrite Hmax. intros [= <-].
  assert (length (cl_idx p) ≠ 0) as Hk by (by destruct (cl_idx p)).
  destruct (broadcast_lengths_merged _ _ _ _ _ _ Hk Hb Hm) as [-> Hlen].
  unfold clone_lengths in Hlen. rewrite length_fmap in Hlen.
  split; [done|]. split.
  - intros Hlt. apply Nat.ltb_lt in Hlt. rewrite Hlt in Hfit.
    simpl in Hfit. by apply negb_false_iff in Hfit.
  - by apply merge_refusals_None.
Qed.

Lemma length_grow_traj a b traj : length (grow_traj a b traj) = length traj.
Proof. unfold grow_traj. destruct (a <? b); [apply length_pad_traj | done]. Qed.

Lemma length_grow_score a b score : length (grow_score a b score) = length score.
Proof. unfold grow_score. destruct (a <? b); [apply length_pad_score | done]. Qed.

(** The number of rows does not change. *)
Lemma iteration_rows (st st' : loop_state W R) :
  iteration next_uint ams st = Return st' →
  length (st_score st') = length (st_score st) ∧
  length (st_traj st') = length (st_traj st).
Proof.
  intros (p & gen & sc & m & new_max & _ & _ & _ & _ & H)%iteration_Return.
  simpl in H. destruct H as (_ & _ & _ & -> & -> & _).
  match goal with
  | |- context [merge ?m ?a ?b ?c ?d ?e ?f ?g ?h] =>
      destruct (length_merge m a b c d e f g h) as [-> ->]
  end.
  by rewrite length_grow_traj, length_grow_score.
Qed.
End IterationFacts.

(** ** The iterations of a run *)

Section Trace.
Context {W R : Type} (next_uint : R → nat * R) (ams : AMS W).

Lemma iterates_reachable (st0 st : loop_state W R) sizes :
  iterates next_uint ams st0 sizes st → reachable next_uint ams st0 st.
Proof.
  induction 1 as [|sizes st st' p _ IH Hg _ Hit]; [constructor|].
  by apply reach_iter with st.
Qed.

Lemma iterates_cons (st0 st1 st : loop_state W R) p sizes :
  loop_guard (nc ams) (st_Q st0) = true →
  plan next_uint ams st0 = Return p →
  iteration next_uint ams st0 = Return st1 →
  iterates next_uint ams st1 sizes st →
  iterates next_uint ams st0 (length (cl_idx p) :: sizes) st.
Proof.
  intros Hg Hp Hit Hrest.
  induction Hrest as [|sizes st st' p' _ IH Hg' Hp' Hit'].
  - apply (iterates_iter _ _ _ [] st0 st1 p); [constructor | done..].
  - rewrite app_comm_cons. by apply iterates_iter with st.
Qed.

Lemma loop_iterates fuel (st0 st : loop_state W R) :
  loop next_uint ams fuel st0 = Return st →
  ∃ sizes, iterates next_uint ams st0 sizes st ∧ length sizes ≤ fuel ∧
           loop_guard (nc ams) (st_Q st) = false.
Proof.
  revert st0. induction fuel as [|fuel IH]; intros st0; simpl.
  - destruct (loop_guard (nc ams) (st_Q st0)) eqn:Hg; [done|].
    intros [= <-]. exists []. split; [constructor | done].
  - destruct (loop_guard (nc ams) (st_Q st0)) eqn:Hg.
    + destruct (iteration next_uint ams st0) as [st1| |] eqn:Hit; try done.
      simpl. intros Hl. destruct (IH _ Hl) as (sizes & Hrest & Hlen & Hexit).
      destruct (iteration_Return _ _ _ _ Hit) as (p & _ & _ & _ & _ & Hp & _).
      exists (length (cl_idx p) :: sizes).
      split; [by apply iterates_cons with st1|]. simpl. split; [lia | done].
    + intros [= <-]. exists []. split; [constructor|]. simpl. split; [lia | done].
Qed.

Lemma iterates_count (st0 st : loop_state W R) sizes :
  iterates next_uint ams st0 sizes st →
  st_k st = st_k st0 + length sizes ∧
  st_w st = foldl (λ w s, b64 (w * weight_factor s (N_traj ams))) (st_w st0) sizes.
Proof.
  induction 1 as [|sizes st st' p _ [IHk IHw] Hg Hp Hit].
  - simpl. split; [lia | done].
  - destruct (iteration_Return _ _ _ _ Hit)
      as (p' & gen & sc & m & new_max & Hp' & _ & _ & _ & H).
    rewrite Hp in Hp'. injection Hp' as <-.
    simpl in H. destruct H as (_ & _ & _ & _ & _ & _ & Hw & Hk & _).
    rewrite length_app, foldl_snoc, Hw, Hk, IHk, IHw. simpl. split; [lia | done].
Qed.
End Trace.

(** ** The loop *)

(** C1. The loop body runs again exactly when the number of distinct
    values of Q exceeds nc: [distinct_levels] counts the distinct values of
    Q; with fuel left, a state with more than nc distinct levels goes
    through [iteration] and the loop resumes, and a state with at most nc
    distinct levels leaves the loop unchanged.  [run] runs this loop on
    the ensemble it builds on entry: when that ensemble has more than nc
    distinct levels, [run] is an iteration on it followed by the rest of
    the loop and the record of the state of exit; when it has at most nc,
    [run] returns a record with iteration count 0, the trajectories and
    scores of that ensemble, the random generator untouched and the
    trajectory function called for the initial ensemble only.  A run that
    returns reports as many iterations as it went through, each entered
    with more than nc distinct levels, and left the loop with at most nc;
    it reports none exactly when the ensemble of entry had at most nc. *)
Theorem C1_loop_runs_iff_more_than_nc_levels
    {W R : Type} (next_uint : R → nat * R) (ams : AMS W)
    (fuel : nat) (st : loop_state W R) :
  has_distinct_values (distinct_levels (st_Q st)) (st_Q st) ∧
  ((nc ams < Z.of_nat (distinct_levels (st_Q st)))%Z →
     loop next_uint ams (S fuel) st =
     (iteration next_uint ams st ≫= loop next_uint ams fuel)) ∧
  ((Z.of_nat (distinct_levels (st_Q st)) ≤ nc ams)%Z →
     loop next_uint ams fuel st = Return st) ∧
  (∀ g wd init zmax,
     initial ams g wd init = Return st →
     ((nc ams < Z.of_nat (distinct_levels (st_Q st)))%Z →
        run next_uint ams (S fuel) g wd init zmax =
        (st1 ← iteration next_uint ams st;
         st' ← loop next_uint ams fuel st1;
         Return (finish ams st' zmax, st_rng st', st_world st'))) ∧
     ((Z.of_nat (distinct_levels (st_Q st)) ≤ nc ams)%Z →
        ∃ res gen,
          run next_uint ams fuel g wd init zmax = Return (res, g, st_world st) ∧
          iterations res = 0 ∧
          trajectories res = st_traj st ∧ scores res = st_score st ∧
          comp_traj ams = Some gen ∧
          st_traj st = (gen wd (N_traj ams) init).1 ∧
          st_world st = (gen wd (N_traj ams) init).2) ∧
     (∀ res g' wd',
        run next_uint ams fuel g wd init zmax = Return (res, g', wd') →
        (iterations res = 0 ↔
           (Z.of_nat (distinct_levels (st_Q st)) ≤ nc ams)%Z) ∧
        ∃ sizes st',
          iterates next_uint ams st sizes st' ∧
          iterations res = length sizes ∧
          (Z.of_nat (distinct_levels (st_Q st')) ≤ nc ams)%Z ∧
          res = finish ams st' zmax ∧ g' = st_rng st' ∧ wd' = st_world st')).
Proof.
  split; [|split; [|split]].
  - apply distinct_levels_spec.
  - intros H. by apply loop_enter, loop_guard_true.
  - intros H. by apply loop_exit, loop_guard_false.
  - intros g wd init zmax Hi. split; [|split].
    + intros H. unfold run. rewrite Hi. simpl.
      rewrite (proj2 (loop_guard_true ams _) H).
      by destruct (iteration next_uint ams st).
    + by apply run_at_most_nc_levels.
    + intros res g' wd' Hrun. unfold run in Hrun. rewrite Hi in Hrun.
      simpl in Hrun.
      destruct (loop next_uint ams fuel st) as [st'| |] eqn:Hl; [|done..].
      simpl in Hrun. injection Hrun as <- <- <-.
      destruct (loop_iterates _ _ _ _ _ Hl) as (sizes & Hit & _ & Hexit).
      destruct (iterates_count _ _ _ _ _ Hit) as [Hk _].
      destruct (initial_Return _ _ _ _ _ Hi)
        as (_ & _ & _ & _ & _ & _ & _ & _ & _ & _ & _ & _ & _ & Hk0 & _).
      apply loop_guard_false in Hexit. split.
      * simpl. rewrite Hk, Hk0. split.
        -- intros E. destruct sizes as [|s sizes]; [|simpl in E; lia].
           inversion Hit as [|sizes' st1 st2 p _ _ _ _ Hs]; [by subst|].
           by destruct sizes'.
        -- intros Hle. inversion Hit as [|sizes' st1 st2 p Hit' Hg _ _ Hs];
             [done|]. subst. exfalso.
           clear -Hit' Hg Hle. induction Hit' as [|? ? ? ? _ IH Hg' _ _].
           ++ apply loop_guard_true in Hg. lia.
           ++ apply IH. done.
      * exists sizes, st'. simpl. rewrite Hk, Hk0. done.
Qed.

(** The toy ensemble of three walkers has three levels: with nc = 3 the
    run stops at once, with nc = 1 it enters the loop and goes through two
    iterations. *)
Lemma C1_loop_runs_iff_more_than_nc_levels_witness :
  (∃ st, loop Toy.next (Toy.ams 3 1) 1 st =
         (iteration Toy.next (Toy.ams 3 1) st ≫= loop Toy.next (Toy.ams 3 1) 0)) ∧
  (∃ res, run Toy.next (Toy.ams 3 3) 0 0 0 Toy.start (Some 1%Q) = Return (res, 0, 3) ∧
          iterations res = 0) ∧
  (∃ res, run Toy.next (Toy.ams 3 1) 2 0 0 Toy.start (Some 1%Q) = Return (res, 2, 5) ∧
          iterations res = 2).
Proof.
  split; [|split].
  - destruct (initial (R:=nat) (Toy.ams 3 1) 0 0 Toy.start) as [st| |] eqn:E;
      [|by vm_compute in E..].
    exists st.
    apply (C1_loop_runs_iff_more_than_nc_levels Toy.next (Toy.ams 3 1) 0 st).
    vm_compute in E. injection E as <-. by vm_compute.
  - destruct (initial (R:=nat) (Toy.ams 3 3) 0 0 Toy.start) as [st| |] eqn:E;
      [|by vm_compute in E..].
    destruct (C1_loop_runs_iff_more_than_nc_levels Toy.next (Toy.ams 3 3) 0 st)
      as (_ & _ & _ & H).
    destruct (H 0 0 Toy.start (Some 1%Q) E) as (_ & H' & _).
    destruct H' as (res & gen & Hrun & Hk & _).
    + vm_compute in E. injection E as <-. by vm_compute.
    + exists res. split; [|exact Hk]. rewrite Hrun.
      vm_compute in E. injection E as <-. reflexivity.
  - destruct (initial (R:=nat) (Toy.ams 3 1) 0 0 Toy.start) as [st| |] eqn:E;
      [|by vm_compute in E..].
    destruct (run Toy.next (Toy.ams 3 1) 2 0 0 Toy.start (Some 1%Q))
      as [[[res g'] wd']| |] eqn:Er; [|by vm_compute in Er..].
    assert (g' = 2 ∧ wd' = 5 ∧ iterations res = 2) as (-> & -> & Hk).
    { vm_compute in Er. by injection Er as <- <- <-. }
    destruct (C1_loop_runs_iff_more_than_nc_levels Toy.next (Toy.ams 3 1) 2 st)
      as (_ & _ & _ & H).
    destruct (H 0 0 Toy.start (Some 1%Q) E) as (_ & _ & H').
    destruct (H' res 2 5 Er) as (_ & sizes & st' & _ & Hlen & _).
    exists res. split; [reflexivity | exact Hk].
Defined.

(** ** The weight *)

(** Under the guard some trajectory lies above the threshold or has no
    level at all, so the selection never takes the whole ensemble. *)
Lemma select_idx_lt (q : list float) (c : Z) (v : Q) :
  (1 ≤ c)%Z → loop_guard c q = true →
  select_threshold c q = Some (Some v) →
  length (select_idx q (Some v)) < length q.
Proof.
  intros Hc Hg Hth.
  destruct (select_threshold_guard _ _ Hc Hg) as (v' & Hth' & Hv).
  rewrite Hth in Hth'. injection Hth' as <-.
  unfold select_idx. rewrite length_np_flatnonzero.
  enough (∃ j, ((λ x, float_le x (Some v)) <$> q) !! j = Some false) as [j Hj].
  { apply np_count_nonzero_lt in Hj. by rewrite length_fmap in Hj. }
  apply Z.ltb_lt in Hg. unfold distinct_levels in Hg.
  rewrite length_np_unique in Hg.
  destruct (sorted_distinct q !! Z.to_nat c) as [u|] eqn:Hu.
  - assert (v < u)%Q as Hvu.
    { apply (sorted_lookup_lt _ _ _ _ _ (sorted_distinct_sorted q) Hv Hu). lia. }
    destruct (proj1 (sorted_distinct_level q u)) as (j & y & Hj & Hy).
    { exists u. split; [|reflexivity]. apply list_elem_of_lookup. eauto. }
    exists j. rewrite list_lookup_fmap, Hj. simpl. f_equal.
    apply not_true_iff_false. rewrite Qle_bool_iff, Hy. by apply Qlt_not_le.
  - apply lookup_ge_None in Hu.
    destruct (existsb isnan q) eqn:Hn; [|lia].
    apply existsb_isnan_lookup in Hn as [j Hj].
    exists j. by rewrite list_lookup_fmap, Hj.
Qed.

(** The factor of line 115 is a binary64 number between 0 and 1. *)
Lemma weight_factor_bounds (k : nat) (n : Z) :
  (Z.of_nat k ≤ n)%Z → (0 < n)%Z →
  (0 <= weight_factor k n)%Q ∧ (weight_factor k n <= 1)%Q ∧
  b64 (weight_factor k n) = weight_factor k n.
Proof.
  intros Hk Hn. unfold weight_factor.
  assert (0 < inject_Z n)%Q as Hn0.
  { change 0%Q with (inject_Z 0). rewrite <- Zlt_Qlt. lia. }
  assert (inject_Z (Z.of_nat k) / inject_Z n <= 1)%Q as H1.
  { apply Qle_shift_div_r; [done|]. rewrite Qmult_1_l. by rewrite <- Zle_Qle. }
  assert (0 <= inject_Z (Z.of_nat k) / inject_Z n)%Q as H0.
  { apply Qle_shift_div_l; [done|]. rewrite Qmult_0_l.
    change 0%Q with (inject_Z 0). rewrite <- Zle_Qle. lia. }
  pose proof (b64_nonneg _ H0) as Hy0. pose proof (b64_le_1 _ H0 H1) as Hy1.
  revert Hy0 Hy1. generalize (b64 (inject_Z (Z.of_nat k) / inject_Z n)).
  intros y Hy0 Hy1.
  assert (0 <= 1 - y)%Q as Hz0 by lra. assert (1 - y <= 1)%Q as Hz1 by lra.
  split; [by apply b64_nonneg|]. split; [by apply b64_le_1|]. by apply b64_idem.
Qed.

(** As long as the ensemble size has 53 bits, the factor of a selection
    that leaves a trajectory out is positive: at least 2^-53. *)
Lemma weight_factor_pos (k : nat) (n : Z) :
  (Z.of_nat k < n)%Z → (n ≤ 2 ^ 53)%Z →
  (1 # 2 ^ 53 <= weight_factor k n)%Q.
Proof.
  intros Hk Hn. unfold weight_factor.
  assert (0 < inject_Z n)%Q as Hn0.
  { change 0%Q with (inject_Z 0). rewrite <- Zlt_Qlt. lia. }
  assert (0 <= inject_Z (Z.of_nat k) / inject_Z n)%Q as H0.
  { apply Qle_shift_div_l; [done|]. rewrite Qmult_0_l.
    change 0%Q with (inject_Z 0). rewrite <- Zle_Qle. lia. }
  assert (inject_Z (Z.of_nat k) / inject_Z n
          <= 9007199254740991 # 9007199254740992)%Q as H1.
  { apply Qle_shift_div_r; [done|].
    change (2 ^ 53)%Z with 9007199254740992%Z in Hn.
    unfold Qle, Qmult, inject_Z. cbn [Qnum Qden]. lia. }
  apply (b64_mono _ _ H0) in H1.
  assert (b64 (9007199254740991 # 9007199254740992)
          = 9007199254740991 # 9007199254740992)%Q as E by (by vm_compute).
  rewrite E in H1. clear E. revert H1.
  generalize (b64 (inject_Z (Z.of_nat k) / inject_Z n)). intros y Hy.
  assert (1 # 9007199254740992 <= 1 - y)%Q as Hz.
  { assert (1 - (9007199254740991 # 9007199254740992)
            == 1 # 9007199254740992)%Q as E by reflexivity.
    rewrite <- E. lra. }
  apply b64_mono in Hz; [|done].
  assert (b64 (1 # 9007199254740992) = 1 # 9007199254740992)%Q as E
    by (by vm_compute).
  rewrite E in Hz. exact Hz.
Qed.

Lemma distinct_levels_pos (q : list float) : q ≠ [] → 0 < distinct_levels q.
Proof.
  unfold distinct_levels. rewrite length_np_unique.
  destruct q as [|[x|] q]; [done| |]; intros _; simpl.
  - destruct (insert_unique_holds x (sorted_distinct q)) as (y & Hy & _).
    destruct (insert_unique x (sorted_distinct q)); [|simpl; lia].
    by apply elem_of_nil in Hy.
  - lia.
Qed.

Lemma Toy_gen_rows : generator_rows Toy.gen.
Proof. intros wd n init. simpl. by rewrite length_fmap, length_seq. Qed.

Lemma Toy_score_shape : score_shape Toy.score_x.
Proof.
  intros b. unfold Toy.score_x. split; [by rewrite length_fmap|].
  intros i tr s Htr Hs. rewrite list_lookup_fmap, Htr in Hs.
  injection Hs as <-. by rewrite length_fmap.
Qed.

Lemma Stall_gen_rows : generator_rows Stall.gen.
Proof. intros wd n init. simpl. by rewrite length_fmap, length_seq. Qed.

Section Weight.
Context {W R : Type} (next_uint : R → nat * R) (ams : AMS W).
Context (gen : W → Z → list state → batch * W).
Hypothesis Hgen : comp_traj ams = Some gen.
Hypothesis Hrows : generator_rows gen.

(** A generator that returns what it is asked for has built an ensemble
    only if the ensemble size is positive. *)
Lemma initial_N_pos g wd init (st0 : loop_state W R) :
  initial ams g wd init = Return st0 → (0 < N_traj ams)%Z.
Proof.
  intros Hi.
  destruct (initial_Return _ _ _ _ _ Hi)
    as (gen' & sc & m & Hgen' & _ & _ & Ht & _ & _ & _ & _ & _ & Hsh & _).
  rewrite Hgen in Hgen'. injection Hgen' as <-.
  pose proof (Hrows wd (N_traj ams) init) as Hl. rewrite <- Ht in Hl.
  destruct (st_traj st0); [done | simpl in Hl; lia].
Qed.

(** There are never more score rows than [N_traj], and Q is the running
    maximum of the scores. *)
Lemma reachable_rows g wd init (st0 st : loop_state W R) :
  initial ams g wd init = Return st0 →
  reachable next_uint ams st0 st →
  length (st_score st) ≤ Z.to_nat (N_traj ams) ∧
  st_Q st = np_nanmax <$> st_score st.
Proof.
  intros Hi Hr. induction Hr as [|st st' Hr IH Hg Hit].
  - destruct (initial_Return _ _ _ _ _ Hi)
      as (gen' & sc & m & Hgen' & _ & _ & Ht & _ & Hs & HQ & _).
    split; [|done]. rewrite Hgen in Hgen'. injection Hgen' as <-.
    rewrite Hs, length_zip_with, Ht, Hrows. lia.
  - destruct (iteration_rows _ _ _ _ Hit) as [Hl _]. rewrite Hl.
    split; [apply IH|].
    by destruct (iteration_Return _ _ _ _ Hit)
      as (p & gen' & sc & m & new_max & _ & _ & _ & _ & _ & _ & _ & _ & _ & HQ & _).
Qed.

(** One step of the weight. *)
Lemma iteration_weight g wd init (st0 st st' : loop_state W R) :
  initial ams g wd init = Return st0 →
  reachable next_uint ams st0 st →
  iteration next_uint ams st = Return st' →
  ∃ p, plan next_uint ams st = Return p ∧
       st_w st' = b64 (st_w st * weight_factor (length (cl_idx p)) (N_traj ams)) ∧
       (0 <= weight_factor (length (cl_idx p)) (N_traj ams))%Q ∧
       (weight_factor (length (cl_idx p)) (N_traj ams) <= 1)%Q.
Proof.
  intros Hi Hr Hit.
  destruct (iteration_Return _ _ _ _ Hit)
    as (p & gen' & sc & m & new_max & Hp & _ & _ & _ & H).
  simpl in H. destruct H as (_ & _ & _ & _ & _ & _ & Hw & _).
  exists p. split; [done|]. split; [done|].
  pose proof (initial_N_pos _ _ _ _ Hi) as HN.
  destruct (weight_factor_bounds (length (cl_idx p)) (N_traj ams))
    as (H0 & H1 & _); [|done|done].
  destruct (plan_Return _ _ _ _ Hp) as (_ & Hidx & _).
  rewrite Hidx. unfold select_idx. rewrite length_np_flatnonzero.
  pose proof (np_count_nonzero_le ((λ x, float_le x (cl_threshold p)) <$> st_Q st))
    as Hle.
  rewrite length_fmap in Hle.
  destruct (reachable_rows _ _ _ _ _ Hi Hr) as [Hlen HQ].
  apply (f_equal length) in HQ. rewrite length_fmap in HQ. lia.
Qed.

(** The weight is a binary64 number between 0 and 1. *)
Lemma reachable_weight g wd init (st0 st : loop_state W R) :
  initial ams g wd init = Return st0 →
  reachable next_uint ams st0 st →
  (0 <= st_w st)%Q ∧ (st_w st <= 1)%Q ∧ b64 (st_w st) = st_w st.
Proof.
  intros Hi Hr. induction Hr as [|st st' Hr IH Hg Hit].
  - destruct (initial_Return _ _ _ _ _ Hi)
      as (gen' & sc & m & _ & _ & _ & _ & _ & _ & _ & _ & _ & _ & _ & -> & _).
    split; [done|]. split; [apply Qle_refl | apply b64_one].
  - destruct (iteration_weight _ _ _ _ _ _ Hi Hr Hit)
      as (p & _ & -> & Hf0 & Hf1).
    destruct IH as (Hw0 & Hw1 & _).
    assert (0 <= st_w st * weight_factor (length (cl_idx p)) (N_traj ams))%Q as H0
      by (by apply Qmult_le_0_compat).
    split; [by apply b64_nonneg|]. split; [|by apply b64_idem].
    apply b64_le_1; [done|].
    rewrite <- (Qmult_1_r 1). by apply Qmult_le_compat_nonneg.
Qed.


End Weight.

(** The states [passes] goes through are reached by the loop. *)
Lemma passes_reachable {W R : Type} (next_uint : R → nat * R) (ams : AMS W)
    (n : nat) (st0 st : loop_state W R) :
  passes next_uint ams n st0 = Return st → reachable next_uint ams st0 st.
Proof.
  enough (∀ st1, reachable next_uint ams st0 st1 →
                 passes next_uint ams n st1 = Return st →
                 reachable next_uint ams st0 st) as H
    by (apply H; constructor).
  induction n as [|n IH]; intros st1 Hr; simpl.
  - by intros [= <-].
  - destruct (loop_guard (nc ams) (st_Q st1)) eqn:Hg; [|by intros [= <-]].
    destruct (iteration next_uint ams st1) as [st2| |] eqn:Hit; [|done..].
    simpl. apply IH. by apply reach_iter with st1.
Qed.

(** The weight of the two walkers of [Stall] after 1075 iterations, and
    that of the three toy walkers after one. *)
Lemma Stall_weight_underflows :
  (st0 ← initial (R:=nat) Stall.ams 0 0 Stall.start;
   st ← passes Toy.next Stall.ams 1075 st0;
   Return (st_k st, st_w st)) = Return (1075, 0%Q).
Proof. vm_compute. reflexivity. Qed.

(** The run goes on, and returns after 1077 iterations: both walkers have
    reached 1 and the probability is 0. *)
Lemma Stall_run_returns_zero :
  (out ← run Toy.next Stall.ams 1077 0 0 Stall.start (Some 1%Q);
   Return (probability out.1.1, iterations out.1.1, nb_transitions out.1.1))
  = Return (Finite 0, 1077, 2).
Proof. vm_compute. reflexivity. Qed.

Lemma Toy_first_weight :
  (st0 ← initial (R:=nat) (Toy.ams 3 1) 0 0 Toy.start;
   p ← plan Toy.next (Toy.ams 3 1) st0;
   st1 ← iteration Toy.next (Toy.ams 3 1) st0;
   Return (loop_guard 1 (st_Q st0), st_w st0, length (cl_idx p), st_w st1))
  = Return (true, 1%Q, 1, (3002399751580331 # 4503599627370496)%Q).
Proof. vm_compute. reflexivity. Qed.

(** C4, as the claim states it, fails on both counts, under its
    precondition 1 <= nc < N and with a generator that returns as many
    trajectories as it is asked for.  The weight is a binary64 number and
    does not stay positive: of the two walkers of [Stall] one is selected
    at every iteration, the weight is halved each time, and after 1075
    iterations it is 0; the run returns two iterations later with both
    walkers arrived and the probability 0.  And the factor is not exactly
    1 - |idx|/N: the first iteration of the toy ensemble of three walkers
    selects one of them and leaves the weight 6004799503160662 * 2^-53,
    above 2/3. *)
Lemma C4_weight_decay_counterexample :
  ¬ (∀ (ams : AMS nat) gen g wd init st0,
       comp_traj ams = Some gen → generator_rows gen →
       (1 ≤ nc ams < N_traj ams)%Z →
       initial ams g wd init = Return st0 →
       ∀ st, reachable Toy.next ams st0 st → (0 < st_w st)%Q) ∧
  ¬ (∀ (ams : AMS nat) gen g wd init st0,
       comp_traj ams = Some gen → generator_rows gen →
       (1 ≤ nc ams < N_traj ams)%Z →
       initial ams g wd init = Return st0 →
       ∀ st st' p, reachable Toy.next ams st0 st →
         loop_guard (nc ams) (st_Q st) = true →
         plan Toy.next ams st = Return p →
         iteration Toy.next ams st = Return st' →
         (st_w st' ==
          st_w st * (1 - inject_Z (Z.of_nat (length (cl_idx p)))
                         / inject_Z (N_traj ams)))%Q) ∧
  ∃ res g' wd',
    run Toy.next Stall.ams 1077 0 0 Stall.start (Some 1%Q) = Return (res, g', wd') ∧
    probability res = Finite 0 ∧ iterations res = 1077 ∧ nb_transitions res = 2.
Proof.
  split; [|split].
  - intros H. pose proof Stall_weight_underflows as Hu.
    destruct (initial (R:=nat) Stall.ams 0 0 Stall.start) as [st0| |] eqn:E;
      [|discriminate Hu..].
    change (mbind ?f (Return st0)) with (f st0) in Hu. cbv beta in Hu.
    destruct (passes Toy.next Stall.ams 1075 st0) as [st| |] eqn:Ep;
      [|discriminate Hu..].
    injection Hu as _ Hw.
    apply passes_reachable in Ep.
    pose proof (H Stall.ams Stall.gen 0 0 Stall.start st0 eq_refl Stall_gen_rows
                  ltac:(simpl; lia) E st Ep) as Hpos.
    rewrite Hw in Hpos. by apply Qlt_irrefl in Hpos.
  - intros H. pose proof Toy_first_weight as Hu.
    destruct (initial (R:=nat) (Toy.ams 3 1) 0 0 Toy.start) as [st0| |] eqn:E;
      [|discriminate Hu..].
    change (mbind ?f (Return st0)) with (f st0) in Hu. cbv beta in Hu.
    destruct (plan Toy.next (Toy.ams 3 1) st0) as [p| |] eqn:Ep;
      [|discriminate Hu..].
    change (mbind ?f (Return p)) with (f p) in Hu. cbv beta in Hu.
    destruct (iteration Toy.next (Toy.ams 3 1) st0) as [st1| |] eqn:E1;
      [|discriminate Hu..].
    injection Hu as Hg Hw0 Hk Hw1.
    pose proof (H (Toy.ams 3 1) Toy.gen 0 0 Toy.start st0 eq_refl Toy_gen_rows
                  ltac:(simpl; lia) E st0 st1 p (reach_entry _ _ _) Hg Ep E1) as Heq.
    rewrite Hw0, Hw1, Hk in Heq. revert Heq. clear. by vm_compute.
  - pose proof Stall_run_returns_zero as Hu.
    destruct (run Toy.next Stall.ams 1077 0 0 Stall.start (Some 1%Q))
      as [[[res g'] wd']| |] eqn:E; [|discriminate Hu..].
    injection Hu as Hp Hk Hn. exists res, g', wd'.
    split; [reflexivity|]. split; [exact Hp|]. split; [exact Hk | exact Hn].
Qed.

(** C4, amended.  The weight is 1 on entry.  With a trajectory generator
    that returns as many trajectories as it is asked for and nc at least 1,
    in every state the loop reaches the weight is a binary64 number in
    [0, 1], and an iteration replaces it by the rounded product of the
    weight and of the factor 1 - |idx|/N, itself computed with a rounded
    quotient and a rounded difference; this does not increase the weight.
    The factor is at least 2^-53 as long as N is at most 2^53, so the
    weight reaches 0 by underflow only.  (The bound nc < N of the
    precondition is not needed.) *)
Theorem C4_weight_decay
    {W R : Type} (next_uint : R → nat * R) (ams : AMS W)
    (gen : W → Z → list state → batch * W) g wd init (st0 : loop_state W R) :
  comp_traj ams = Some gen →
  generator_rows gen →
  (1 ≤ nc ams)%Z →
  initial ams g wd init = Return st0 →
  st_w st0 = 1%Q ∧
  ∀ st, reachable next_uint ams st0 st →
    (0 <= st_w st)%Q ∧ (st_w st <= 1)%Q ∧ b64 (st_w st) = st_w st ∧
    ∀ st', loop_guard (nc ams) (st_Q st) = true →
           iteration next_uint ams st = Return st' →
      ∃ p, plan next_uint ams st = Return p ∧
           let factor :=
             b64 (1 - b64 (inject_Z (Z.of_nat (length (cl_idx p)))
                           / inject_Z (N_traj ams))) in
           st_w st' = b64 (st_w st * factor) ∧
           (st_w st' <= st_w st)%Q ∧
           (factor <= 1)%Q ∧
           ((N_traj ams ≤ 2 ^ 53)%Z → (1 # 2 ^ 53 <= factor)%Q).
Proof.
  intros Hgen Hrows Hc Hi. split.
  { by destruct (initial_Return _ _ _ _ _ Hi)
      as (gen' & sc & m & _ & _ & _ & _ & _ & _ & _ & _ & _ & _ & _ & -> & _). }
  intros st Hr.
  destruct (reachable_weight next_uint ams gen Hgen Hrows _ _ _ _ _ Hi Hr)
    as (Hw0 & Hw1 & Hwb).
  split; [done|]. split; [done|]. split; [done|]. intros st' Hg Hit.
  destruct (iteration_weight next_uint ams gen Hgen Hrows _ _ _ _ _ _ Hi Hr Hit)
    as (p & Hp & Hw & Hf0 & Hf1).
  exists p. split; [done|]. fold (weight_factor (length (cl_idx p)) (N_traj ams)).
  cbv zeta. split; [done|]. split; [|split; [done|]].
  - rewrite Hw. apply Qle_trans with (b64 (st_w st));
      [|rewrite Hwb; apply Qle_refl].
    apply b64_mono; [by apply Qmult_le_0_compat|].
    rewrite <- (Qmult_1_r (st_w st)) at 2.
    rewrite (Qmult_comm (st_w st)), (Qmult_comm (st_w st)).
    by apply Qmult_le_compat_r.
  - intros HN. apply weight_factor_pos; [|done].
    destruct (plan_Return _ _ _ _ Hp) as (Hth & Hidx & _).
    destruct (select_threshold_guard _ _ Hc Hg) as (v & Hv & _).
    rewrite Hv in Hth. injection Hth as Hth.
    pose proof (select_idx_lt _ _ _ Hc Hg Hv) as Hlt.
    rewrite Hidx, <- Hth.
    destruct (reachable_rows next_uint ams gen Hgen Hrows _ _ _ _ _ Hi Hr)
      as [Hlen HQ].
    apply (f_equal length) in HQ. rewrite length_fmap in HQ. lia.
Qed.

Lemma C4_weight_decay_witness :
  ∃ st0 st1,
    initial (Toy.ams 3 1) 0 0 Toy.start = Return st0 ∧
    iteration Toy.next (Toy.ams 3 1) st0 = Return st1 ∧
    st_w st0 = 1%Q ∧ st_w st1 = (3002399751580331 # 4503599627370496)%Q ∧
    (0 <= st_w st1)%Q ∧ (st_w st1 <= st_w st0)%Q.
Proof.
  destruct (initial (R:=nat) (Toy.ams 3 1) 0 0 Toy.start) as [st0| |] eqn:E;
    [|by vm_compute in E..].
  destruct (iteration Toy.next (Toy.ams 3 1) st0) as [st1| |] eqn:E1.
  2,3: vm_compute in E; injection E as <-; by vm_compute in E1.
  assert (loop_guard (nc (Toy.ams 3 1)) (st_Q st0) = true ∧
          st_w st1 = (3002399751580331 # 4503599627370496)%Q) as [Hg Hw1].
  { vm_compute in E. injection E as <-. vm_compute in E1. injection E1 as <-.
    split; reflexivity. }
  exists st0, st1. split; [reflexivity|]. split; [exact E1|].
  destruct (C4_weight_decay Toy.next (Toy.ams 3 1) Toy.gen 0 0 Toy.start st0)
    as [Hw0 Hstep]; [reflexivity | apply Toy_gen_rows | simpl; lia | exact E |].
  split; [exact Hw0|]. split; [exact Hw1|].
  destruct (Hstep st0 (reach_entry _ _ _)) as (_ & _ & _ & Hit).
  destruct (Hit st1 Hg E1) as (p & _ & _ & Hle & _).
  split; [|exact Hle].
  destruct (Hstep st1) as (H0 & _); [|exact H0].
  eapply reach_iter; [apply reach_entry | exact Hg | exact E1].
Defined.

(** ** The estimate *)

Lemma count_collapse_filter (q : list float) (zmax : float) :
  count_collapse q zmax = length (filter (λ x, float_ge x zmax = true) q).
Proof.
  unfold count_collapse, np_count_nonzero.
  induction q as [|x q IH]; [done|]. csimpl.
  destruct (float_ge x zmax) eqn:E.
  - rewrite !filter_cons_True by done. simpl. by rewrite IH.
  - rewrite !filter_cons_False by (by rewrite ?E). done.
Qed.

Lemma count_collapse_le (q : list float) (zmax : float) :
  count_collapse q zmax ≤ length q.
Proof.
  unfold count_collapse. etrans; [apply np_count_nonzero_le|].
  by rewrite length_fmap.
Qed.

(** The rounded product and quotient of line 167 stay between 0 and 1. *)
Lemma estimate_bounds (w : Q) (c : nat) (n : Z) :
  (0 <= w)%Q → (w <= 1)%Q → (0 < n)%Z → c ≤ Z.to_nat n →
  (0 <= b64 (b64 (w * b64 (inject_Z (Z.of_nat c))) / b64 (inject_Z n)))%Q ∧
  (b64 (b64 (w * b64 (inject_Z (Z.of_nat c))) / b64 (inject_Z n)) <= 1)%Q.
Proof.
  intros Hw0 Hw1 Hn Hc.
  assert (0 <= inject_Z (Z.of_nat c))%Q as Hc0.
  { change 0%Q with (inject_Z 0). rewrite <- Zle_Qle. lia. }
  assert (inject_Z (Z.of_nat c) <= inject_Z n)%Q as Hcn.
  { rewrite <- Zle_Qle. lia. }
  assert (1 <= inject_Z n)%Q as Hn1.
  { change 1%Q with (inject_Z 1). rewrite <- Zle_Qle. lia. }
  pose proof (b64_nonneg _ Hc0) as Hbc0.
  pose proof (b64_mono _ _ Hc0 Hcn) as Hbcn.
  assert (1 <= b64 (inject_Z n))%Q as Hbn1.
  { rewrite <- b64_one. by apply b64_mono. }
  assert (b64 (b64 (inject_Z n)) = b64 (inject_Z n)) as Hidem
    by (apply b64_idem; lra).
  revert Hbc0 Hbcn Hbn1 Hidem.
  generalize (b64 (inject_Z (Z.of_nat c))) (b64 (inject_Z n)).
  intros C N HC0 HCN HN1 Hidem.
  assert (0 <= w * C)%Q as Hx0 by (by apply Qmult_le_0_compat).
  assert (w * C <= N)%Q as HxN.
  { apply Qle_trans with (1 * C)%Q; [by apply Qmult_le_compat_r | lra]. }
  pose proof (b64_nonneg _ Hx0) as Hb0.
  pose proof (b64_mono _ _ Hx0 HxN) as HbN. rewrite Hidem in HbN.
  revert Hb0 HbN. generalize (b64 (w * C)). intros x Hb0 HbN.
  assert (0 < N)%Q as HN0 by lra.
  assert (0 <= x / N)%Q as Hq0.
  { apply Qle_shift_div_l; [done|]. by rewrite Qmult_0_l. }
  assert (x / N <= 1)%Q as Hq1.
  { apply Qle_shift_div_r; [done|]. by rewrite Qmult_1_l. }
  split; [by apply b64_nonneg | by apply b64_le_1].
Qed.

(** C5. A run that returns left the loop in a state whose guard is false;
    its probability is w * (number of Q >= zmax) / N for the weight and Q
    of that state, the product and the quotient rounded to binary64, its
    transition count is that same number, and, with a trajectory generator
    that returns as many trajectories as it is asked for, the probability
    is a number that lies in [0, 1]. *)
Theorem C5_probability_estimate
    {W R : Type} (next_uint : R → nat * R) (ams : AMS W)
    (gen : W → Z → list state → batch * W)
    fuel g wd init zmax (res : result) (g' : R) (wd' : W) :
  comp_traj ams = Some gen →
  generator_rows gen →
  run next_uint ams fuel g wd init zmax = Return (res, g', wd') →
  ∃ st0 st,
    initial ams g wd init = Return st0 ∧
    reachable next_uint ams st0 st ∧
    loop_guard (nc ams) (st_Q st) = false ∧
    st_Q st = np_nanmax <$> st_score st ∧
    trajectories res = st_traj st ∧ scores res = st_score st ∧
    nb_transitions res = length (filter (λ x, float_ge x zmax = true) (st_Q st)) ∧
    ∃ p : Q,
      probability res = Finite p ∧
      p = b64 (b64 (st_w st * b64 (inject_Z (Z.of_nat (nb_transitions res))))
               / b64 (inject_Z (N_traj ams))) ∧
      (0 <= p)%Q ∧ (p <= 1)%Q.
Proof.
  intros Hgen Hrows Hrun. unfold run in Hrun.
  destruct (initial ams g wd init) as [st0| |] eqn:Hi; [|done..]. simpl in Hrun.
  destruct (loop next_uint ams fuel st0) as [st| |] eqn:Hl; [|done..].
  simpl in Hrun. injection Hrun as <- <- <-.
  destruct (loop_Return _ _ _ _ _ Hl) as [Hr Hexit].
  destruct (reachable_rows next_uint ams gen Hgen Hrows _ _ _ _ _ Hi Hr)
    as [Hlen HQ].
  pose proof (initial_N_pos ams gen Hgen Hrows _ _ _ _ Hi) as HN.
  destruct (reachable_weight next_uint ams gen Hgen Hrows _ _ _ _ _ Hi Hr)
    as (Hw0 & Hw1 & _).
  exists st0, st. simpl. rewrite <- count_collapse_filter.
  do 7 (split; [done|]).
  eexists. unfold np_true_divide.
  destruct (Z.eqb_spec (N_traj ams) 0) as [E|_]; [lia|].
  split; [reflexivity|]. split; [reflexivity|].
  apply estimate_bounds; try done.
  pose proof (count_collapse_le (st_Q st) zmax) as Hc.
  apply (f_equal length) in HQ. rewrite length_fmap in HQ. lia.
Qed.

Lemma C5_probability_estimate_witness :
  ∃ res, run Toy.next (Toy.ams 3 1) 2 0 0 Toy.start (Some 1%Q) = Return (res, 2, 5) ∧
         probability res = Finite (8006399337547549 # 18014398509481984) ∧
         nb_transitions res = 3.
Proof.
  destruct (run Toy.next (Toy.ams 3 1) 2 0 0 Toy.start (Some 1%Q))
    as [[[res g'] wd']| |] eqn:E; [|by vm_compute in E..].
  assert (g' = 2 ∧ wd' = 5 ∧ nb_transitions res = 3 ∧
          probability res = Finite (8006399337547549 # 18014398509481984))
    as (-> & -> & Hn & Hp).
  { vm_compute in E. injection E as <- <- <-. repeat split. }
  destruct (C5_probability_estimate Toy.next (Toy.ams 3 1) Toy.gen
              2 0 0 Toy.start (Some 1%Q) res 2 5)
    as (st0 & st & _ & _ & _ & _ & _ & _ & _ & p & _ & _ & H0 & H1);
    [reflexivity | apply Toy_gen_rows | exact E |].
  exists res. split; [reflexivity|]. split; [exact Hp | exact Hn].
Defined.

(** ** Configuration *)



Section Configuration.
Context {W R : Type} (next_uint : R → nat * R) (ams : AMS W).




End Configuration.



(** ** Padding after the merge *)

(** C8 fails after a merge that shortens a trajectory.  In the replayed
    ensemble the idle walker of slot 0 (natural length 4) is regenerated
    from step 0 of the climber with a continuation of natural length 2:
    line 131 records the natural length 2 for slot 0, but lines 148-152
    write steps 0 and 1 only, and steps 2 and 3 keep the states and scores
    of the discarded trajectory instead of the undefined marker. *)
Theorem C8_stale_entries_beyond_natural_length :
  ∃ st0 st1,
    initial (Replay.ams Replay.tape 2 1) 0 0 Replay.start = Return st0 ∧
    iteration Toy.next (Replay.ams Replay.tape 2 1) st0 = Return st1 ∧
    st_Nt st0 = [4; 3] ∧
    st_Nt st1 = [2; 3] ∧
    st_traj st1 !! 0 =
      Some [Toy.pt (1 # 4) 0; Toy.pt 0 1; Toy.pt (1 # 4) 2; Toy.pt (1 # 4) 3] ∧
    st_score st1 !! 0 = Some [Some (1 # 4); Some 0%Q; Some (1 # 4); Some (1 # 4)].
Proof.
  destruct (initial (R:=nat) (Replay.ams Replay.tape 2 1) 0 0 Replay.start)
    as [st0| |] eqn:E; [|by vm_compute in E..].
  destruct (iteration Toy.next (Replay.ams Replay.tape 2 1) st0) as [st1| |] eqn:E1.
  2,3: vm_compute in E; injection E as <-; by vm_compute in E1.
  exists st0, st1. split; [done|]. split; [done|].
  vm_compute in E. injection E as <-.
  vm_compute in E1. injection E1 as <-.
  by vm_compute.
Qed.

(** ** The merge *)

Lemma lookup_clone_row_prefix {A : Type} r l (src cont old : list A) j :
  j < r + 1 → j < length src → j < length old →
  clone_row r l src cont old !! j = src !! j.
Proof.
  intros Hr Hs Ho. unfold clone_row.
  rewrite list_lookup_inserts_lt by lia.
  rewrite list_lookup_inserts by (rewrite ?length_take; lia).
  rewrite lookup_take_lt by lia. f_equal. lia.
Qed.

Lemma lookup_clone_row_suffix {A : Type} r l (src cont old : list A) j :
  r + 1 ≤ j → j < r + 1 + length (take (l - 1) (drop 1 cont)) →
  j < length old →
  clone_row r l src cont old !! j = cont !! (j - r).
Proof.
  intros Hr Hc Ho. unfold clone_row.
  rewrite list_lookup_inserts by (rewrite ?length_inserts; lia).
  rewrite length_take in Hc.
  rewrite lookup_take_lt by lia. rewrite lookup_drop. f_equal. lia.
Qed.

Lemma lookup_clone_row_old {A : Type} r l (src cont old : list A) j :
  (j < r + 1 ∧ length src ≤ j) ∨
  r + 1 + length (take (l - 1) (drop 1 cont)) ≤ j →
  clone_row r l src cont old !! j = old !! j.
Proof.
  intros H. unfold clone_row. destruct H as [[Hr Hs]|Hc].
  - rewrite list_lookup_inserts_lt by lia.
    apply list_lookup_inserts_ge. rewrite length_take. lia.
  - rewrite list_lookup_inserts_ge by lia.
    apply list_lookup_inserts_ge. rewrite length_take. lia.
Qed.

(** The entries of a cloned row, with those of a second array cloned the
    same way: both come from the same place. *)
Lemma clone_row_cases {A B : Type} r l
    (src cont old : list A) (src' cont' old' : list B) j :
  length src' = length src → length cont' = length cont →
  length old' = length old →
  (clone_row r l src cont old !! j = src !! j ∧
   clone_row r l src' cont' old' !! j = src' !! j) ∨
  (clone_row r l src cont old !! j = cont !! (j - r) ∧
   clone_row r l src' cont' old' !! j = cont' !! (j - r)) ∨
  (clone_row r l src cont old !! j = old !! j ∧
   clone_row r l src' cont' old' !! j = old' !! j).
Proof.
  intros Hs Hc Ho.
  assert (length (take (l - 1) (drop 1 cont')) = length (take (l - 1) (drop 1 cont)))
    as Hk by (rewrite !length_take, !length_drop; lia).
  destruct (decide (j < length old)) as [Hj|Hj].
  - destruct (decide (j < r + 1)) as [Hr|Hr].
    + destruct (decide (j < length src)) as [Hjs|Hjs].
      * left. split; apply lookup_clone_row_prefix; lia.
      * right; right. split; apply lookup_clone_row_old; left; lia.
    + destruct (decide (j < r + 1 + length (take (l - 1) (drop 1 cont)))) as [Hjc|Hjc].
      * right; left. split; apply lookup_clone_row_suffix; lia.
      * right; right. split; apply lookup_clone_row_old; right; lia.
  - right; right. split.
    + rewrite !lookup_ge_None_2; [done | lia | rewrite length_clone_row; lia].
    + rewrite !lookup_ge_None_2; [done | lia | rewrite length_clone_row; lia].
Qed.

Lemma lookup_zone_override on off sc j :
  zone_override on off sc !! j =
  (λ x, if default false (off !! j) then Some 1%Q
        else if default false (on !! j) then Some 0%Q else x) <$> sc !! j.
Proof. unfold zone_override. by rewrite list_lookup_imap. Qed.

Lemma lookup_classify m (tr : trajectory) (sc : series) j st :
  tr !! j = Some st →
  classify m tr sc !! j =
  (λ x, if is_off m st then Some 1%Q
        else if is_on m st then Some 0%Q else x) <$> sc !! j.
Proof.
  intros Hst. unfold classify.
  by rewrite lookup_zone_override, !list_lookup_fmap, Hst.
Qed.

Lemma lookup_classify_None m (tr : trajectory) (sc : series) j :
  tr !! j = None → classify m tr sc !! j = sc !! j.
Proof.
  intros Hst. unfold classify.
  rewrite lookup_zone_override, !list_lookup_fmap, Hst. simpl.
  by destruct (sc !! j).
Qed.

(** A row that has just been classified is overridden. *)
Lemma classify_overridden m tr sc : row_overridden m tr (classify m tr sc).
Proof.
  intros j st x Hst Hx. rewrite (lookup_classify _ _ _ _ _ Hst) in Hx.
  destruct (sc !! j) as [y|]; [|done]. simpl in Hx.
  destruct (is_off m st), (is_on m st); injection Hx as <-; done.
Qed.

(** Classifying an overridden row changes nothing. *)
Lemma classify_id m tr sc :
  row_overridden m tr sc → classify m tr sc = sc.
Proof.
  intros H. apply list_eq. intros j.
  destruct (tr !! j) as [st|] eqn:Hst.
  - rewrite (lookup_classify _ _ _ _ _ Hst).
    destruct (sc !! j) as [x|] eqn:Hx; [|done]. simpl.
    destruct (H j st x Hst Hx) as [Hoff Hon].
    destruct (is_off m st); [by rewrite Hoff|].
    destruct (is_on m st); [by rewrite Hon|]. done.
  - by apply lookup_classify_None.
Qed.

Lemma classify_defined m tr sc :
  classifier_skips_nan m → length sc = length tr →
  row_defined tr sc → row_defined tr (classify m tr sc).
Proof.
  intros Hskip Hlen H j x Hx.
  destruct (tr !! j) as [st|] eqn:Hst.
  - exists st. split; [done|].
    rewrite (lookup_classify _ _ _ _ _ Hst) in Hx.
    destruct (sc !! j) as [y|] eqn:Hy; [|done]. simpl in Hx.
    destruct (existsb isnan st) eqn:Hn; [|done].
    destruct (Hskip st Hn) as [Hon Hoff]. rewrite Hon, Hoff in Hx.
    injection Hx as ->. destruct (H j x Hy) as (st' & Hst' & Hd). congruence.
  - rewrite lookup_classify_None in Hx by done.
    destruct (H j x Hx) as (st' & Hst' & _). congruence.
Qed.

Lemma clone_row_defined r l (src cont old : trajectory) (src' cont' old' : series) :
  length src' = length src → length cont' = length cont →
  length old' = length old →
  row_defined src src' → row_defined cont cont' → row_defined old old' →
  row_defined (clone_row r l src cont old) (clone_row r l src' cont' old').
Proof.
  intros Hs Hc Ho Hsrc Hcont Hold j x Hx.
  destruct (clone_row_cases r l src cont old src' cont' old' j Hs Hc Ho)
    as [[-> E]|[[-> E]|[-> E]]]; rewrite E in Hx; eauto.
Qed.

Section MergeRows.
Context (m : Model) (idx new_ind restart new_nt : list nat).
Context (new_traj : batch) (new_score : list series).
Context (traj : batch) (score : list series).
Hypothesis Hnd : NoDup idx.
Hypothesis Hsrc : ∀ i, i < length idx → new_ind !!! i ∉ idx.
Hypothesis Hidx : ∀ t, t ∈ idx → t < length traj.
Hypothesis Hrows : length score = length traj.

Let step := merge_one m idx new_ind restart new_nt new_traj new_score.
Let row i := merged_row idx new_ind restart new_nt new_traj traj i.
Let srow i :=
  classify m (row i) (merged_row idx new_ind restart new_nt new_score score i).

Lemma idx_lookup_total i : i < length idx → idx !! i = Some (idx !!! i).
Proof. apply list_lookup_lookup_total_lt. Qed.

(** After the first [n] passes of the merge loop: the rows of the
    trajectories regenerated so far are the merged rows, the others are
    untouched. *)
Lemma merge_passes n :
  n ≤ length idx →
  (∀ i, i < n →
     (foldl step (traj, score) (seq 0 n)).1 !! (idx !!! i) = Some (row i) ∧
     (foldl step (traj, score) (seq 0 n)).2 !! (idx !!! i) = Some (srow i)) ∧
  (∀ k, (∀ i, i < n → idx !!! i ≠ k) →
     (foldl step (traj, score) (seq 0 n)).1 !! k = traj !! k ∧
     (foldl step (traj, score) (seq 0 n)).2 !! k = score !! k).
Proof.
  induction n as [|n IH]; intros Hn.
  { split; [intros i Hi; lia | done]. }
  destruct IH as [IH1 IH2]; [lia|].
  rewrite seq_S, foldl_snoc. change (0 + n) with n.
  set (ts := foldl step (traj, score) (seq 0 n)) in *.
  pose proof (length_foldl_merge_one m idx new_ind restart new_nt new_traj
                new_score (traj, score) (seq 0 n)) as [Hl1 Hl2].
  fold step in Hl1, Hl2. fold ts in Hl1, Hl2. simpl in Hl1, Hl2.
  assert (∀ i, i < n → idx !!! i ≠ idx !!! n) as Hfresh.
  { intros i Hi E.
    pose proof (NoDup_lookup _ i n (idx !!! n) Hnd) as Hinj.
    rewrite <- E in Hinj at 1.
    specialize (Hinj (idx_lookup_total i ltac:(lia)) (idx_lookup_total n ltac:(lia))).
    lia. }
  assert (∀ i, i < n → idx !!! i ≠ new_ind !!! n) as Hsource.
  { intros i Hi E. apply (Hsrc n); [lia|]. rewrite <- E.
    apply list_elem_of_lookup. exists i. apply idx_lookup_total. lia. }
  assert (idx !!! n < length traj) as Ht.
  { apply Hidx, list_elem_of_lookup. exists n. apply idx_lookup_total. lia. }
  assert (step ts n = (<[idx !!! n := row n]> ts.1, <[idx !!! n := srow n]> ts.2))
    as ->.
  { unfold step, merge_one, row, srow, merged_row.
    destruct (IH2 _ Hfresh) as [E1 E2]. destruct (IH2 _ Hsource) as [E3 E4].
    rewrite (list_lookup_total_alt ts.1 (idx !!! n)), E1, <- list_lookup_total_alt.
    rewrite (list_lookup_total_alt ts.2 (idx !!! n)), E2, <- list_lookup_total_alt.
    rewrite (list_lookup_total_alt ts.1 (new_ind !!! n)), E3, <- list_lookup_total_alt.
    rewrite (list_lookup_total_alt ts.2 (new_ind !!! n)), E4, <- list_lookup_total_alt.
    done. }
  simpl. split.
  - intros i Hi. destruct (decide (i = n)) as [->|Hne].
    + rewrite !list_lookup_insert_eq by lia. done.
    + rewrite !list_lookup_insert_ne by (apply not_eq_sym, Hfresh; lia).
      apply IH1. lia.
  - intros k Hk.
    rewrite !list_lookup_insert_ne by (apply Hk; lia).
    apply IH2. intros i Hi. apply Hk. lia.
Qed.

(** The merge, row by row. *)
Lemma merge_lookup_idx i :
  i < length idx →
  (merge m idx new_ind restart new_nt new_traj new_score traj score).1
    !! (idx !!! i) = Some (row i) ∧
  (merge m idx new_ind restart new_nt new_traj new_score traj score).2
    !! (idx !!! i) = Some (srow i).
Proof.
  intros Hi. destruct (merge_passes (length idx)) as [H _]; [done|].
  by apply H.
Qed.

Lemma merge_lookup_other k :
  k ∉ idx →
  (merge m idx new_ind restart new_nt new_traj new_score traj score).1 !! k
    = traj !! k ∧
  (merge m idx new_ind restart new_nt new_traj new_score traj score).2 !! k
    = score !! k.
Proof.
  intros Hk. destruct (merge_passes (length idx)) as [_ H]; [done|].
  apply H. intros i Hi <-. apply Hk, list_elem_of_lookup.
  exists i. by apply idx_lookup_total.
Qed.
End MergeRows.

(** ** Sources and slots of the clones *)

Lemma select_disjoint (q : list float) (th : float) i :
  i ∈ select_idx q th → i ∉ select_other q th.
Proof.
  unfold select_idx, select_other. rewrite !elem_of_np_flatnonzero.
  rewrite !list_lookup_fmap. destruct (q !! i) as [x|]; [|done]. simpl.
  intros [= Hle] [= Hgt].
  apply float_le_true in Hle as (a & b & -> & -> & Hle).
  apply float_lt_Some in Hgt. by apply Qle_not_lt in Hle.
Qed.

Lemma select_idx_range (q : list float) (th : float) i :
  i ∈ select_idx q th → i < length q.
Proof.
  unfold select_idx. rewrite elem_of_np_flatnonzero.
  intros H%lookup_lt_Some. by rewrite length_fmap in H.
Qed.

Lemma select_other_range (q : list float) (th : float) i :
  i ∈ select_other q th → i < length q.
Proof.
  unfold select_other. rewrite elem_of_np_flatnonzero.
  intros H%lookup_lt_Some. by rewrite length_fmap in H.
Qed.

Section Choice.
Context {R : Type} (next_uint : R → nat * R).

Lemma length_rng_choice g a size :
  length (rng_choice next_uint g a size).1 = size.
Proof.
  revert g. induction size as [|n IH]; intros g; [done|]. simpl.
  destruct (next_uint g) as [u g1]. specialize (IH g1).
  destruct (rng_choice next_uint g1 a n) as [rest g2]. simpl in *. by rewrite IH.
Qed.

(** Every draw is a member of the population. *)
Lemma rng_choice_elem g a size s :
  a ≠ [] → s ∈ (rng_choice next_uint g a size).1 → s ∈ a.
Proof.
  intros Ha. revert g. induction size as [|n IH]; intros g; simpl.
  { by intros ?%elem_of_nil. }
  destruct (next_uint g) as [u g1]. specialize (IH g1).
  destruct (rng_choice next_uint g1 a n) as [rest g2]. simpl in *.
  intros [->|Hs]%elem_of_cons; [|by apply IH].
  assert (u mod length a < length a) as Hlt.
  { apply Nat.mod_upper_bound. by destruct a. }
  destruct (lookup_lt_is_Some_2 _ _ Hlt) as [x Hx]. rewrite Hx. simpl.
  apply list_elem_of_lookup. eauto.
Qed.
End Choice.

Section PlanSources.
Context {W R : Type} (next_uint : R → nat * R) (ams : AMS W).

(** The clone sources are cloning candidates, one per selected slot; the
    slots are pairwise different rows of the ensemble, none of them a
    source. *)
Lemma plan_sources (st : loop_state W R) (p : cloning R) :
  plan next_uint ams st = Return p →
  NoDup (cl_idx p) ∧
  length (cl_new_ind p) = length (cl_idx p) ∧
  length (cl_restart p) = length (cl_idx p) ∧
  (∀ s, s ∈ cl_new_ind p → s ∈ cl_other_idx p) ∧
  (∀ i, i < length (cl_idx p) → cl_new_ind p !!! i ∉ cl_idx p) ∧
  (∀ t, t ∈ cl_idx p → t < length (st_Q st)).
Proof.
  intros (Hth & Hidx & Hother & HQmin & Hch & Hrs & _ & Hne)%plan_Return.
  assert (cl_new_ind p =
          (rng_choice next_uint (st_rng st) (cl_other_idx p) (length (cl_idx p))).1)
    as Hni by (by rewrite <- Hch).
  assert (length (cl_new_ind p) = length (cl_idx p)) as Hlen.
  { rewrite Hni. apply length_rng_choice. }
  assert (∀ s, s ∈ cl_new_ind p → s ∈ cl_other_idx p) as Hin.
  { intros s Hs. destruct (cl_idx p) as [|t idx] eqn:Ei.
    - destruct (cl_new_ind p); [by apply elem_of_nil in Hs | done].
    - rewrite Hni in Hs. eapply rng_choice_elem; [|exact Hs]. by apply Hne. }
  split; [rewrite Hidx; apply NoDup_flatnonzero_from|].
  split; [done|]. split.
  { rewrite Hrs, length_zip_with, HQmin, length_fmap. lia. }
  split; [done|]. split.
  - intros i Hi Ht.
    assert (cl_new_ind p !!! i ∈ cl_other_idx p) as Ho.
    { apply Hin, list_elem_of_lookup. exists i.
      apply list_lookup_lookup_total_lt. lia. }
    rewrite Hidx in Ht. rewrite Hother in Ho. by apply select_disjoint in Ht.
  - intros t Ht. rewrite Hidx in Ht. by apply select_idx_range in Ht.
Qed.
End PlanSources.

(** ** The invariants through an iteration *)

Lemma lookup_total_None {A : Type} (l : list (list A)) k :
  length l ≤ k → l !!! k = [].
Proof. intros H. by rewrite list_lookup_total_alt, lookup_ge_None_2. Qed.

Lemma ensemble_rows_total m T traj score k :
  ensemble_ok m T traj score →
  length (score !!! k) = length (traj !!! k) ∧
  row_overridden m (traj !!! k) (score !!! k) ∧
  (k < length traj → length (traj !!! k) = T).
Proof.
  intros [HT Hrows Htraj Hscore Hzone].
  destruct (decide (k < length traj)) as [Hk|Hk].
  - destruct (lookup_lt_is_Some_2 traj k Hk) as [tr Htr].
    destruct (lookup_lt_is_Some_2 score k ltac:(lia)) as [sc Hsc].
    rewrite (list_lookup_total_correct _ _ _ Htr).
    rewrite (list_lookup_total_correct _ _ _ Hsc).
    pose proof (Forall_lookup_1 _ _ _ _ Htraj Htr) as H1.
    pose proof (Forall_lookup_1 _ _ _ _ Hscore Hsc) as H2. simpl in H1, H2.
    split; [lia|]. split; [|done].
    intros j st x. by apply Hzone with k.
  - rewrite !lookup_total_None by lia. split; [done|]. split; [|lia].
    intros j st x Hst. done.
Qed.

Lemma defined_rows_total (traj : batch) (score : list series) k :
  length score = length traj → score_on_defined traj score →
  row_defined (traj !!! k) (score !!! k).
Proof.
  intros Hrows Hdef. destruct (decide (k < length traj)) as [Hk|Hk].
  - destruct (lookup_lt_is_Some_2 traj k Hk) as [tr Htr].
    destruct (lookup_lt_is_Some_2 score k ltac:(lia)) as [sc Hsc].
    rewrite (list_lookup_total_correct _ _ _ Htr).
    rewrite (list_lookup_total_correct _ _ _ Hsc).
    intros j x. by apply Hdef with k.
  - rewrite !lookup_total_None by lia. intros j x Hx. done.
Qed.

Lemma score_shape_rows sc (b : batch) k :
  score_shape sc → length (sc b !!! k) = length (b !!! k).
Proof.
  intros Hshape. destruct (Hshape b) as [Hlen Hrow].
  destruct (decide (k < length b)) as [Hk|Hk].
  - destruct (lookup_lt_is_Some_2 b k Hk) as [tr Htr].
    destruct (lookup_lt_is_Some_2 (sc b) k ltac:(lia)) as [s Hs].
    rewrite (list_lookup_total_correct _ _ _ Htr).
    rewrite (list_lookup_total_correct _ _ _ Hs). by apply Hrow with k.
  - by rewrite !lookup_total_None by lia.
Qed.

Lemma score_propagates_rows sc (b : batch) k :
  score_shape sc → score_propagates sc → row_defined (b !!! k) (sc b !!! k).
Proof.
  intros Hshape Hprop. destruct (Hshape b) as [Hlen Hrow].
  destruct (decide (k < length b)) as [Hk|Hk].
  - destruct (lookup_lt_is_Some_2 b k Hk) as [tr Htr].
    destruct (lookup_lt_is_Some_2 (sc b) k ltac:(lia)) as [s Hs].
    rewrite (list_lookup_total_correct _ _ _ Htr).
    rewrite (list_lookup_total_correct _ _ _ Hs).
    intros j x Hx. pose proof (Hrow _ _ _ Htr Hs) as Hl.
    destruct (lookup_lt_is_Some_2 tr j) as [st Hst].
    { apply lookup_lt_Some in Hx. lia. }
    exists st. split; [done|].
    destruct (existsb isnan st) eqn:Hn; [|done].
    rewrite (Hprop _ _ _ _ _ _ Htr Hs Hst Hn) in Hx. done.
  - rewrite !lookup_total_None by lia. intros j x Hx. done.
Qed.

Section MergeInvariants.
Context (m : Model) (T : nat) (idx new_ind restart new_nt : list nat).
Context (new_traj : batch) (new_score : list series).
Context (traj : batch) (score : list series).
Hypothesis Hnd : NoDup idx.
Hypothesis Hsrc : ∀ i, i < length idx → new_ind !!! i ∉ idx.
Hypothesis Hidx : ∀ t, t ∈ idx → t < length traj.
Hypothesis Hok : ensemble_ok m T traj score.

Let merged := merge m idx new_ind restart new_nt new_traj new_score traj score.

(** A row after the merge is a merged row or a row of before. *)
Lemma merged_rows k tr sc :
  (merged.1) !! k = Some tr → (merged.2) !! k = Some sc →
  (∃ i, i < length idx ∧ k = idx !!! i ∧
        tr = merged_row idx new_ind restart new_nt new_traj traj i ∧
        sc = classify m tr
               (merged_row idx new_ind restart new_nt new_score score i)) ∨
  ((k ∉ idx) ∧ traj !! k = Some tr ∧ score !! k = Some sc).
Proof.
  intros Htr Hsc. pose proof (ok_rows _ _ _ _ Hok) as Hrows.
  destruct (decide (k ∈ idx)) as [Hk|Hk].
  - left. apply list_elem_of_lookup in Hk as [i Hi].
    pose proof (lookup_lt_Some _ _ _ Hi) as Hlt.
    rewrite <- (list_lookup_total_correct _ _ _ Hi) in *.
    destruct (merge_lookup_idx m idx new_ind restart new_nt new_traj new_score
                traj score Hnd Hsrc Hidx Hrows i Hlt) as [E1 E2].
    fold merged in E1, E2. rewrite E1 in Htr. rewrite E2 in Hsc.
    injection Htr as <-. injection Hsc as <-. exists i. done.
  - right. destruct (merge_lookup_other m idx new_ind restart new_nt new_traj
                       new_score traj score Hnd Hsrc Hidx Hrows k Hk) as [E1 E2].
    fold merged in E1, E2. by rewrite <- E1, <- E2.
Qed.

Lemma merge_ok : ensemble_ok m T merged.1 merged.2.
Proof.
  pose proof Hok as [HT Hrows Htraj Hscore Hzone].
  destruct (length_merge m idx new_ind restart new_nt new_traj new_score traj score)
    as [Hl1 Hl2]. fold merged in Hl1, Hl2.
  assert (∀ k tr, (merged.1) !! k = Some tr → ∃ sc, (merged.2) !! k = Some sc) as Hsc.
  { intros k tr Hk%lookup_lt_Some. apply lookup_lt_is_Some_2. lia. }
  assert (∀ k sc, (merged.2) !! k = Some sc → ∃ tr, (merged.1) !! k = Some tr) as Htr.
  { intros k tr Hk%lookup_lt_Some. apply lookup_lt_is_Some_2. lia. }
  split.
  - done.
  - lia.
  - apply Forall_lookup_2. intros k tr Hk. destruct (Hsc _ _ Hk) as [sc Hk'].
    destruct (merged_rows _ _ _ Hk Hk') as [(i & Hi & -> & -> & _)|(_ & E & _)].
    + unfold merged_row. rewrite length_clone_row.
      apply (ensemble_rows_total m T traj score _ Hok).
      apply Hidx, list_elem_of_lookup. exists i.
      by apply list_lookup_lookup_total_lt.
    + by apply (Forall_lookup_1 _ _ _ _ Htraj E).
  - apply Forall_lookup_2. intros k sc Hk'. destruct (Htr _ _ Hk') as [tr Hk].
    destruct (merged_rows _ _ _ Hk Hk') as [(i & Hi & -> & _ & ->)|(_ & _ & E)].
    + rewrite length_classify. unfold merged_row. rewrite length_clone_row.
      destruct (ensemble_rows_total m T traj score (idx !!! i) Hok)
        as (-> & _ & H).
      apply H, Hidx, list_elem_of_lookup. exists i.
      by apply list_lookup_lookup_total_lt.
    + by apply (Forall_lookup_1 _ _ _ _ Hscore E).
  - intros k tr sc j st x Hk Hk'.
    destruct (merged_rows _ _ _ Hk Hk') as [(i & Hi & _ & _ & ->)|(_ & E1 & E2)].
    + apply classify_overridden.
    + by apply Hzone with k.
Qed.

Hypothesis Hskip : classifier_skips_nan m.
Hypothesis Hcont : ∀ k,
  length (new_score !!! k) = length (new_traj !!! k) ∧
  row_defined (new_traj !!! k) (new_score !!! k).
Hypothesis Hdef : score_on_defined traj score.

Lemma merge_defined : score_on_defined merged.1 merged.2.
Proof.
  pose proof (ok_rows _ _ _ _ Hok) as Hrows.
  intros k tr sc j x Hk Hk'.
  destruct (merged_rows _ _ _ Hk Hk') as [(i & Hi & _ & -> & ->)|(_ & E1 & E2)].
  - apply classify_defined; [done | |].
    + unfold merged_row. rewrite !length_clone_row.
      apply (ensemble_rows_total m T traj score _ Hok).
    + unfold merged_row. apply clone_row_defined.
      * apply (ensemble_rows_total m T traj score _ Hok).
      * apply Hcont.
      * apply (ensemble_rows_total m T traj score _ Hok).
      * by apply defined_rows_total.
      * apply Hcont.
      * by apply defined_rows_total.
  - by apply Hdef with k.
Qed.
End MergeInvariants.

Lemma padding_state_isnan : existsb isnan (replicate dimension nan) = true.
Proof. done. Qed.

Section GrowInvariants.
Context (m : Model) (T : nat) (traj : batch) (score : list series).
Hypothesis Hskip : classifier_skips_nan m.
Hypothesis Hok : ensemble_ok m T traj score.

Lemma pad_ok pad :
  ensemble_ok m (T + pad) (pad_traj dimension pad traj) (pad_score pad score).
Proof.
  destruct Hok as [HT Hrows Htraj Hscore Hzone]. split.
  - lia.
  - by rewrite length_pad_traj, length_pad_score.
  - apply Forall_lookup_2. intros i tr' Htr'. unfold pad_traj in Htr'.
    apply list_lookup_fmap_Some in Htr' as (tr & -> & Htr).
    pose proof (Forall_lookup_1 _ _ _ _ Htraj Htr) as Hl. simpl in Hl.
    rewrite length_app, length_replicate. lia.
  - apply Forall_lookup_2. intros i sc' Hsc'. unfold pad_score in Hsc'.
    apply list_lookup_fmap_Some in Hsc' as (sc & -> & Hsc).
    pose proof (Forall_lookup_1 _ _ _ _ Hscore Hsc) as Hl. simpl in Hl.
    rewrite length_app, length_replicate. lia.
  - intros i tr' sc' j st x Htr' Hsc' Hst Hx.
    unfold pad_traj in Htr'. unfold pad_score in Hsc'.
    rewrite list_lookup_fmap in Htr'. rewrite list_lookup_fmap in Hsc'.
    destruct (traj !! i) as [tr|] eqn:Htr; [|done].
    destruct (score !! i) as [sc|] eqn:Hsc; [|done].
    simpl in Htr', Hsc'. injection Htr' as <-. injection Hsc' as <-.
    pose proof (Forall_lookup_1 _ _ _ _ Htraj Htr) as Hl1.
    pose proof (Forall_lookup_1 _ _ _ _ Hscore Hsc) as Hl2. simpl in Hl1, Hl2.
    destruct (decide (j < T)) as [Hj|Hj].
    + rewrite lookup_app_l in Hst by lia. rewrite lookup_app_l in Hx by lia.
      by apply Hzone with i tr sc j.
    + rewrite lookup_app_r in Hst by lia.
      apply lookup_replicate in Hst as [-> _].
      destruct (Hskip _ padding_state_isnan) as [Hon Hoff].
      change (replicate dimension nan) with [nan; nan] in Hon, Hoff.
      rewrite Hon, Hoff. done.
Qed.

Lemma pad_defined pad :
  score_on_defined traj score →
  score_on_defined (pad_traj dimension pad traj) (pad_score pad score).
Proof.
  destruct Hok as [HT Hrows Htraj Hscore Hzone].
  intros Hdef i tr' sc' j x Htr' Hsc' Hx.
  unfold pad_traj in Htr'. unfold pad_score in Hsc'.
  rewrite list_lookup_fmap in Htr'. rewrite list_lookup_fmap in Hsc'.
  destruct (traj !! i) as [tr|] eqn:Htr; [|done].
  destruct (score !! i) as [sc|] eqn:Hsc; [|done].
  simpl in Htr', Hsc'. injection Htr' as <-. injection Hsc' as <-.
  destruct (decide (j < length sc)) as [Hj|Hj].
  - rewrite lookup_app_l in Hx by lia.
    destruct (Hdef _ _ _ _ _ Htr Hsc Hx) as (st & Hst & Hd).
    exists st. split; [|done]. by apply lookup_app_l_Some.
  - rewrite lookup_app_r in Hx by lia. by apply lookup_replicate in Hx as [? _].
Qed.

Lemma grow_ok a b :
  ∃ T', ensemble_ok m T' (grow_traj a b traj) (grow_score a b score).
Proof.
  unfold grow_traj, grow_score. destruct (a <? b).
  - exists (T + (b - a)). apply pad_ok.
  - by exists T.
Qed.

Lemma grow_defined a b :
  score_on_defined traj score →
  score_on_defined (grow_traj a b traj) (grow_score a b score).
Proof.
  unfold grow_traj, grow_score. destruct (a <? b); [apply pad_defined | done].
Qed.
End GrowInvariants.

Section EntryInvariants.
Context {W R : Type} (ams : AMS W).
Context (gen : W → Z → list state → batch * W) (sc : batch → list series).
Context (m : Model).
Hypothesis Hgen : comp_traj ams = Some gen.
Hypothesis Hsc : comp_score ams = Some sc.
Hypothesis Hm : model ams = Some m.
Hypothesis Hrect : generator_rectangular gen.
Hypothesis Hshape : score_shape sc.

Lemma initial_ok g wd init (st0 : loop_state W R) :
  initial ams g wd init = Return st0 →
  ∃ T, ensemble_ok m T (st_traj st0) (st_score st0).
Proof.
  intros Hi.
  destruct (initial_Return _ _ _ _ _ Hi)
    as (gen' & sc' & m' & Hgen' & Hsc' & Hm' & Ht & _ & Hs & _ & _ & _ & Hsh & _).
  rewrite Hgen in Hgen'. injection Hgen' as <-.
  rewrite Hsc in Hsc'. injection Hsc' as <-.
  rewrite Hm in Hm'. injection Hm' as <-.
  destruct (Hrect wd (N_traj ams) init) as [T HT]. rewrite <- Ht in HT.
  destruct (Hshape (st_traj st0)) as [Hlen Hrow].
  exists T. split.
  - destruct (st_traj st0) as [|tr b]; [done|]. simpl in Hsh.
    pose proof (Forall_lookup_1 _ _ 0 tr HT eq_refl) as H0. simpl in H0. lia.
  - rewrite Hs, length_zip_with. lia.
  - done.
  - rewrite Hs. apply Forall_lookup_2. intros i s Hi'.
    apply lookup_zip_with_Some in Hi' as (tr & s' & -> & Htr & Hs').
    rewrite length_classify, (Hrow _ _ _ Htr Hs').
    by apply (Forall_lookup_1 _ _ _ _ HT Htr).
  - rewrite Hs. intros i tr s j st x Htr Hi'.
    apply lookup_zip_with_Some in Hi' as (tr' & s' & -> & Htr' & Hs').
    rewrite Htr in Htr'. injection Htr' as <-.
    apply classify_overridden.
Qed.

Lemma initial_defined g wd init (st0 : loop_state W R) :
  classifier_skips_nan m → score_propagates sc →
  initial ams g wd init = Return st0 →
  score_on_defined (st_traj st0) (st_score st0).
Proof.
  intros Hskip Hprop Hi.
  destruct (initial_Return _ _ _ _ _ Hi)
    as (gen' & sc' & m' & Hgen' & Hsc' & Hm' & Ht & _ & Hs & _).
  rewrite Hsc in Hsc'. injection Hsc' as <-.
  rewrite Hm in Hm'. injection Hm' as <-.
  destruct (Hshape (st_traj st0)) as [Hlen Hrow].
  rewrite Hs. intros i tr s j x Htr Hi'.
  apply lookup_zip_with_Some in Hi' as (tr' & s' & -> & Htr' & Hs').
  rewrite Htr in Htr'. injection Htr' as <-.
  apply classify_defined; [done | by apply Hrow with i |].
  pose proof (score_propagates_rows sc (st_traj st0) i Hshape Hprop) as Hd.
  by rewrite (list_lookup_total_correct _ _ _ Htr),
             (list_lookup_total_correct _ _ _ Hs') in Hd.
Qed.
End EntryInvariants.

(** ** The restart search *)

(** A running maximum that is a number is attained at some step. *)
Lemma np_nanmax_attained (row : series) (y : Q) :
  np_nanmax row = Some y → ∃ j, row !! j = Some (Some y).
Proof.
  induction row as [|a row IH]; [done|]. simpl.
  destruct a as [x|], (np_nanmax row) as [z|] eqn:E; simpl.
  - destruct (Qle_bool x z).
    + intros [= <-]. destruct (IH eq_refl) as [j Hj]. by exists (S j).
    + intros [= <-]. by exists 0.
  - intros [= <-]. by exists 0.
  - intros [= <-]. destruct (IH eq_refl) as [j Hj]. by exists (S j).
  - done.
Qed.

Section PlanRestart.
Context {W R : Type} (next_uint : R → nat * R) (ams : AMS W).

(** The restart step of the [i]-th clone in a state that satisfies the
    invariants. *)
Lemma plan_restart (m : Model) T (st : loop_state W R) (p : cloning R) i t src :
  ensemble_ok m T (st_traj st) (st_score st) →
  score_on_defined (st_traj st) (st_score st) →
  st_Q st = np_nanmax <$> st_score st →
  plan next_uint ams st = Return p →
  cl_idx p !! i = Some t →
  cl_new_ind p !! i = Some src →
  ∃ (r : nat) (q x : Q) (s : state),
    cl_restart p !! i = Some r ∧
    st_Q st !! t = Some (Some q) ∧
    (st_score st !!! src) !! r = Some (Some x) ∧ (q <= x)%Q ∧
    (∀ j, j < r → ∃ c, (st_score st !!! src) !! j = Some c ∧
                       float_ge c (Some q) = false) ∧
    (st_traj st !!! src) !! r = Some s ∧ existsb isnan s = false ∧
    init_clone (st_traj st) (cl_new_ind p) (cl_restart p) !! i = Some s.
Proof.
  intros Hok Hdef HQ Hp Ht Hsrc.
  destruct (plan_Return _ _ _ _ Hp) as (_ & Hidx & Hother & HQmin & _ & Hrs & _).
  destruct (plan_sources _ _ _ _ Hp) as (_ & _ & _ & Hin & _ & _).
  (* the level of the discarded trajectory *)
  assert (t ∈ select_idx (st_Q st) (cl_threshold p)) as Ht'.
  { rewrite <- Hidx. apply list_elem_of_lookup. eauto. }
  unfold select_idx in Ht'. apply elem_of_np_flatnonzero in Ht'.
  rewrite list_lookup_fmap in Ht'.
  destruct (st_Q st !! t) as [a|] eqn:Hqt; [|done]. injection Ht' as Hle.
  apply float_le_true in Hle as (q & v & -> & Hth & Hqv).
  (* the level of the source *)
  assert (src ∈ select_other (st_Q st) (cl_threshold p)) as Hs'.
  { rewrite <- Hother. apply Hin, list_elem_of_lookup. eauto. }
  rewrite Hth in Hs'. apply elem_of_select_other in Hs' as (y & Hqs & Hvy).
  rewrite HQ, list_lookup_fmap in Hqs.
  destruct (st_score st !! src) as [row|] eqn:Hrow; [|done].
  injection Hqs as Hmax.
  destruct (np_nanmax_attained _ _ Hmax) as [j0 Hj0].
  rewrite (list_lookup_total_correct _ _ _ Hrow).
  (* the search *)
  assert (((λ c, float_ge c (Some q)) <$> row) !! j0 = Some true) as Hmask.
  { rewrite list_lookup_fmap, Hj0. simpl. f_equal. apply Qle_bool_iff.
    apply Qle_trans with v; [done | by apply Qlt_le_weak]. }
  destruct (np_argmax_first _ _ Hmask) as (Hfirst & _ & Hbefore).
  fold (restart_index row (Some q)) in Hfirst, Hbefore.
  set (r := restart_index row (Some q)) in *.
  rewrite list_lookup_fmap in Hfirst.
  destruct (row !! r) as [c|] eqn:Hc; [|done]. injection Hfirst as Hge.
  change (float_le (Some q) c = true) in Hge.
  apply float_le_true in Hge as (q' & x & [= <-] & -> & Hqx).
  assert (cl_restart p !! i = Some r) as Hri.
  { rewrite Hrs. apply lookup_zip_with_Some. exists src, (Some q).
    split; [|split; [done|]].
    - by rewrite (list_lookup_total_correct _ _ _ Hrow).
    - rewrite HQmin, list_lookup_fmap, Ht. simpl.
      by rewrite (list_lookup_total_correct _ _ _ Hqt). }
  (* the restart state *)
  destruct (lookup_lt_is_Some_2 (st_traj st) src) as [tr Htr].
  { rewrite <- (ok_rows _ _ _ _ Hok). by apply lookup_lt_Some in Hrow. }
  destruct (Hdef _ _ _ _ _ Htr Hrow Hc) as (s & Hs & Hd).
  exists r, q, x, s. rewrite (list_lookup_total_correct _ _ _ Htr).
  repeat split; try done.
  - intros j Hj. specialize (Hbefore j Hj). rewrite list_lookup_fmap in Hbefore.
    destruct (row !! j) as [c|]; [|done]. injection Hbefore as Hb. eauto.
  - unfold init_clone. apply lookup_zip_with_Some. exists src, r.
    split; [|done].
    by rewrite (list_lookup_total_correct _ _ _ Htr),
               (list_lookup_total_correct _ _ _ Hs).
Qed.
End PlanRestart.

(** ** Defined prefixes *)

Lemma closed_rows_total (traj : batch) k :
  prefix_closed traj → row_closed (traj !!! k).
Proof.
  intros H. destruct (decide (k < length traj)) as [Hk|Hk].
  - destruct (lookup_lt_is_Some_2 traj k Hk) as [tr Htr].
    rewrite (list_lookup_total_correct _ _ _ Htr). by apply H with k.
  - rewrite lookup_total_None by lia. intros j j' s Hj. done.
Qed.

(** The states of a continuation before its natural length are defined. *)
Lemma clone_lengths_defined (new_traj : batch) i k (s : state) :
  k < clone_lengths new_traj !!! i →
  (new_traj !!! i) !! k = Some s →
  existsb isnan s = false.
Proof.
  intros Hk Hs. destruct (decide (i < length new_traj)) as [Hi|Hi].
  - destruct (lookup_lt_is_Some_2 new_traj i Hi) as [tr Htr].
    rewrite (list_lookup_total_correct _ _ _ Htr) in Hs.
    rewrite clone_lengths_spec in Hk.
    erewrite (list_lookup_total_correct (_ <$> new_traj)) in Hk;
      [|by rewrite list_lookup_fmap, Htr].
    unfold spec_natural_length in Hk. apply not_true_is_false.
    destruct (list_find _ tr) as [[j s0]|] eqn:F; simpl in Hk.
    + apply list_find_Some in F as (_ & _ & Hmin). by apply (Hmin k).
    + apply list_find_None in F. by apply (Forall_lookup_1 _ _ _ _ F Hs).
  - by rewrite lookup_total_None in Hs by lia.
Qed.

Lemma clone_row_closed r l (src cont old : trajectory) :
  length old = length src →
  row_closed src → row_closed old →
  (∃ s, src !! r = Some s ∧ existsb isnan s = false) →
  (∀ k s, k < l → cont !! k = Some s → existsb isnan s = false) →
  row_closed (clone_row r l src cont old).
Proof.
  intros Hlen Hsrc Hold (s0 & Hs0 & Hd0) Hcont j j' s Hj Hd Hle.
  pose proof (lookup_lt_Some _ _ _ Hj) as Hjl. rewrite length_clone_row in Hjl.
  pose proof (lookup_lt_Some _ _ _ Hs0) as Hrl.
  destruct (decide (j' < r + 1)) as [Hp|Hp].
  - rewrite lookup_clone_row_prefix by lia. apply (Hsrc r j' s0); [done | done | lia].
  - destruct (decide (j' < r + 1 + length (take (l - 1) (drop 1 cont)))) as [Hc|Hc].
    + rewrite lookup_clone_row_suffix by lia.
      rewrite length_take, length_drop in Hc.
      destruct (lookup_lt_is_Some_2 cont (j' - r)) as [s' Hs']; [lia|].
      exists s'. split; [done|]. apply (Hcont (j' - r)); [lia | done].
    + rewrite lookup_clone_row_old in Hj by (right; lia).
      rewrite lookup_clone_row_old by (right; lia).
      by apply (Hold j j' s).
Qed.

Lemma pad_closed pad (traj : batch) :
  prefix_closed traj → prefix_closed (pad_traj dimension pad traj).
Proof.
  intros H i tr' Htr'. unfold pad_traj in Htr'.
  apply list_lookup_fmap_Some in Htr' as (tr & -> & Htr).
  intros j j' s Hj Hd Hle.
  destruct (decide (j < length tr)) as [Hl|Hl].
  - rewrite lookup_app_l in Hj by lia.
    destruct (H i tr Htr j j' s Hj Hd Hle) as (s' & Hs' & Hd').
    exists s'. split; [by apply lookup_app_l_Some | done].
  - rewrite lookup_app_r in Hj by lia. apply lookup_replicate in Hj as [-> _].
    done.
Qed.

Lemma grow_closed a b (traj : batch) :
  prefix_closed traj → prefix_closed (grow_traj a b traj).
Proof. unfold grow_traj. destruct (a <? b); [apply pad_closed | done]. Qed.

Lemma lookup_grow_traj a b (traj : batch) k j (s : state) :
  (traj !!! k) !! j = Some s → (grow_traj a b traj !!! k) !! j = Some s.
Proof.
  unfold grow_traj. destruct (a <? b); [|done]. unfold pad_traj. intros Hs.
  destruct (decide (k < length traj)) as [Hk|Hk].
  - destruct (lookup_lt_is_Some_2 traj k Hk) as [tr Htr].
    rewrite (list_lookup_total_correct _ _ _ Htr) in Hs.
    erewrite (list_lookup_total_correct (_ <$> traj));
      [|by rewrite list_lookup_fmap, Htr].
    by apply lookup_app_l_Some.
  - by rewrite lookup_total_None in Hs by lia.
Qed.

Section MergeClosed.
Context (m : Model) (T : nat) (idx new_ind restart : list nat).
Context (new_traj : batch) (new_score : list series).
Context (traj : batch) (score : list series).
Hypothesis Hnd : NoDup idx.
Hypothesis Hsrc : ∀ i, i < length idx → new_ind !!! i ∉ idx.
Hypothesis Hidx : ∀ t, t ∈ idx → t < length traj.
Hypothesis Hok : ensemble_ok m T traj score.
Hypothesis Hclosed : prefix_closed traj.
Hypothesis Hrestart : ∀ i, i < length idx →
  ∃ s, (traj !!! (new_ind !!! i)) !! (restart !!! i) = Some s ∧
       existsb isnan s = false.

(** The merge keeps the defined states of every trajectory a prefix. *)
Lemma merge_closed :
  prefix_closed
    (merge m idx new_ind restart (clone_lengths new_traj) new_traj new_score
       traj score).1.
Proof.
  intros k tr Hk.
  destruct (length_merge m idx new_ind restart (clone_lengths new_traj)
              new_traj new_score traj score) as [Hl1 Hl2].
  destruct (lookup_lt_is_Some_2
              (merge m idx new_ind restart (clone_lengths new_traj) new_traj
                 new_score traj score).2 k) as [sc Hk'].
  { apply lookup_lt_Some in Hk. rewrite Hl2, (ok_rows _ _ _ _ Hok). lia. }
  destruct (merged_rows m T idx new_ind restart (clone_lengths new_traj)
              new_traj new_score traj score Hnd Hsrc Hidx Hok k tr sc Hk Hk')
    as [(i & Hi & -> & -> & _)|(_ & E & _)].
  - unfold merged_row. destruct (Hrestart i Hi) as (s & Hs & Hd).
    apply clone_row_closed.
    + destruct (ensemble_rows_total m T traj score (idx !!! i) Hok) as (_ & _ & H1).
      destruct (ensemble_rows_total m T traj score (new_ind !!! i) Hok)
        as (_ & _ & H2).
      rewrite H1, H2; [done | |].
      * destruct (decide (new_ind !!! i < length traj)) as [|Hn]; [done|].
        by rewrite lookup_total_None in Hs by lia.
      * apply Hidx, list_elem_of_lookup. exists i.
        by apply list_lookup_lookup_total_lt.
    + by apply closed_rows_total.
    + by apply closed_rows_total.
    + eauto.
    + intros k s'. apply clone_lengths_defined.
  - by apply Hclosed with k.
Qed.
End MergeClosed.

Section ReachableInvariants.
Context {W R : Type} (next_uint : R → nat * R) (ams : AMS W).
Context (gen : W → Z → list state → batch * W) (sc : batch → list series).
Context (m : Model).
Hypothesis Hgen : comp_traj ams = Some gen.
Hypothesis Hsc : comp_score ams = Some sc.
Hypothesis Hm : model ams = Some m.
Hypothesis Hrect : generator_rectangular gen.
Hypothesis Hshape : score_shape sc.
Hypothesis Hskip : classifier_skips_nan m.

Lemma reachable_Q g wd init (st0 st : loop_state W R) :
  initial ams g wd init = Return st0 →
  reachable next_uint ams st0 st →
  st_Q st = np_nanmax <$> st_score st.
Proof.
  intros Hi Hr. destruct Hr as [|st st' Hr Hg Hit].
  - by destruct (initial_Return _ _ _ _ _ Hi)
      as (gen' & sc' & m' & _ & _ & _ & _ & _ & _ & HQ & _).
  - by destruct (iteration_Return _ _ _ _ Hit)
      as (p & gen' & sc' & m' & new_max & _ & _ & _ & _ & _ & _ & _ & _ & _ & HQ & _).
Qed.

Lemma iteration_ok T (st st' : loop_state W R) :
  ensemble_ok m T (st_traj st) (st_score st) →
  st_Q st = np_nanmax <$> st_score st →
  iteration next_uint ams st = Return st' →
  (∃ T', ensemble_ok m T' (st_traj st') (st_score st')) ∧
  (score_propagates sc →
   score_on_defined (st_traj st) (st_score st) →
   score_on_defined (st_traj st') (st_score st') ∧
   (prefix_closed (st_traj st) → prefix_closed (st_traj st'))).
Proof.
  intros Hok HQ Hit.
  destruct (iteration_Return _ _ _ _ Hit)
    as (p & gen' & sc' & m' & new_max & Hp & Hgen' & Hsc' & Hm' & H).
  rewrite Hgen in Hgen'. injection Hgen' as <-.
  rewrite Hsc in Hsc'. injection Hsc' as <-.
  rewrite Hm in Hm'. injection Hm' as <-.
  simpl in H. destruct H as (_ & _ & _ & Ht & Hs & _).
  destruct (plan_sources _ _ _ _ Hp) as (Hnd & Hlni & _ & _ & Hsrc & Hidx).
  destruct (grow_ok m T _ _ Hskip Hok (st_max_Nt st) new_max) as [T' Hok'].
  assert (∀ t, t ∈ cl_idx p →
               t < length (grow_traj (st_max_Nt st) new_max (st_traj st))) as Hidx'.
  { intros t Ht'%Hidx. rewrite length_grow_traj, <- (ok_rows _ _ _ _ Hok).
    apply (f_equal length) in HQ. rewrite length_fmap in HQ. lia. }
  split.
  - exists T'. rewrite Ht, Hs. by apply merge_ok.
  - intros Hprop Hdef. split.
    + rewrite Ht, Hs. apply (merge_defined m T'); try done.
      * intros k. split; [by apply score_shape_rows | by apply score_propagates_rows].
      * by apply (grow_defined m T).
    + intros Hclosed. rewrite Ht. apply (merge_closed m T'); try done.
      * by apply grow_closed.
      * intros i Hi.
        destruct (lookup_lt_is_Some_2 (cl_idx p) i Hi) as [t Hti].
        destruct (lookup_lt_is_Some_2 (cl_new_ind p) i ltac:(lia)) as [src Hsi].
        destruct (plan_restart next_uint ams m T st p i t src Hok Hdef HQ Hp Hti Hsi)
          as (r & q & x & s & Hri & _ & _ & _ & _ & Hrs & Hd & _).
        exists s. split; [|done].
        rewrite (list_lookup_total_correct _ _ _ Hsi),
                (list_lookup_total_correct _ _ _ Hri).
        by apply lookup_grow_traj.
Qed.

Lemma reachable_ok g wd init (st0 st : loop_state W R) :
  initial ams g wd init = Return st0 →
  reachable next_uint ams st0 st →
  (∃ T, ensemble_ok m T (st_traj st) (st_score st)) ∧
  (score_propagates sc →
   score_on_defined (st_traj st) (st_score st) ∧
   (generator_padded gen → prefix_closed (st_traj st))).
Proof.
  intros Hi Hr. induction Hr as [|st st' Hr IH Hg Hit].
  - split; [eapply initial_ok; eauto|].
    intros Hprop. split; [eapply initial_defined; eauto|].
    intros Hpad.
    destruct (initial_Return _ _ _ _ _ Hi)
      as (gen' & sc' & m' & Hgen' & _ & _ & Ht & _).
    rewrite Hgen in Hgen'. injection Hgen' as <-. rewrite Ht. apply Hpad.
  - destruct IH as [[T Hok] Hdef].
    pose proof (reachable_Q _ _ _ _ _ Hi Hr) as HQ.
    destruct (iteration_ok T st st' Hok HQ Hit) as [Hok' Hdef'].
    split; [done|]. intros Hprop. destruct (Hdef Hprop) as [Hd Hc].
    destruct (Hdef' Hprop Hd) as [Hd' Hc']. split; [done|].
    intros Hpad. apply Hc'. by apply Hc.
Qed.
End ReachableInvariants.

(** ** Restart steps and cloned prefixes *)

Lemma length_grow_traj_row a b (traj : batch) k :
  length (traj !!! k) ≤ length (grow_traj a b traj !!! k).
Proof.
  unfold grow_traj. destruct (a <? b); [|done]. unfold pad_traj.
  destruct (decide (k < length traj)) as [Hk|Hk].
  - destruct (lookup_lt_is_Some_2 traj k Hk) as [tr Htr].
    rewrite (list_lookup_total_correct _ _ _ Htr).
    erewrite (list_lookup_total_correct (_ <$> traj));
      [|by rewrite list_lookup_fmap, Htr].
    rewrite length_app. lia.
  - rewrite (lookup_total_None traj) by lia. simpl. lia.
Qed.

Lemma clone_row_prefix_scores m r l
    (src cont old : trajectory) (src' cont' old' : series) j :
  length src' = length src → length old' = length old →
  length old = length src →
  row_overridden m src src' →
  j < r + 1 → j < length src →
  classify m (clone_row r l src cont old) (clone_row r l src' cont' old') !! j
    = src' !! j.
Proof.
  intros Hs Ho Hos Hzone Hr Hj.
  destruct (lookup_lt_is_Some_2 src j Hj) as [st Hst].
  assert (clone_row r l src cont old !! j = Some st) as Hrow.
  { rewrite lookup_clone_row_prefix by lia. done. }
  rewrite (lookup_classify _ _ _ _ _ Hrow).
  rewrite lookup_clone_row_prefix by lia.
  destruct (src' !! j) as [x|] eqn:Hx; [|done]. simpl.
  destruct (Hzone j st x Hst Hx) as [Hoff Hon].
  destruct (is_off m st); [by rewrite Hoff|].
  destruct (is_on m st); [by rewrite Hon|]. done.
Qed.

Lemma Toy_gen_rectangular : generator_rectangular Toy.gen.
Proof.
  intros wd n init. exists 3. simpl.
  apply Forall_lookup_2. intros i tr Hi.
  by apply list_lookup_fmap_Some in Hi as (k & -> & _).
Qed.

Lemma Toy_score_propagates : score_propagates Toy.score_x.
Proof.
  intros b i tr s j st Htr Hs Hst Hn. unfold Toy.score_x in Hs.
  rewrite list_lookup_fmap, Htr in Hs. injection Hs as <-.
  rewrite list_lookup_fmap, Hst. simpl. unfold Toy.xcoord. by rewrite Hn.
Qed.

Lemma Toy_well_skips_nan : classifier_skips_nan Toy.well.
Proof. intros st Hn. simpl. unfold Toy.xcoord. by rewrite Hn. Qed.

Lemma Toy_gen_padded : generator_padded Toy.gen.
Proof.
  intros wd n init i tr Hi. simpl in Hi.
  apply list_lookup_fmap_Some in Hi as (k & -> & _).
  intros j j' s Hj Hd Hle. unfold Toy.walk in *.
  destruct j as [|[|[|j]]]; simpl in Hj; try done.
  - injection Hj as ->. assert (j' = 0) as -> by lia. eauto.
  - injection Hj as <-. destruct j' as [|[|j']]; [|eauto|lia].
    simpl. eexists. split; [done|].
    destruct (default Toy.gap (init !! k)) as [|[x|] [|[y|] [|z rest]]]; done.
  - by injection Hj as <-.
Qed.

(** C6. In an iteration, for the [i]-th discarded trajectory [t] and its
    clone source [src]: the restart index is a step of the source whose
    score is a number at least Q[t]; at every earlier step of the source
    the score is not at least Q[t]; so such a step exists and the restart
    index is the first one.  With collaborators that honour their
    contracts (rectangular batches padded with the undefined marker at the
    tail only, one score per step, the marker propagated by the score
    function and placed in neither region by the classifier) every state
    of the source up to and including the restart index is defined, and
    the state at the restart index is the one the continuation starts
    from. *)
Theorem C6_restart_is_first_step_reaching_level
    {W R : Type} (next_uint : R → nat * R) (ams : AMS W)
    (gen : W → Z → list state → batch * W) (sc : batch → list series) (m : Model)
    g wd init (st0 st : loop_state W R) (p : cloning R) (i t src : nat) :
  comp_traj ams = Some gen → comp_score ams = Some sc → model ams = Some m →
  generator_rectangular gen → generator_padded gen →
  score_shape sc → score_propagates sc →
  classifier_skips_nan m →
  initial ams g wd init = Return st0 →
  reachable next_uint ams st0 st →
  plan next_uint ams st = Return p →
  cl_idx p !! i = Some t →
  cl_new_ind p !! i = Some src →
  ∃ (r : nat) (q x : Q) (s : state),
    cl_restart p !! i = Some r ∧
    st_Q st !! t = Some (Some q) ∧
    (st_score st !!! src) !! r = Some (Some x) ∧ (q <= x)%Q ∧
    (∀ j, j < r → ∃ c, (st_score st !!! src) !! j = Some c ∧
                       float_ge c (Some q) = false) ∧
    (∀ j, j ≤ r → ∃ s', (st_traj st !!! src) !! j = Some s' ∧
                        existsb isnan s' = false) ∧
    (st_traj st !!! src) !! r = Some s ∧
    init_clone (st_traj st) (cl_new_ind p) (cl_restart p) !! i = Some s.
Proof.
  intros Hgen Hsc Hm Hrect Hpad Hshape Hprop Hskip Hi Hr Hp Ht Hsrc.
  pose proof (reachable_Q next_uint ams _ _ _ _ _ Hi Hr) as HQ.
  destruct (reachable_ok next_uint ams gen sc m Hgen Hsc Hm Hrect Hshape Hskip
              _ _ _ _ _ Hi Hr) as [[T Hok] Hdef].
  destruct (Hdef Hprop) as [Hd Hc]. specialize (Hc Hpad).
  destruct (plan_restart next_uint ams m T st p i t src Hok Hd HQ Hp Ht Hsrc)
    as (r & q & x & s & Hri & Hq & Hx & Hqx & Hfirst & Hs & Hds & Hinit).
  exists r, q, x, s. repeat split; try done.
  intros j Hj. by apply (closed_rows_total _ src Hc r j s).
Qed.

Lemma C6_restart_is_first_step_reaching_level_witness :
  ∃ st0 p,
    initial (Toy.ams 3 1) 0 0 Toy.start = Return st0 ∧
    plan Toy.next (Toy.ams 3 1) st0 = Return p ∧
    cl_idx p = [0] ∧ cl_new_ind p = [1] ∧ cl_restart p = [1] ∧
    ∃ q x s,
      st_Q st0 !! 0 = Some (Some q) ∧
      (st_score st0 !!! 1) !! 1 = Some (Some x) ∧ (q <= x)%Q ∧
      (st_traj st0 !!! 1) !! 1 = Some s ∧ existsb isnan s = false.
Proof.
  destruct (initial (R:=nat) (Toy.ams 3 1) 0 0 Toy.start) as [st0| |] eqn:E;
    [|by vm_compute in E..].
  destruct (plan Toy.next (Toy.ams 3 1) st0) as [p| |] eqn:Ep.
  2,3: vm_compute in E; injection E as <-; by vm_compute in Ep.
  assert (cl_idx p = [0] ∧ cl_new_ind p = [1] ∧ cl_restart p = [1])
    as (Hi & Hn & Hr).
  { vm_compute in E. injection E as <-. vm_compute in Ep. by injection Ep as <-. }
  exists st0, p. split; [done|]. split; [done|].
  split; [done|]. split; [done|]. split; [done|].
  destruct (C6_restart_is_first_step_reaching_level Toy.next (Toy.ams 3 1)
              Toy.gen Toy.score_x Toy.well 0 0 Toy.start st0 st0 p 0 0 1)
    as (r & q & x & s & Hr' & Hq & Hx & Hqx & _ & Hall & Hs & _).
  - done.
  - done.
  - done.
  - apply Toy_gen_rectangular.
  - apply Toy_gen_padded.
  - apply Toy_score_shape.
  - apply Toy_score_propagates.
  - apply Toy_well_skips_nan.
  - done.
  - apply reach_entry.
  - done.
  - by rewrite Hi.
  - by rewrite Hn.
  - rewrite Hr in Hr'. injection Hr' as <-. exists q, x, s.
    repeat split; try done.
    destruct (Hall 1) as (s' & Hs' & Hd'); [done|]. congruence.
Defined.

(** C7. After the merge of an iteration, the [i]-th regenerated
    trajectory [t] holds, at every step from 0 up to and including its
    restart index, the state and the score its source [src] holds at that
    step (with collaborators that honour their contracts: rectangular
    batches, one score per step, the undefined marker in neither
    region). *)
Theorem C7_clone_prefix_equals_source
    {W R : Type} (next_uint : R → nat * R) (ams : AMS W)
    (gen : W → Z → list state → batch * W) (sc : batch → list series) (m : Model)
    g wd init (st0 st st' : loop_state W R) (p : cloning R) (i t src r j : nat) :
  comp_traj ams = Some gen → comp_score ams = Some sc → model ams = Some m →
  generator_rectangular gen → score_shape sc → classifier_skips_nan m →
  initial ams g wd init = Return st0 →
  reachable next_uint ams st0 st →
  plan next_uint ams st = Return p →
  iteration next_uint ams st = Return st' →
  cl_idx p !! i = Some t →
  cl_new_ind p !! i = Some src →
  cl_restart p !! i = Some r →
  j ≤ r →
  is_Some ((st_traj st' !!! src) !! j) ∧
  (st_traj st' !!! t) !! j = (st_traj st' !!! src) !! j ∧
  is_Some ((st_score st' !!! src) !! j) ∧
  (st_score st' !!! t) !! j = (st_score st' !!! src) !! j.
Proof.
  intros Hgen Hsc Hm Hrect Hshape Hskip Hi Hr Hp Hit Ht Hsrc Hri Hj.
  pose proof (reachable_Q next_uint ams _ _ _ _ _ Hi Hr) as HQ.
  destruct (reachable_ok next_uint ams gen sc m Hgen Hsc Hm Hrect Hshape Hskip
              _ _ _ _ _ Hi Hr) as [[T Hok] _].
  destruct (iteration_Return _ _ _ _ Hit)
    as (p' & gen' & sc' & m' & new_max & Hp' & Hgen' & Hsc' & Hm' & H).
  rewrite Hp in Hp'. injection Hp' as <-.
  rewrite Hm in Hm'. injection Hm' as <-.
  simpl in H. destruct H as (_ & _ & _ & Htr' & Hsc'' & _).
  destruct (plan_Return _ _ _ _ Hp) as (_ & Hidx & Hother & HQmin & _ & Hrs & _).
  destruct (plan_sources _ _ _ _ Hp) as (Hnd & _ & _ & Hin & Hnot & Hrange).
  destruct (grow_ok m T _ _ Hskip Hok (st_max_Nt st) new_max) as [T' Hok'].
  set (traj := grow_traj (st_max_Nt st) new_max (st_traj st)) in *.
  set (score := grow_score (st_max_Nt st) new_max (st_score st)) in *.
  pose proof (ok_rows _ _ _ _ Hok) as Hrows.
  pose proof (ok_rows _ _ _ _ Hok') as Hrows'.
  assert (length (st_Q st) = length (st_traj st)) as HlQ.
  { rewrite HQ, length_fmap. done. }
  assert (length traj = length (st_traj st)) as Hlt by apply length_grow_traj.
  assert (∀ k, k ∈ cl_idx p → k < length traj) as Hidx'.
  { intros k Hk%Hrange. lia. }
  pose proof (lookup_lt_Some _ _ _ Ht) as Hi'.
  pose proof (list_lookup_total_correct _ _ _ Ht) as Et.
  pose proof (list_lookup_total_correct _ _ _ Hsrc) as Es.
  pose proof (list_lookup_total_correct _ _ _ Hri) as Er.
  (* the source is a row of the ensemble that the merge leaves alone *)
  assert (src ∈ cl_other_idx p) as Hso.
  { apply Hin, list_elem_of_lookup. eauto. }
  assert (src ∉ cl_idx p) as Hsn by (rewrite <- Es; by apply Hnot).
  assert (src < length (st_traj st)) as Hsl.
  { rewrite Hother in Hso. apply select_other_range in Hso. lia. }
  match type of Htr' with
  | _ = (merge _ _ _ _ ?nt ?ntr ?nsc _ _).1 =>
      destruct (merge_lookup_other m (cl_idx p) (cl_new_ind p) (cl_restart p)
                  nt ntr nsc traj score Hnd Hnot Hidx' Hrows' src Hsn)
        as [Es1 Es2];
      destruct (merge_lookup_idx m (cl_idx p) (cl_new_ind p) (cl_restart p)
                  nt ntr nsc traj score Hnd Hnot Hidx' Hrows' i Hi')
        as [Et1 Et2]
  end.
  rewrite Et in Et1, Et2.
  rewrite <- Htr' in Es1, Et1. rewrite <- Hsc'' in Es2, Et2.
  (* the restart index is a step of the source *)
  destruct (ensemble_rows_total m T (st_traj st) (st_score st) src Hok)
    as (Hl1 & _ & Hl2). specialize (Hl2 Hsl).
  destruct (ensemble_rows_total m T' traj score src Hok') as (Hl3 & Hzone & Hl4).
  specialize (Hl4 ltac:(lia)).
  destruct (ensemble_rows_total m T' traj score t Hok') as (Hl5 & _ & Hl6).
  specialize (Hl6 ltac:(apply Hidx', list_elem_of_lookup; eauto)).
  assert (r < length (st_score st !!! src)) as Hrl.
  { rewrite Hrs in Hri. apply lookup_zip_with_Some in Hri as (s' & q & -> & Hs' & _).
    rewrite Hsrc in Hs'. injection Hs' as <-.
    unfold restart_index. pose proof (ok_T _ _ _ _ Hok) as HT.
    pose proof (np_argmax_lt ((λ x, float_ge x q) <$> st_score st !!! src)) as Ha.
    rewrite length_fmap in Ha. apply Ha.
    intros E. apply (f_equal length) in E. rewrite length_fmap in E.
    simpl in E. lia. }
  pose proof (length_grow_traj_row (st_max_Nt st) new_max (st_traj st) src) as Hg.
  fold traj in Hg.
  assert (j < length (traj !!! src)) as Hjl by lia.
  (* rows after the merge *)
  rewrite (list_lookup_total_alt (st_traj st') src), Es1, <- list_lookup_total_alt.
  rewrite (list_lookup_total_alt (st_traj st') t), Et1.
  rewrite (list_lookup_total_alt (st_score st') src), Es2, <- list_lookup_total_alt.
  rewrite (list_lookup_total_alt (st_score st') t), Et2.
  simpl. unfold merged_row. rewrite Et, Es, Er.
  split; [by apply lookup_lt_is_Some_2|].
  split; [apply lookup_clone_row_prefix; lia|].
  split; [apply lookup_lt_is_Some_2; lia|].
  apply clone_row_prefix_scores; try done; lia.
Qed.

Lemma C7_clone_prefix_equals_source_witness :
  ∃ st0 st1,
    initial (Toy.ams 3 1) 0 0 Toy.start = Return st0 ∧
    iteration Toy.next (Toy.ams 3 1) st0 = Return st1 ∧
    (st_traj st1 !!! 0) !! 1 = (st_traj st1 !!! 1) !! 1 ∧
    (st_score st1 !!! 0) !! 1 = (st_score st1 !!! 1) !! 1 ∧
    (st_score st1 !!! 1) !! 1 = Some (Some (3 # 4)).
Proof.
  destruct (initial (R:=nat) (Toy.ams 3 1) 0 0 Toy.start) as [st0| |] eqn:E;
    [|by vm_compute in E..].
  destruct (plan Toy.next (Toy.ams 3 1) st0) as [p| |] eqn:Ep.
  2,3: vm_compute in E; injection E as <-; by vm_compute in Ep.
  destruct (iteration Toy.next (Toy.ams 3 1) st0) as [st1| |] eqn:E1.
  2,3: vm_compute in E; injection E as <-; by vm_compute in E1.
  assert (cl_idx p = [0] ∧ cl_new_ind p = [1] ∧ cl_restart p = [1])
    as (Hi & Hn & Hr).
  { vm_compute in E. injection E as <-. vm_compute in Ep. by injection Ep as <-. }
  exists st0, st1. split; [done|]. split; [done|].
  destruct (C7_clone_prefix_equals_source Toy.next (Toy.ams 3 1)
              Toy.gen Toy.score_x Toy.well 0 0 Toy.start st0 st0 st1 p 0 0 1 1 1)
    as (_ & Ht & _ & Hs).
  - done.
  - done.
  - done.
  - apply Toy_gen_rectangular.
  - apply Toy_score_shape.
  - apply Toy_well_skips_nan.
  - done.
  - apply reach_entry.
  - done.
  - done.
  - by rewrite Hi.
  - by rewrite Hn.
  - by rewrite Hr.
  - done.
  - split; [done|]. split; [done|].
    vm_compute in E. injection E as <-. vm_compute in E1. by injection E1 as <-.
Defined.

(** * Further properties of the estimator *)

(** ** The running maximum *)

Lemma np_nanmax_ge (row : series) j (x : Q) :
  row !! j = Some (Some x) → ∃ v, np_nanmax row = Some v ∧ (x <= v)%Q.
Proof.
  revert j. induction row as [|a row IH]; intros j Hj; [done|].
  simpl. destruct j as [|j].
  - injection Hj as ->. destruct (np_nanmax row) as [z|]; simpl.
    + destruct (Qle_bool x z) eqn:E.
      * exists z. split; [done|]. by apply Qle_bool_iff.
      * exists x. split; [done | apply Qle_refl].
    + exists x. split; [done | apply Qle_refl].
  - destruct (IH j Hj) as (v & -> & Hv). destruct a as [y|]; simpl.
    + destruct (Qle_bool y v) eqn:E.
      * by exists v.
      * exists y. split; [done|]. apply Qle_trans with v; [done|].
        apply Qlt_le_weak, Qnot_le_lt. intros H%Qle_bool_iff. congruence.
    + by exists v.
Qed.

Lemma np_nanmax_nan (row : series) :
  np_nanmax row = nan ↔ ∀ j c, row !! j = Some c → c = nan.
Proof.
  induction row as [|a row IH]; simpl; [done|]. split.
  - intros H j c Hj. destruct a as [y|], (np_nanmax row) as [z|] eqn:E;
      simpl in H; try done.
    + by destruct (Qle_bool y z).
    + destruct j as [|j]; [by injection Hj as <-|]. by apply (proj1 IH eq_refl j).
  - intros H. rewrite (H 0 a eq_refl). simpl.
    apply IH. intros j c Hj. by apply (H (S j)).
Qed.

Lemma np_nanmax_padded (row : series) pad :
  np_nanmax (row ++ replicate pad nan) = np_nanmax row.
Proof.
  unfold np_nanmax. rewrite foldr_app. f_equal.
  induction pad as [|pad IH]; [done|]. simpl. by rewrite IH.
Qed.

(** X1. In every state the loop reaches, Q[k] is the maximum of the
    defined scores of trajectory k: it bounds every score that is a number,
    it is one of them when it is a number, and it is NaN exactly when
    the trajectory has no score that is a number. *)
Theorem Q_is_running_maximum
    {W R : Type} (next_uint : R → nat * R) (ams : AMS W)
    g wd init (st0 st : loop_state W R) (k : nat) (row : series) :
  initial ams g wd init = Return st0 →
  reachable next_uint ams st0 st →
  st_score st !! k = Some row →
  (∀ j x, row !! j = Some (Some x) →
     ∃ v, st_Q st !! k = Some (Some v) ∧ (x <= v)%Q) ∧
  (∀ v, st_Q st !! k = Some (Some v) → ∃ j, row !! j = Some (Some v)) ∧
  (st_Q st !! k = Some nan ↔ ∀ j c, row !! j = Some c → c = nan).
Proof.
  intros Hi Hr Hrow.
  pose proof (reachable_Q next_uint ams _ _ _ _ _ Hi Hr) as HQ.
  assert (st_Q st !! k = Some (np_nanmax row)) as Hk.
  { by rewrite HQ, list_lookup_fmap, Hrow. }
  rewrite Hk. split; [|split].
  - intros j x Hj. destruct (np_nanmax_ge _ _ _ Hj) as (v & -> & Hv). eauto.
  - intros v [= Hv]. by apply np_nanmax_attained.
  - rewrite <- np_nanmax_nan. split; [by intros [= ->] | by intros ->].
Qed.

Lemma Q_is_running_maximum_witness :
  ∃ st0, initial (R:=nat) (Toy.ams 3 1) 0 0 Toy.start = Return st0 ∧
         st_Q st0 !! 1 = Some (Some (3 # 4)) ∧
         ∃ j, (st_score st0 !!! 1) !! j = Some (Some (3 # 4)).
Proof.
  destruct (initial (R:=nat) (Toy.ams 3 1) 0 0 Toy.start) as [st0| |] eqn:E;
    [|by vm_compute in E..].
  exists st0. split; [done|].
  assert (st_score st0 !! 1 = Some (st_score st0 !!! 1)) as Hrow.
  { apply list_lookup_lookup_total_lt.
    vm_compute in E. injection E as <-. simpl. lia. }
  assert (st_Q st0 !! 1 = Some (Some (3 # 4))) as HQ.
  { vm_compute in E. by injection E as <-. }
  split; [done|].
  by apply (Q_is_running_maximum Toy.next (Toy.ams 3 1) 0 0 Toy.start st0 st0 1
              (st_score st0 !!! 1) E (reach_entry _ _ _) Hrow).
Defined.

(** ** Counting the iterations *)

(** X2. A run that returns has gone through the iterations it reports:
    its iteration count is the number of passes through the loop body
    (never more than the fuel), and its probability is the product of the
    factors 1 - |idx|/N of these passes, in their order, times the
    transition count over N, each operation rounded to binary64 (the
    quotient and the difference of a factor, the product with the weight,
    the product with the count) and the last division left to numpy. *)
Theorem iterations_and_weight_product
    {W R : Type} (next_uint : R → nat * R) (ams : AMS W)
    fuel g wd init zmax (res : result) (g' : R) (wd' : W) :
  run next_uint ams fuel g wd init zmax = Return (res, g', wd') →
  ∃ st0 sizes st,
    initial ams g wd init = Return st0 ∧
    iterates next_uint ams st0 sizes st ∧
    loop_guard (nc ams) (st_Q st) = false ∧
    iterations res = length sizes ∧ length sizes ≤ fuel ∧
    g' = st_rng st ∧ wd' = st_world st ∧
    probability res =
      np_true_divide
        (b64 (foldl (λ w s, b64 (w * b64 (1 - b64 (inject_Z (Z.of_nat s)
                                                   / inject_Z (N_traj ams)))))
                    1%Q sizes
              * b64 (inject_Z (Z.of_nat (nb_transitions res)))))
        (N_traj ams).
Proof.
  intros Hrun. unfold run in Hrun.
  destruct (initial ams g wd init) as [st0| |] eqn:Hi; [|done..]. simpl in Hrun.
  destruct (loop next_uint ams fuel st0) as [st| |] eqn:Hl; [|done..].
  simpl in Hrun. injection Hrun as <- <- <-.
  destruct (loop_iterates _ _ _ _ _ Hl) as (sizes & Hit & Hlen & Hexit).
  destruct (iterates_count _ _ _ _ _ Hit) as [Hk Hw].
  destruct (initial_Return _ _ _ _ _ Hi)
    as (gen & sc & m & _ & _ & _ & _ & _ & _ & _ & _ & _ & _ & Hk0 & Hw0 & _).
  exists st0, sizes, st. simpl. rewrite Hk, Hk0, Hw, Hw0.
  repeat split; done.
Qed.

Lemma iterations_and_weight_product_witness :
  ∃ res sizes,
    run Toy.next (Toy.ams 3 1) 2 0 0 Toy.start (Some 1%Q) = Return (res, 2, 5) ∧
    iterations res = 2 ∧ length sizes = 2 ∧
    probability res =
      np_true_divide
        (b64 (foldl (λ w s, b64 (w * b64 (1 - b64 (inject_Z (Z.of_nat s)
                                                   / inject_Z 3))))
                    1%Q sizes
              * b64 (inject_Z (Z.of_nat (nb_transitions res)))))
        3.
Proof.
  destruct (run Toy.next (Toy.ams 3 1) 2 0 0 Toy.start (Some 1%Q))
    as [[[res g'] wd']| |] eqn:E; [|by vm_compute in E..].
  destruct (iterations_and_weight_product Toy.next (Toy.ams 3 1)
              2 0 0 Toy.start (Some 1%Q) res g' wd' E)
    as (st0 & sizes & st & _ & _ & _ & Hk & _ & _ & _ & Hp).
  assert (g' = 2 ∧ wd' = 5 ∧ iterations res = 2) as (-> & -> & Hi).
  { vm_compute in E. by injection E as <- <- <-. }
  exists res, sizes.
  split; [reflexivity|]. split; [exact Hi|]. split; [by rewrite <- Hk | exact Hp].
Defined.

(** ** Repeated runs *)

Section Multiple.
Context {W R : Type} (next_uint : R → nat * R) (ams : AMS W).

Lemma run_each_length fuel n g wd init rows (g' : R) (wd' : W) :
  run_each next_uint ams fuel n g wd init = Return (rows, g', wd') →
  length rows = n.
Proof.
  revert g wd rows g' wd'. induction n as [|n IH]; intros g wd rows g' wd'; simpl.
  - by intros [= <- _ _].
  - destruct (run next_uint ams fuel g wd init (Some 1%Q)) as [out| |]; [|done..].
    simpl.
    destruct (run_each next_uint ams fuel n out.1.2 out.2 init)
      as [[[rows1 g1] wd1]| |] eqn:E; [|done..].
    simpl. intros [= <- _ _]. simpl. f_equal. by apply (IH _ _ _ _ _ E).
Qed.

(** [a + b] runs are [a] runs followed by [b] runs on the generator states
    the first [a] left. *)
Lemma run_each_app fuel a b g wd init :
  run_each next_uint ams fuel (a + b) g wd init =
  (x ← run_each next_uint ams fuel a g wd init;
   y ← run_each next_uint ams fuel b x.1.2 x.2 init;
   Return (x.1.1 ++ y.1.1, y.1.2, y.2)).
Proof.
  revert g wd. induction a as [|a IH]; intros g wd; simpl.
  - by destruct (run_each next_uint ams fuel b g wd init) as [[[rows g1] wd1]| |].
  - destruct (run next_uint ams fuel g wd init (Some 1%Q)) as [out| |]; [|done..].
    simpl. rewrite IH.
    destruct (run_each next_uint ams fuel a out.1.2 out.2 init)
      as [[[rows1 g1] wd1]| |]; [|done..].
    simpl.
    by destruct (run_each next_uint ams fuel b g1 wd1 init)
      as [[[rows2 g2] wd2]| |].
Qed.
End Multiple.

(** X3. [run_multiple] refuses a negative number of runs before any run,
    returns an empty table and untouched generators for zero runs, and a
    table it returns has one row per run. *)
Theorem run_multiple_table
    {W R : Type} (next_uint : R → nat * R) (ams : AMS W)
    fuel (nb_runs : Z) (g : R) (wd : W) init :
  ((nb_runs < 0)%Z →
     run_multiple next_uint ams fuel nb_runs g wd init = Raise ValueError) ∧
  (nb_runs = 0%Z →
     run_multiple next_uint ams fuel nb_runs g wd init = Return ([], g, wd)) ∧
  (∀ rows g' wd',
     run_multiple next_uint ams fuel nb_runs g wd init = Return (rows, g', wd') →
     (0 ≤ nb_runs)%Z ∧ length rows = Z.to_nat nb_runs).
Proof.
  unfold run_multiple. split; [|split].
  - intros H. by rewrite (proj2 (Z.ltb_lt _ _) H).
  - by intros ->.
  - intros rows g' wd'. destruct (Z.ltb_spec nb_runs 0) as [|Hn]; [done|].
    intros Hl%run_each_length. done.
Qed.

Lemma run_multiple_table_witness :
  run_multiple Toy.next (Toy.ams 3 1) 2 (-1) 0 0 Toy.start = Raise ValueError ∧
  ∃ rows, run_multiple Toy.next (Toy.ams 3 1) 2 2 0 0 Toy.start = Return (rows, 4, 10) ∧
          length rows = 2.
Proof.
  split.
  - by apply (run_multiple_table Toy.next (Toy.ams 3 1) 2 (-1) 0 0 Toy.start).
  - destruct (run_multiple Toy.next (Toy.ams 3 1) 2 2 0 0 Toy.start)
      as [[[rows g'] wd']| |] eqn:E; [|by vm_compute in E..].
    destruct (run_multiple_table Toy.next (Toy.ams 3 1) 2 2 0 0 Toy.start)
      as (_ & _ & H).
    destruct (H rows g' wd' E) as [_ Hlen].
    exists rows. split; [|done].
    vm_compute in E. by injection E as <- <- <-.
Defined.

(** X4. Runs compose: [run_multiple] with one run is [run] with the
    collapse threshold 1, its row holding the probability, iteration count
    and transition count of that run; [a + b] runs are [a] runs followed by
    [b] runs that start on the generator states the first [a] left, the two
    tables appended. *)
Theorem run_multiple_compose
    {W R : Type} (next_uint : R → nat * R) (ams : AMS W)
    fuel (a b : Z) (g : R) (wd : W) init :
  (0 ≤ a)%Z → (0 ≤ b)%Z →
  run_multiple next_uint ams fuel 1 g wd init =
    (out ← run next_uint ams fuel g wd init (Some 1%Q);
     Return ([stats_of out.1.1], out.1.2, out.2)) ∧
  run_multiple next_uint ams fuel (a + b) g wd init =
    (x ← run_multiple next_uint ams fuel a g wd init;
     y ← run_multiple next_uint ams fuel b x.1.2 x.2 init;
     Return (x.1.1 ++ y.1.1, y.1.2, y.2)).
Proof.
  intros Ha Hb. split.
  - unfold run_multiple. simpl.
    by destruct (run next_uint ams fuel g wd init (Some 1%Q)) as [out| |].
  - unfold run_multiple.
    rewrite (proj2 (Z.ltb_ge _ _)) by lia.
    rewrite (proj2 (Z.ltb_ge a 0)) by lia.
    rewrite (proj2 (Z.ltb_ge b 0)) by lia.
    rewrite Z2Nat.inj_add by lia. apply run_each_app.
Qed.

Lemma run_multiple_compose_witness :
  run_multiple Toy.next (Toy.ams 3 1) 2 (1 + 1) 0 0 Toy.start =
  (x ← run_multiple Toy.next (Toy.ams 3 1) 2 1 0 0 Toy.start;
   y ← run_multiple Toy.next (Toy.ams 3 1) 2 1 x.1.2 x.2 Toy.start;
   Return (x.1.1 ++ y.1.1, y.1.2, y.2)).
Proof.
  by apply (run_multiple_compose Toy.next (Toy.ams 3 1) 2 1 1 0 0 Toy.start).
Defined.

(** X5. The first run that raises aborts [run_multiple]: when [a] runs
    return and the run after them raises, every longer batch raises the
    same exception and no table is returned. *)
Theorem run_multiple_aborts
    {W R : Type} (next_uint : R → nat * R) (ams : AMS W)
    fuel (a b : Z) (g : R) (wd : W) init rows g1 wd1 e :
  run_multiple next_uint ams fuel a g wd init = Return (rows, g1, wd1) →
  run next_uint ams fuel g1 wd1 init (Some 1%Q) = Raise e →
  (0 < b)%Z →
  run_multiple next_uint ams fuel (a + b) g wd init = Raise e.
Proof.
  intros Ha Hrun Hb. unfold run_multiple in *.
  destruct (Z.ltb_spec a 0) as [|Ha0]; [done|].
  rewrite (proj2 (Z.ltb_ge _ _)) by lia.
  rewrite Z2Nat.inj_add by lia. rewrite run_each_app, Ha. simpl.
  destruct (Z.to_nat b) as [|n] eqn:E; [lia|]. simpl. by rewrite Hrun.
Qed.

Lemma run_multiple_aborts_witness :
  run_multiple Toy.next (Replay.ams Replay.tape 2 2) 1 (2 + 3) 0 0 Replay.start
  = Raise ValueError.
Proof.
  destruct (run_multiple Toy.next (Replay.ams Replay.tape 2 2) 1 2 0 0 Replay.start)
    as [[[rows g1] wd1]| |] eqn:E; [|by vm_compute in E..].
  apply (run_multiple_aborts Toy.next (Replay.ams Replay.tape 2 2) 1 2 3 0 0
           Replay.start rows g1 wd1 ValueError E); [|done].
  vm_compute in E. injection E as <- <- <-. by vm_compute.
Defined.

(** ** Degenerate configurations *)

(** X6. With a trajectory generator that returns the number of
    trajectories it is asked for, a non-positive ensemble size makes [run]
    raise ValueError on the empty batch, before any score is computed. *)
Theorem nonpositive_ensemble_raises
    {W R : Type} (next_uint : R → nat * R) (ams : AMS W)
    (gen : W → Z → list state → batch * W)
    fuel (g : R) (wd : W) init zmax :
  comp_traj ams = Some gen → generator_rows gen → (N_traj ams ≤ 0)%Z →
  run next_uint ams fuel g wd init zmax = Raise ValueError.
Proof.
  intros Hgen Hrows HN. unfold run, initial. rewrite Hgen. simpl.
  pose proof (Hrows wd (N_traj ams) init) as Hl.
  destruct ((gen wd (N_traj ams) init).1) as [|tr b]; [done|].
  simpl in Hl. lia.
Qed.

Lemma nonpositive_ensemble_raises_witness :
  run Toy.next (Toy.ams 0 1) 3 0 0 [] (Some 1%Q) = Raise ValueError.
Proof.
  apply (nonpositive_ensemble_raises Toy.next (Toy.ams 0 1) Toy.gen
           3 0 0 [] (Some 1%Q)); [reflexivity | apply Toy_gen_rows | done].
Defined.

(** X7. The two computations of the natural length, trajectory by
    trajectory of an array with a time axis of non-zero length T: when the
    trajectory starts with a defined state they agree, and give the first
    undefined step or T if there is none; when it starts with an undefined
    state, lines 97-98 give T and lines 127-128 give 0. *)
Theorem natural_lengths_by_trajectory
    (T : nat) (b : batch) (i : nat) (tr : trajectory) :
  rectangular T b → 0 < T →
  b !! i = Some tr →
  (∀ s, tr !! 0 = Some s →
     (existsb isnan s = false →
        initial_lengths b !! i = Some (spec_natural_length T tr) ∧
        clone_lengths b !! i = Some (spec_natural_length T tr)) ∧
     (existsb isnan s = true →
        initial_lengths b !! i = Some T ∧
        clone_lengths b !! i = Some 0)) ∧
  ∃ s, tr !! 0 = Some s.
Proof.
  intros Hrect HT Hi.
  assert (shape1 b = T) as Hsh.
  { destruct b as [|row b]; [done|]. simpl. by inversion Hrect. }
  assert (length tr = T) as Hlen.
  { eapply Forall_lookup_1 in Hrect; [|exact Hi]. done. }
  split; [|destruct tr; [simpl in Hlen; lia | by eexists]].
  intros s Hs. unfold initial_lengths.
  rewrite clone_lengths_spec, !list_lookup_fmap, Hi, Hsh. simpl.
  unfold spec_natural_length. rewrite np_argmax_isnan_any. split.
  - intros H0. split; [|done]. f_equal.
    destruct (list_find _ tr) as [[j s']|] eqn:F; [|done]. simpl.
    apply list_find_Some in F as (Hj & Hs' & _).
    destruct j as [|j]; [|done]. rewrite Hs in Hj. injection Hj as <-.
    by rewrite H0 in Hs'.
  - intros Hn.
    assert (list_find (λ s : state, existsb isnan s = true) tr = Some (0, s)) as ->.
    { apply list_find_Some. split; [done|]. split; [done|]. intros j y _ Hj. lia. }
    done.
Qed.

Lemma natural_lengths_by_trajectory_witness :
  initial_lengths [[Toy.pt 0 0; Toy.gap]; [Toy.gap; Toy.gap]] !! 0 = Some 1 ∧
  clone_lengths [[Toy.pt 0 0; Toy.gap]; [Toy.gap; Toy.gap]] !! 0 = Some 1 ∧
  initial_lengths [[Toy.pt 0 0; Toy.gap]; [Toy.gap; Toy.gap]] !! 1 = Some 2 ∧
  clone_lengths [[Toy.pt 0 0; Toy.gap]; [Toy.gap; Toy.gap]] !! 1 = Some 0.
Proof.
  assert (rectangular 2 [[Toy.pt 0 0; Toy.gap]; [Toy.gap; Toy.gap]]) as Hrect
    by (by repeat constructor).
  destruct (natural_lengths_by_trajectory 2
              [[Toy.pt 0 0; Toy.gap]; [Toy.gap; Toy.gap]] 0 [Toy.pt 0 0; Toy.gap]
              Hrect ltac:(lia) eq_refl) as [H _].
  destruct (H (Toy.pt 0 0) eq_refl) as [H' _].
  destruct (H' eq_refl) as [H1 H2].
  destruct (natural_lengths_by_trajectory 2
              [[Toy.pt 0 0; Toy.gap]; [Toy.gap; Toy.gap]] 1 [Toy.gap; Toy.gap]
              Hrect ltac:(lia) eq_refl) as [G _].
  destruct (G Toy.gap eq_refl) as [_ G'].
  destruct (G' eq_refl) as [H3 H4].
  repeat split; assumption.
Defined.

Lemma np_flatnonzero_nil (m : list bool) :
  (∀ i, m !! i ≠ Some true) → np_flatnonzero m = [].
Proof.
  intros H. apply elem_of_nil_inv. intros i Hi%elem_of_np_flatnonzero.
  by apply (H i).
Qed.

Lemma select_idx_nan (q : list float) : select_idx q nan = [].
Proof.
  unfold select_idx. apply np_flatnonzero_nil. intros i.
  rewrite list_lookup_fmap. destruct (q !! i) as [[x|]|]; done.
Qed.

Lemma select_other_nan (q : list float) : select_other q nan = [].
Proof.
  unfold select_other. apply np_flatnonzero_nil. intros i.
  rewrite list_lookup_fmap. destruct (q !! i) as [[x|]|]; done.
Qed.

(** [np.unique(Q)[-1]]: NaN when Q holds one, the largest level otherwise. *)
Lemma select_threshold_zero_nan (q : list float) :
  existsb isnan q = true → select_threshold 0 q = Some nan.
Proof.
  intros Hn. unfold select_threshold, py_index, np_unique. rewrite Hn. simpl.
  rewrite length_app, length_fmap. simpl. change (0 - 1)%Z with (-1)%Z.
  rewrite (proj2 (Z.leb_le _ _)) by lia.
  rewrite lookup_app_r by (rewrite length_fmap; lia).
  rewrite length_fmap.
  by replace (Z.to_nat (Z.of_nat (length (sorted_distinct q) + 1) + -1)
              - length (sorted_distinct q)) with 0 by lia.
Qed.

Lemma select_threshold_zero_max (q : list float) :
  existsb isnan q = false → q ≠ [] →
  ∃ v, select_threshold 0 q = Some (Some v) ∧
       ∀ i x, q !! i = Some (Some x) → (x <= v)%Q.
Proof.
  intros Hn Hne. pose proof (distinct_levels_pos q Hne) as Hpos.
  unfold distinct_levels in Hpos. rewrite length_np_unique, Hn in Hpos.
  destruct (lookup_lt_is_Some_2 (sorted_distinct q)
              (length (sorted_distinct q) - 1)) as [v Hv]; [lia|].
  exists v. split.
  - unfold select_threshold, py_index, np_unique. rewrite Hn. simpl.
    rewrite app_nil_r, length_fmap. change (0 - 1)%Z with (-1)%Z.
    rewrite (proj2 (Z.leb_le _ _)) by lia.
    rewrite list_lookup_fmap.
    replace (Z.to_nat (Z.of_nat (length (sorted_distinct q)) + -1))
      with (length (sorted_distinct q) - 1) by lia.
    by rewrite Hv.
  - intros i x Hi.
    destruct (proj2 (sorted_distinct_level q x)) as (y & Hy & E).
    { exists i, x. split; [done | reflexivity]. }
    rewrite <- E. apply list_elem_of_lookup in Hy as [k Hk].
    pose proof (lookup_lt_Some _ _ _ Hk) as Hlt.
    destruct (decide (k = length (sorted_distinct q) - 1)) as [->|Hneq].
    + rewrite Hv in Hk. injection Hk as ->. apply Qle_refl.
    + apply Qlt_le_weak.
      apply (sorted_lookup_lt _ _ _ _ _ (sorted_distinct_sorted q) Hk Hv). lia.
Qed.

Section ZeroSurvivors.
Context {W R : Type} (next_uint : R → nat * R) (ams : AMS W).
Context (gen : W → Z → list state → batch * W) (sc : batch → list series).
Hypothesis Hnc : nc ams = 0%Z.
Hypothesis HN : N_traj ams ≠ 0%Z.
Hypothesis Hgen : comp_traj ams = Some gen.
Hypothesis Hsc : comp_score ams = Some sc.

Lemma iteration_nc_zero (st : loop_state W R) :
  st_Q st ≠ [] → iteration next_uint ams st = Raise ValueError.
Proof.
  intros Hne. unfold iteration, plan. rewrite Hnc.
  destruct (Z.eqb_spec (N_traj ams) 0) as [|_]; [done|].
  destruct (existsb isnan (st_Q st)) eqn:Hn.
  - rewrite (select_threshold_zero_nan _ Hn). simpl.
    rewrite select_idx_nan, select_other_nan. simpl.
    rewrite Hgen. simpl. rewrite Hsc. simpl.
    destruct (shape1 _ =? 0); [done|].
    by destruct (broadcast_lengths _ _).
  - destruct (select_threshold_zero_max _ Hn Hne) as (v & -> & Hmax). simpl.
    assert (select_other (st_Q st) (Some v) = []) as ->.
    { apply elem_of_nil_inv. intros i (x & Hx & Hlt)%elem_of_select_other.
      apply (Qlt_not_le _ _ Hlt). by apply (Hmax i). }
    rewrite bool_decide_eq_true_2; [done|]. split; [done|].
    destruct (st_Q st) as [|[x|] q] eqn:E; [done| |done].
    intros Hidx. assert (0 ∈ select_idx (Some x :: q) (Some v)) as H0.
    { apply elem_of_select_idx. exists x. split; [done|]. by apply (Hmax 0). }
    rewrite Hidx in H0. by apply elem_of_nil in H0.
Qed.
End ZeroSurvivors.

(** X8. With nc = 0 (and a non-zero ensemble size, the generator and the
    score function set) every state with at least one trajectory enters
    the loop and its first iteration raises ValueError: [rng.choice] finds
    no cloning source when Q holds no NaN, and [np.max] an empty selection
    when it holds one.  So [run] raises ValueError as soon as its ensemble
    of entry is built. *)
Theorem nc_zero_raises_ValueError
    {W R : Type} (next_uint : R → nat * R) (ams : AMS W)
    (gen : W → Z → list state → batch * W) (sc : batch → list series)
    (st : loop_state W R) :
  nc ams = 0%Z → N_traj ams ≠ 0%Z →
  comp_traj ams = Some gen → comp_score ams = Some sc →
  st_Q st ≠ [] →
  loop_guard (nc ams) (st_Q st) = true ∧
  iteration next_uint ams st = Raise ValueError ∧
  ∀ fuel g wd init zmax,
    initial ams g wd init = Return st →
    run next_uint ams (S fuel) g wd init zmax = Raise ValueError.
Proof.
  intros Hnc HN Hgen Hsc Hne.
  assert (loop_guard (nc ams) (st_Q st) = true) as Hg.
  { apply loop_guard_true. pose proof (distinct_levels_pos _ Hne). lia. }
  pose proof (iteration_nc_zero next_uint ams gen sc Hnc HN Hgen Hsc st Hne) as Hit.
  split; [done|]. split; [done|].
  intros fuel g wd init zmax Hi. unfold run. rewrite Hi. simpl.
  by rewrite Hg, Hit.
Qed.

Lemma nc_zero_raises_ValueError_witness :
  run Toy.next (Toy.ams 3 0) 1 0 0 Toy.start (Some 1%Q) = Raise ValueError.
Proof.
  destruct (initial (R:=nat) (Toy.ams 3 0) 0 0 Toy.start) as [st0| |] eqn:E;
    [|by vm_compute in E..].
  apply (nc_zero_raises_ValueError Toy.next (Toy.ams 3 0) Toy.gen Toy.score_x st0);
    try done.
  vm_compute in E. by injection E as <-.
Defined.

(** ** The size of the selection *)

(** Different levels belong to different trajectories: a strictly
    increasing list of levels, none above the threshold, gives as many
    selected indices. *)
Lemma level_indices (q : list float) (v : Q) (l : list Q) :
  StronglySorted Qlt l →
  (∀ y, y ∈ l → (y <= v)%Q ∧ level_of q y) →
  ∃ js : list nat,
    length js = length l ∧ NoDup js ∧
    ∀ i, i ∈ js → i ∈ select_idx q (Some v) ∧
                  ∃ x y, q !! i = Some (Some x) ∧ y ∈ l ∧ (x == y)%Q.
Proof.
  intros Hs. induction Hs as [|y l Hs IH Hy]; intros Hl.
  - exists []. split; [done|]. split; [constructor|].
    intros i Hi. by apply elem_of_nil in Hi.
  - destruct IH as (js & Hlen & Hnd & Hjs).
    { intros z Hz. apply Hl. by right. }
    destruct (Hl y) as [Hyv (i & x & Hi & Hx)]; [left|].
    exists (i :: js). split; [simpl; by rewrite Hlen|]. split.
    + constructor; [|done]. intros Hin.
      destruct (Hjs i Hin) as (_ & x' & y' & Hi' & Hy' & E).
      rewrite Hi in Hi'. injection Hi' as <-.
      apply list_elem_of_lookup in Hy' as [k Hk].
      pose proof (Forall_lookup_1 _ _ _ _ Hy Hk) as Hlt.
      rewrite <- E, Hx in Hlt. by apply Qlt_irrefl in Hlt.
    + intros j [->|Hj]%elem_of_cons.
      * split.
        { apply elem_of_select_idx. exists x. split; [done|]. by rewrite Hx. }
        exists x, y. split; [done|]. split; [left | done].
      * destruct (Hjs j Hj) as (H1 & x' & y' & H2 & H3 & H4).
        split; [done|]. exists x', y'. split; [done|]. split; [by right | done].
Qed.

(** At least [nc] trajectories lie at or below the level at position
    [nc - 1]. *)
Lemma select_idx_ge (q : list float) (c : Z) (v : Q) :
  (1 ≤ c)%Z → sorted_distinct q !! Z.to_nat (c - 1) = Some v →
  Z.to_nat c ≤ length (select_idx q (Some v)).
Proof.
  intros Hc Hv. pose proof (sorted_distinct_sorted q) as Hs.
  destruct (level_indices q v (take (Z.to_nat c) (sorted_distinct q)))
    as (js & Hlen & Hnd & Hjs).
  - rewrite <- (take_drop (Z.to_nat c) (sorted_distinct q)) in Hs.
    by apply StronglySorted_app_1_l in Hs.
  - intros y [k Hk]%list_elem_of_lookup.
    apply lookup_take_Some in Hk as [Hk Hlt]. split.
    + destruct (decide (k = Z.to_nat (c - 1))) as [->|Hne].
      * rewrite Hv in Hk. injection Hk as ->. apply Qle_refl.
      * apply Qlt_le_weak. apply (sorted_lookup_lt _ _ _ _ _ Hs Hk Hv). lia.
    + apply sorted_distinct_level. exists y. split; [|reflexivity].
      apply list_elem_of_lookup. eauto.
  - rewrite length_take in Hlen. apply lookup_lt_Some in Hv.
    assert (length js = Z.to_nat c) as <- by lia.
    apply submseteq_length, NoDup_submseteq; [done|].
    intros i Hi. by apply Hjs.
Qed.

(** The largest level bounds every level. *)
Lemma sorted_distinct_last (q : list float) (v : Q) :
  sorted_distinct q !! (length (sorted_distinct q) - 1) = Some v →
  ∀ i x, q !! i = Some (Some x) → (x <= v)%Q.
Proof.
  intros Hv i x Hi.
  destruct (proj2 (sorted_distinct_level q x)) as (y & Hy & E).
  { exists i, x. split; [done | reflexivity]. }
  rewrite <- E. apply list_elem_of_lookup in Hy as [k Hk].
  pose proof (lookup_lt_Some _ _ _ Hk) as Hlt.
  destruct (decide (k = length (sorted_distinct q) - 1)) as [->|Hneq].
  - rewrite Hv in Hk. injection Hk as ->. apply Qle_refl.
  - apply Qlt_le_weak.
    apply (sorted_lookup_lt _ _ _ _ _ (sorted_distinct_sorted q) Hk Hv). lia.
Qed.

Section Selection.
Context {W R : Type} (next_uint : R → nat * R) (ams : AMS W).

Lemma plan_selection_size (st : loop_state W R) (p : cloning R) :
  (1 ≤ nc ams)%Z →
  loop_guard (nc ams) (st_Q st) = true →
  plan next_uint ams st = Return p →
  Z.to_nat (nc ams) ≤ length (cl_idx p) ∧ length (cl_idx p) < length (st_Q st).
Proof.
  intros Hc Hg Hp.
  destruct (plan_Return _ _ _ _ Hp) as (Hth & Hidx & _).
  destruct (select_threshold_guard _ _ Hc Hg) as (v & Hv & Hsd).
  rewrite Hv in Hth. injection Hth as Hth. rewrite Hidx, <- Hth. split.
  - by apply select_idx_ge.
  - by apply (select_idx_lt _ (nc ams)).
Qed.

(** Under the guard a trajectory lies above the threshold, unless Q holds
    NaN and exactly [nc] levels. *)
Lemma plan_finds_source (st : loop_state W R) :
  (1 ≤ nc ams)%Z → N_traj ams ≠ 0%Z →
  loop_guard (nc ams) (st_Q st) = true →
  existsb isnan (st_Q st) = false ∨
    (nc ams + 1 < Z.of_nat (distinct_levels (st_Q st)))%Z →
  ∃ p, plan next_uint ams st = Return p ∧ cl_other_idx p ≠ [].
Proof.
  intros Hc HN Hg Hcase.
  destruct (select_threshold_guard _ _ Hc Hg) as (v & Hth & Hv).
  assert (Z.to_nat (nc ams) < length (sorted_distinct (st_Q st))) as Hlt.
  { apply Z.ltb_lt in Hg. unfold distinct_levels in *.
    rewrite length_np_unique in *.
    destruct Hcase as [Hn|Hn]; [rewrite Hn in Hg; lia|].
    destruct (existsb isnan (st_Q st)); lia. }
  destruct (lookup_lt_is_Some_2 _ _ Hlt) as [u Hu].
  assert (v < u)%Q as Hvu.
  { apply (sorted_lookup_lt _ _ _ _ _ (sorted_distinct_sorted _) Hv Hu). lia. }
  destruct (proj1 (sorted_distinct_level (st_Q st) u)) as (j & y & Hj & Hy).
  { exists u. split; [|reflexivity]. apply list_elem_of_lookup. eauto. }
  assert (j ∈ select_other (st_Q st) (Some v)) as Hjo.
  { apply elem_of_select_other. exists y. split; [done|]. by rewrite Hy. }
  assert (select_other (st_Q st) (Some v) ≠ []) as Hne.
  { intros E. rewrite E in Hjo. by apply elem_of_nil in Hjo. }
  unfold plan. rewrite Hth. simpl.
  destruct (Z.eqb_spec (N_traj ams) 0) as [|_]; [done|].
  rewrite bool_decide_eq_false_2 by (by intros [? _]).
  destruct (rng_choice _ _ _ _) as [new_ind g']. eexists. split; [done|]. done.
Qed.

Lemma plan_no_source (st : loop_state W R) :
  (1 ≤ nc ams)%Z → N_traj ams ≠ 0%Z →
  existsb isnan (st_Q st) = true →
  Z.of_nat (distinct_levels (st_Q st)) = (nc ams + 1)%Z →
  plan next_uint ams st = Raise ValueError.
Proof.
  intros Hc HN Hn Hd.
  assert (loop_guard (nc ams) (st_Q st) = true) as Hg.
  { apply loop_guard_true. lia. }
  destruct (select_threshold_guard _ _ Hc Hg) as (v & Hth & Hv).
  unfold distinct_levels in Hd. rewrite length_np_unique, Hn in Hd.
  replace (Z.to_nat (nc ams - 1)) with (length (sorted_distinct (st_Q st)) - 1)
    in Hv by lia.
  pose proof (sorted_distinct_last _ _ Hv) as Hmax.
  unfold plan. rewrite Hth. simpl.
  destruct (Z.eqb_spec (N_traj ams) 0) as [|_]; [done|].
  rewrite bool_decide_eq_true_2; [done|]. split.
  - apply elem_of_nil_inv. intros i (x & Hx & Hlt)%elem_of_select_other.
    apply (Qlt_not_le _ _ Hlt). by apply (Hmax i).
  - intros E.
    assert (Z.to_nat (nc ams) ≤ length (select_idx (st_Q st) (Some v))) as Hge.
    { apply select_idx_ge; [done|].
      by replace (Z.to_nat (nc ams - 1))
        with (length (sorted_distinct (st_Q st)) - 1) by lia. }
    rewrite E in Hge. simpl in Hge. lia.
Qed.
End Selection.

(** X10. An iteration entered under the guard with nc at least 1 regenerates
    at least nc trajectories and never the whole ensemble: nc <= |idx| <
    |Q|.  The selected indices are pairwise different, some trajectory lies
    above the threshold, and every clone source is drawn among those: one
    source per selected index, none of them selected itself. *)
Theorem selection_size_and_sources
    {W R : Type} (next_uint : R → nat * R) (ams : AMS W)
    (st : loop_state W R) (p : cloning R) :
  (1 ≤ nc ams)%Z →
  loop_guard (nc ams) (st_Q st) = true →
  plan next_uint ams st = Return p →
  Z.to_nat (nc ams) ≤ length (cl_idx p) ∧
  length (cl_idx p) < length (st_Q st) ∧
  NoDup (cl_idx p) ∧
  cl_other_idx p ≠ [] ∧
  length (cl_new_ind p) = length (cl_idx p) ∧
  ∀ s, s ∈ cl_new_ind p → s ∈ cl_other_idx p ∧ s ∉ cl_idx p.
Proof.
  intros Hc Hg Hp.
  destruct (plan_selection_size _ _ _ _ Hc Hg Hp) as [Hge Hlt].
  destruct (plan_Return _ _ _ _ Hp) as (_ & Hidx & Hother & _ & _ & _ & _ & Hne).
  destruct (plan_sources _ _ _ _ Hp) as (Hnd & Hlen & _ & Hin & _ & _).
  split; [done|]. split; [done|]. split; [done|]. split.
  { apply Hne. intros E. rewrite E in Hge. simpl in Hge. lia. }
  split; [done|]. intros s Hs%Hin. split; [done|].
  intros Ht. rewrite Hidx in Ht. rewrite Hother in Hs.
  by apply select_disjoint in Ht.
Qed.

Lemma selection_size_and_sources_witness :
  ∃ st0 p,
    initial (Toy.ams 3 1) 0 0 Toy.start = Return st0 ∧
    plan Toy.next (Toy.ams 3 1) st0 = Return p ∧
    1 ≤ length (cl_idx p) ∧ length (cl_idx p) < 3 ∧ cl_other_idx p ≠ [].
Proof.
  destruct (initial (R:=nat) (Toy.ams 3 1) 0 0 Toy.start) as [st0| |] eqn:E;
    [|by vm_compute in E..].
  destruct (plan Toy.next (Toy.ams 3 1) st0) as [p| |] eqn:Ep.
  2,3: vm_compute in E; injection E as <-; by vm_compute in Ep.
  assert (loop_guard (nc (Toy.ams 3 1)) (st_Q st0) = true ∧ length (st_Q st0) = 3)
    as [Hg HQ].
  { vm_compute in E. injection E as <-. by vm_compute. }
  exists st0, p. split; [done|]. split; [done|].
  destruct (selection_size_and_sources Toy.next (Toy.ams 3 1) st0 p)
    as (H1 & H2 & _ & H3 & _); [done | done | done |].
  rewrite HQ in H2. done.
Defined.

(** X11. With nc at least 1 and a non-zero N, the selection of an
    iteration entered under the guard fails in exactly one situation: Q
    holds a NaN and exactly nc distinct numbers.  Then every number of Q is
    at or below the threshold, no index is left for [rng.choice] to draw
    from, and the iteration raises ValueError.  In every other case the
    selection succeeds and some trajectory lies above the threshold. *)
Theorem selection_fails_only_on_nan
    {W R : Type} (next_uint : R → nat * R) (ams : AMS W) (st : loop_state W R) :
  (1 ≤ nc ams)%Z → N_traj ams ≠ 0%Z →
  loop_guard (nc ams) (st_Q st) = true →
  if existsb isnan (st_Q st)
     && (Z.of_nat (distinct_levels (st_Q st)) =? nc ams + 1)%Z
  then plan next_uint ams st = Raise ValueError ∧
       iteration next_uint ams st = Raise ValueError
  else ∃ p, plan next_uint ams st = Return p ∧ cl_other_idx p ≠ [].
Proof.
  intros Hc HN Hg.
  destruct (existsb isnan (st_Q st)) eqn:Hn; simpl.
  - destruct (Z.eqb_spec (Z.of_nat (distinct_levels (st_Q st))) (nc ams + 1))
      as [Hd|Hd].
    + pose proof (plan_no_source next_uint ams st Hc HN Hn Hd) as Hp.
      split; [done|]. unfold iteration. by rewrite Hp.
    + apply plan_finds_source; try done. right.
      apply loop_guard_true in Hg. lia.
  - apply plan_finds_source; try done. by left.
Qed.

Lemma selection_fails_only_on_nan_witness :
  iteration Toy.next (Toy.ams 2 1)
    {| st_k := 0; st_w := 1; st_traj := [[Toy.pt 0 0]; [Toy.gap]];
       st_score := [[Some 0%Q]; [nan]]; st_Nt := [1; 1]; st_max_Nt := 1;
       st_Q := [Some 0%Q; nan]; st_rng := 0; st_world := 0 |}
  = Raise ValueError.
Proof.
  apply (selection_fails_only_on_nan Toy.next (Toy.ams 2 1)
           {| st_k := 0; st_w := 1; st_traj := [[Toy.pt 0 0]; [Toy.gap]];
              st_score := [[Some 0%Q]; [nan]]; st_Nt := [1; 1]; st_max_Nt := 1;
              st_Q := [Some 0%Q; nan]; st_rng := 0; st_world := 0 |});
    done.
Defined.

(** ** The size of the ensemble and the trajectories that survive *)

Section AssignLengths.
Context (Nt idx restart new_nt : list nat).
Hypothesis Hnd : NoDup idx.

Let step := λ (acc : list nat) (i : nat),
  <[idx !!! i := restart !!! i + new_nt !!! i]> acc.

Lemma assign_passes n :
  n ≤ length idx →
  length (foldl step Nt (seq 0 n)) = length Nt ∧
  (∀ i, i < n → idx !!! i < length Nt →
     foldl step Nt (seq 0 n) !! (idx !!! i)
       = Some (restart !!! i + new_nt !!! i)) ∧
  (∀ k, (∀ i, i < n → idx !!! i ≠ k) → foldl step Nt (seq 0 n) !! k = Nt !! k).
Proof.
  induction n as [|n IH]; intros Hn.
  { split; [done|]. split; [intros i Hi; lia | done]. }
  destruct IH as (IH0 & IH1 & IH2); [lia|].
  rewrite seq_S, foldl_snoc. change (0 + n) with n. unfold step at 1 3 5.
  split; [by rewrite length_insert|]. split.
  - intros i Hi Hlt. destruct (decide (i = n)) as [->|Hne].
    + by rewrite list_lookup_insert_eq by lia.
    + rewrite list_lookup_insert_ne; [apply IH1; [lia | done]|].
      intros E.
      pose proof (NoDup_lookup _ i n (idx !!! n) Hnd) as Hinj.
      rewrite E in Hinj at 1.
      specialize (Hinj (list_lookup_lookup_total_lt idx i ltac:(lia))
                       (list_lookup_lookup_total_lt idx n ltac:(lia))).
      lia.
  - intros k Hk. rewrite list_lookup_insert_ne by (apply Hk; lia).
    apply IH2. intros i Hi. apply Hk. lia.
Qed.

Lemma length_assign_lengths :
  length (assign_lengths Nt idx restart new_nt) = length Nt.
Proof. by destruct (assign_passes (length idx)) as [H _]. Qed.

Lemma lookup_assign_lengths_idx i :
  i < length idx → idx !!! i < length Nt →
  assign_lengths Nt idx restart new_nt !! (idx !!! i)
    = Some (restart !!! i + new_nt !!! i).
Proof.
  intros Hi Hlt. destruct (assign_passes (length idx)) as (_ & H & _); [done|].
  by apply H.
Qed.

Lemma lookup_assign_lengths_other k :
  k ∉ idx → assign_lengths Nt idx restart new_nt !! k = Nt !! k.
Proof.
  intros Hk. destruct (assign_passes (length idx)) as (_ & _ & H); [done|].
  apply H. intros i Hi <-. apply Hk, list_elem_of_lookup.
  exists i. by apply list_lookup_lookup_total_lt.
Qed.
End AssignLengths.

Section Sizes.
Context {W R : Type} (next_uint : R → nat * R) (ams : AMS W).
Context (gen : W → Z → list state → batch * W) (sc : batch → list series).
Hypothesis Hgen : comp_traj ams = Some gen.
Hypothesis Hsc : comp_score ams = Some sc.
Hypothesis Hrows : generator_rows gen.
Hypothesis Hshape : score_shape sc.

Lemma reachable_sizes g wd init (st0 st : loop_state W R) :
  initial ams g wd init = Return st0 →
  reachable next_uint ams st0 st →
  (0 < N_traj ams)%Z ∧
  length (st_traj st) = Z.to_nat (N_traj ams) ∧
  length (st_score st) = Z.to_nat (N_traj ams) ∧
  length (st_Nt st) = Z.to_nat (N_traj ams) ∧
  st_Q st = np_nanmax <$> st_score st.
Proof.
  intros Hi Hr. induction Hr as [|st st' Hr IH Hg Hit].
  - destruct (initial_Return _ _ _ _ _ Hi)
      as (gen' & sc' & m & Hgen' & Hsc' & _ & Ht & _ & Hs & HQ & HNt & _ & Hsh & _).
    rewrite Hgen in Hgen'. injection Hgen' as <-.
    rewrite Hsc in Hsc'. injection Hsc' as <-.
    assert (length (st_traj st0) = Z.to_nat (N_traj ams)) as Hl.
    { rewrite Ht. apply Hrows. }
    split.
    { destruct (st_traj st0); [done|]. simpl in Hl. lia. }
    split; [done|]. split.
    { rewrite Hs, length_zip_with. destruct (Hshape (st_traj st0)) as [-> _]. lia. }
    split; [|done].
    rewrite HNt. unfold initial_lengths. by rewrite length_fmap.
  - destruct IH as (HN & Ht & Hs & HNt & HQ).
    destruct (iteration_rows _ _ _ _ Hit) as [Hl1 Hl2].
    destruct (iteration_Return _ _ _ _ Hit)
      as (p & gen' & sc' & m & new_max & Hp & _ & _ & _ & H).
    simpl in H. destruct H as (_ & HNt' & _ & _ & _ & HQ' & _).
    destruct (plan_sources _ _ _ _ Hp) as (Hnd & _).
    split; [done|]. split; [lia|]. split; [lia|]. split; [|done].
    rewrite HNt'. by rewrite length_assign_lengths.
Qed.
End Sizes.

(** X14. The ensemble keeps its size: with a generator that returns as
    many trajectories as it is asked for and a score function that returns
    one row per trajectory, N is positive and [traj], [score], [Nt] and [Q]
    all have N rows in every state the loop reaches. *)
Theorem ensemble_keeps_its_size
    {W R : Type} (next_uint : R → nat * R) (ams : AMS W)
    (gen : W → Z → list state → batch * W) (sc : batch → list series)
    g wd init (st0 st : loop_state W R) :
  comp_traj ams = Some gen → comp_score ams = Some sc →
  generator_rows gen → score_shape sc →
  initial ams g wd init = Return st0 →
  reachable next_uint ams st0 st →
  (0 < N_traj ams)%Z ∧
  length (st_traj st) = Z.to_nat (N_traj ams) ∧
  length (st_score st) = Z.to_nat (N_traj ams) ∧
  length (st_Nt st) = Z.to_nat (N_traj ams) ∧
  length (st_Q st) = Z.to_nat (N_traj ams).
Proof.
  intros Hgen Hsc Hrows Hshape Hi Hr.
  destruct (reachable_sizes next_uint ams gen sc Hgen Hsc Hrows Hshape
              _ _ _ _ _ Hi Hr) as (HN & Ht & Hs & HNt & HQ).
  repeat split; try done. by rewrite HQ, length_fmap.
Qed.

Lemma ensemble_keeps_its_size_witness :
  ∃ st0 st1,
    initial (Toy.ams 3 1) 0 0 Toy.start = Return st0 ∧
    iteration Toy.next (Toy.ams 3 1) st0 = Return st1 ∧
    length (st_traj st1) = 3 ∧ length (st_score st1) = 3 ∧
    length (st_Nt st1) = 3 ∧ length (st_Q st1) = 3.
Proof.
  destruct (initial (R:=nat) (Toy.ams 3 1) 0 0 Toy.start) as [st0| |] eqn:E;
    [|by vm_compute in E..].
  destruct (iteration Toy.next (Toy.ams 3 1) st0) as [st1| |] eqn:E1.
  2,3: vm_compute in E; injection E as <-; by vm_compute in E1.
  exists st0, st1. split; [done|]. split; [done|].
  assert (loop_guard (nc (Toy.ams 3 1)) (st_Q st0) = true) as Hg.
  { vm_compute in E. by injection E as <-. }
  destruct (ensemble_keeps_its_size Toy.next (Toy.ams 3 1) Toy.gen Toy.score_x
              0 0 Toy.start st0 st1) as (_ & H1 & H2 & H3 & H4); try done.
  - apply Toy_gen_rows.
  - apply Toy_score_shape.
  - eapply reach_iter; [apply reach_entry | done | done].
Defined.

Section Survivors.
Context {W R : Type} (next_uint : R → nat * R) (ams : AMS W).

Lemma iteration_survivor (st st' : loop_state W R) p k :
  length (st_score st) = length (st_traj st) →
  st_Q st = np_nanmax <$> st_score st →
  plan next_uint ams st = Return p →
  iteration next_uint ams st = Return st' →
  k ∉ cl_idx p →
  st_max_Nt st ≤ st_max_Nt st' ∧
  st_traj st' !! k =
    (λ tr, tr ++ replicate (st_max_Nt st' - st_max_Nt st) (replicate dimension nan))
      <$> st_traj st !! k ∧
  st_score st' !! k =
    (λ s, s ++ replicate (st_max_Nt st' - st_max_Nt st) nan) <$> st_score st !! k ∧
  st_Nt st' !! k = st_Nt st !! k ∧
  st_Q st' !! k = st_Q st !! k.
Proof.
  intros Hrows HQ Hp Hit Hk.
  destruct (iteration_Return _ _ _ _ Hit)
    as (p' & gen & sc & m & new_max & Hp' & _ & _ & _ & H).
  rewrite Hp in Hp'. injection Hp' as <-.
  simpl in H. destruct H as (_ & HNt & _ & Ht & Hs & HQ' & _ & _ & _ & _ & Hmax).
  destruct (plan_sources _ _ _ _ Hp) as (Hnd & _ & _ & _ & Hsrc & Hidx).
  assert (∀ t, t ∈ cl_idx p →
               t < length (grow_traj (st_max_Nt st) new_max (st_traj st))) as Hidx'.
  { intros t Ht'%Hidx. rewrite length_grow_traj, <- Hrows.
    apply (f_equal length) in HQ. rewrite length_fmap in HQ. lia. }
  assert (length (grow_score (st_max_Nt st) new_max (st_score st)) =
          length (grow_traj (st_max_Nt st) new_max (st_traj st))) as Hrows'.
  { by rewrite length_grow_traj, length_grow_score. }
  match type of Ht with
  | _ = (merge _ _ _ _ ?nt ?ntr ?nsc ?tr ?sco).1 =>
      destruct (merge_lookup_other m (cl_idx p) (cl_new_ind p) (cl_restart p)
                  nt ntr nsc tr sco Hnd Hsrc Hidx' Hrows' k Hk) as [E1 E2]
  end.
  rewrite <- Ht in E1. rewrite <- Hs in E2.
  assert (st_traj st' !! k =
    (λ tr, tr ++ replicate (st_max_Nt st' - st_max_Nt st) (replicate dimension nan))
      <$> st_traj st !! k ∧
    st_score st' !! k =
    (λ s, s ++ replicate (st_max_Nt st' - st_max_Nt st) nan) <$> st_score st !! k ∧
    st_max_Nt st ≤ st_max_Nt st') as (Htk & Hsk & Hle).
  { rewrite E1, E2, Hmax. unfold grow_traj, grow_score.
    destruct (Nat.ltb_spec (st_max_Nt st) new_max) as [Hlt|Hge].
    - unfold pad_traj, pad_score. rewrite !list_lookup_fmap. split; [done|].
      split; [done | lia].
    - rewrite Nat.sub_diag. simpl. split; [|split; [|lia]].
      + destruct (st_traj st !! k); simpl; [|done]. by rewrite app_nil_r.
      + destruct (st_score st !! k); simpl; [|done]. by rewrite app_nil_r. }
  split; [done|]. split; [done|]. split; [done|]. split.
  - rewrite HNt. by apply lookup_assign_lengths_other.
  - rewrite HQ', HQ, !list_lookup_fmap, Hsk.
    destruct (st_score st !! k) as [s|]; [|done]. simpl.
    by rewrite np_nanmax_padded.
Qed.
End Survivors.



(** ** Lengths and the time axis *)

Lemma np_max_spec (a : list nat) mx :
  np_max a = Some mx → mx ∈ a ∧ ∀ n, n ∈ a → n ≤ mx.
Proof.
  destruct a as [|x a]; [done|]. simpl. intros [= <-].
  induction a as [|y a [IH1 IH2]]; simpl.
  - split; [left|]. by intros n ->%list_elem_of_singleton.
  - split.
    + destruct (Nat.max_spec y (foldr Nat.max x a)) as [[_ ->]|[_ ->]].
      * apply elem_of_cons in IH1 as [E|IH1]; [rewrite E; left | by do 2 right].
      * right. left.
    + intros n [->|[->|Hn]%elem_of_cons]%elem_of_cons.
      * specialize (IH2 x ltac:(left)). lia.
      * lia.
      * specialize (IH2 n ltac:(by right)). lia.
Qed.

Lemma np_argmax_le (m : list bool) : np_argmax m ≤ length m.
Proof.
  destruct m as [|b m]; [done|].
  pose proof (np_argmax_lt (b :: m) ltac:(done)). lia.
Qed.

Lemma pad_traj_0 d (traj : batch) : pad_traj d 0 traj = traj.
Proof.
  unfold pad_traj. apply list_eq. intros i. rewrite list_lookup_fmap.
  destruct (traj !! i); simpl; [|done]. by rewrite app_nil_r.
Qed.

Lemma pad_score_0 (score : list series) : pad_score 0 score = score.
Proof.
  unfold pad_score. apply list_eq. intros i. rewrite list_lookup_fmap.
  destruct (score !! i); simpl; [|done]. by rewrite app_nil_r.
Qed.

Lemma grow_traj_pad a b (traj : batch) :
  grow_traj a b traj = pad_traj dimension ((if a <? b then b else a) - a) traj.
Proof.
  unfold grow_traj. destruct (a <? b); [done|].
  by rewrite Nat.sub_diag, pad_traj_0.
Qed.

Lemma grow_score_pad a b (score : list series) :
  grow_score a b score = pad_score ((if a <? b then b else a) - a) score.
Proof.
  unfold grow_score. destruct (a <? b); [done|].
  by rewrite Nat.sub_diag, pad_score_0.
Qed.

Lemma lookup_pad_score pad (score : list series) k j (x : float) :
  (score !!! k) !! j = Some x → (pad_score pad score !!! k) !! j = Some x.
Proof.
  unfold pad_score. intros Hx.
  destruct (decide (k < length score)) as [Hk|Hk].
  - destruct (lookup_lt_is_Some_2 score k Hk) as [s Hs].
    rewrite (list_lookup_total_correct _ _ _ Hs) in Hx.
    erewrite (list_lookup_total_correct (_ <$> score));
      [|by rewrite list_lookup_fmap, Hs].
    by apply lookup_app_l_Some.
  - by rewrite lookup_total_None in Hx by lia.
Qed.

Lemma clone_lengths_le T (b : batch) i l :
  rectangular T b → clone_lengths b !! i = Some l →
  l ≤ T ∧ length (b !!! i) = T.
Proof.
  intros Hrect Hl. unfold clone_lengths in Hl.
  apply list_lookup_fmap_Some in Hl as (tr & -> & Htr).
  pose proof (Forall_lookup_1 _ _ _ _ Hrect Htr) as Hlen. simpl in Hlen.
  rewrite (list_lookup_total_correct _ _ _ Htr). split; [|done].
  destruct (forallb _ tr).
  - destruct b as [|tr0 b]; [done|]. simpl.
    by rewrite (Forall_lookup_1 _ _ 0 tr0 Hrect eq_refl).
  - pose proof (np_argmax_le (isnan_any tr)) as H.
    unfold isnan_any in H at 2. rewrite length_fmap in H. lia.
Qed.

Lemma initial_lengths_le T (b : batch) i n :
  rectangular T b → initial_lengths b !! i = Some n → n ≤ T.
Proof.
  intros Hrect Hn. unfold initial_lengths in Hn.
  apply list_lookup_fmap_Some in Hn as (tr & -> & Htr).
  pose proof (Forall_lookup_1 _ _ _ _ Hrect Htr) as Hlen. simpl in Hlen.
  destruct (np_argmax (isnan_any tr) =? 0).
  - destruct b as [|tr0 b]; [done|]. simpl.
    by rewrite (Forall_lookup_1 _ _ 0 tr0 Hrect eq_refl).
  - pose proof (np_argmax_le (isnan_any tr)) as H.
    unfold isnan_any in H at 2. rewrite length_fmap in H. lia.
Qed.

Section Lengths.
Context {W R : Type} (next_uint : R → nat * R) (ams : AMS W).
Context (gen : W → Z → list state → batch * W) (sc : batch → list series).
Context (m : Model).
Hypothesis Hgen : comp_traj ams = Some gen.
Hypothesis Hsc : comp_score ams = Some sc.
Hypothesis Hm : model ams = Some m.
Hypothesis Hrect : generator_rectangular gen.
Hypothesis Hshape : score_shape sc.
Hypothesis Hskip : classifier_skips_nan m.

Lemma initial_lengths_ok g wd init T (st0 : loop_state W R) :
  initial ams g wd init = Return st0 →
  ensemble_ok m T (st_traj st0) (st_score st0) →
  lengths_ok T st0.
Proof.
  intros Hi Hok.
  destruct (initial_Return _ _ _ _ _ Hi)
    as (gen' & sc' & m' & _ & _ & _ & _ & _ & _ & _ & HNt & Hmax & _).
  destruct (np_max_spec _ _ Hmax) as [Hin Hle].
  split; [|split].
  - rewrite HNt. unfold initial_lengths. by rewrite length_fmap.
  - intros i n Hn. apply Hle, list_elem_of_lookup. eauto.
  - apply list_elem_of_lookup in Hin as [i Hin]. rewrite HNt in Hin.
    apply (initial_lengths_le T _ _ _ (ok_traj _ _ _ _ Hok) Hin).
Qed.

(** One iteration, array by array: the storage after the padding, the
    lengths, and the row written for each regenerated trajectory. *)
Lemma iteration_layout T (st st' : loop_state W R) (p : cloning R) :
  ensemble_ok m T (st_traj st) (st_score st) →
  lengths_ok T st →
  st_Q st = np_nanmax <$> st_score st →
  plan next_uint ams st = Return p →
  iteration next_uint ams st = Return st' →
  let pad := st_max_Nt st' - st_max_Nt st in
  let traj := pad_traj dimension pad (st_traj st) in
  let score := pad_score pad (st_score st) in
  let new_traj := (gen (st_world st) (Z.of_nat (length (cl_idx p)))
                     (init_clone (st_traj st) (cl_new_ind p) (cl_restart p))).1 in
  ensemble_ok m (T + pad) traj score ∧
  ensemble_ok m (T + pad) (st_traj st') (st_score st') ∧
  lengths_ok (T + pad) st' ∧
  st_max_Nt st ≤ st_max_Nt st' ∧
  ∀ i t, cl_idx p !! i = Some t →
    let r := cl_restart p !!! i in
    let l := clone_lengths new_traj !!! i in
    let src := cl_new_ind p !!! i in
    st_Nt st' !! t = Some (r + l) ∧
    st_traj st' !! t =
      Some (clone_row r l (traj !!! src) (new_traj !!! i) (traj !!! t)) ∧
    st_score st' !! t =
      Some (classify m
              (clone_row r l (traj !!! src) (new_traj !!! i) (traj !!! t))
              (clone_row r l (score !!! src) (sc new_traj !!! i) (score !!! t))).
Proof.
  intros Hok (HlNt & HNt & HT) HQ Hp Hit.
  destruct (iteration_Return _ _ _ _ Hit)
    as (p' & gen' & sc' & m' & new_max & Hp' & Hgen' & Hsc' & Hm' & H).
  rewrite Hp in Hp'. injection Hp' as <-.
  rewrite Hgen in Hgen'. injection Hgen' as <-.
  rewrite Hsc in Hsc'. injection Hsc' as <-.
  rewrite Hm in Hm'. injection Hm' as <-.
  simpl in H.
  destruct H as (_ & HNt' & Hnew & Ht & Hs & _ & _ & _ & _ & _ & Hmax).
  rewrite grow_traj_pad, grow_score_pad, <- Hmax in Ht, Hs.
  destruct (plan_sources _ _ _ _ Hp) as (Hnd & Hlni & _ & _ & Hsrc & Hidx).
  pose proof (ok_rows _ _ _ _ Hok) as Hrows.
  assert (length (st_Q st) = length (st_traj st)) as HlQ.
  { rewrite HQ, length_fmap. done. }
  intros pad traj score new_traj.
  pose proof (pad_ok m T _ _ Hskip Hok pad) as Hok'. fold traj score in Hok'.
  assert (∀ t, t ∈ cl_idx p → t < length traj) as Hidx'.
  { intros t Ht'%Hidx. unfold traj. rewrite length_pad_traj. lia. }
  assert (st_max_Nt st ≤ st_max_Nt st') as Hle.
  { rewrite Hmax. destruct (Nat.ltb_spec (st_max_Nt st) new_max); lia. }
  assert (new_max ≤ st_max_Nt st') as Hle'.
  { rewrite Hmax. destruct (Nat.ltb_spec (st_max_Nt st) new_max); lia. }
  split; [done|]. split.
  { rewrite Ht, Hs. by apply merge_ok. }
  split; [|split; [done|]].
  - split; [|split].
    + rewrite HNt', length_assign_lengths, HlNt by done.
      by destruct (iteration_rows _ _ _ _ Hit) as [_ ->].
    + intros k n Hk. destruct (decide (k ∈ cl_idx p)) as [Hin|Hout].
      * destruct (np_max_spec _ _ Hnew) as [_ Hub].
        etrans; [|exact Hle']. apply Hub.
        apply list_elem_of_fmap. exists k. split; [|done].
        by rewrite (list_lookup_total_correct _ _ _ Hk).
      * rewrite HNt', lookup_assign_lengths_other in Hk by done.
        specialize (HNt _ _ Hk). lia.
    + unfold pad. lia.
  - intros i t Hi r l src.
    pose proof (lookup_lt_Some _ _ _ Hi) as Hlt.
    pose proof (list_lookup_total_correct _ _ _ Hi) as Et.
    split.
    + rewrite HNt', <- Et. apply lookup_assign_lengths_idx; [done | done |].
      rewrite Et, HlNt, <- HlQ. apply Hidx, list_elem_of_lookup. eauto.
    + match type of Ht with
      | _ = (merge _ _ _ _ ?nt ?ntr ?nsc _ _).1 =>
          destruct (merge_lookup_idx m (cl_idx p) (cl_new_ind p) (cl_restart p)
                      nt ntr nsc traj score Hnd Hsrc Hidx'
                      (ok_rows _ _ _ _ Hok') i Hlt) as [E1 E2]
      end.
      simpl in E1, E2. unfold merged_row in E1, E2. rewrite Et in E1, E2.
      split; [rewrite Ht; exact E1 | rewrite Hs; exact E2].
Qed.

Lemma reachable_lengths g wd init (st0 st : loop_state W R) :
  initial ams g wd init = Return st0 →
  reachable next_uint ams st0 st →
  ∃ T0 T,
    ensemble_ok m T0 (st_traj st0) (st_score st0) ∧
    ensemble_ok m T (st_traj st) (st_score st) ∧
    lengths_ok T st ∧
    st_max_Nt st0 ≤ st_max_Nt st ∧
    T = T0 + (st_max_Nt st - st_max_Nt st0).
Proof.
  intros Hi Hr. induction Hr as [|st st' Hr IH Hg Hit].
  - destruct (initial_ok ams gen sc m Hgen Hsc Hm Hrect Hshape _ _ _ _ Hi)
      as [T Hok].
    exists T, T. split; [done|]. split; [done|].
    split; [by apply (initial_lengths_ok g wd init)|]. lia.
  - destruct IH as (T0 & T & Hok0 & Hok & Hlen & Hle & ->).
    pose proof (reachable_Q next_uint ams _ _ _ _ _ Hi Hr) as HQ.
    destruct (iteration_Return _ _ _ _ Hit) as (p & _ & _ & _ & _ & Hp & _).
    destruct (iteration_layout _ st st' p Hok Hlen HQ Hp Hit)
      as (_ & Hok' & Hlen' & Hle' & _).
    eexists T0, _. split; [done|]. split; [exact Hok'|].
    split; [exact Hlen'|]. split; [lia|]. lia.
Qed.
End Lengths.

(** X16. The recorded lengths fit the time axis.  With collaborators that
    honour their shape contracts, in every state the loop reaches [traj]
    and [score] have the same number T of steps in every row, [Nt] has one
    entry per trajectory, every entry of [Nt] is at most [max_Nt], and
    [max_Nt] is at most T.  [max_Nt] never decreases, and the time axis has
    grown since loop entry by exactly as much as [max_Nt] has. *)
Theorem lengths_fit_time_axis
    {W R : Type} (next_uint : R → nat * R) (ams : AMS W)
    (gen : W → Z → list state → batch * W) (sc : batch → list series) (m : Model)
    g wd init (st0 st : loop_state W R) :
  comp_traj ams = Some gen → comp_score ams = Some sc → model ams = Some m →
  generator_rectangular gen → score_shape sc → classifier_skips_nan m →
  initial ams g wd init = Return st0 →
  reachable next_uint ams st0 st →
  ∃ T0 T,
    rectangular T0 (st_traj st0) ∧
    rectangular T (st_traj st) ∧ rectangular T (st_score st) ∧
    length (st_Nt st) = length (st_traj st) ∧
    (∀ i n, st_Nt st !! i = Some n → n ≤ st_max_Nt st) ∧
    st_max_Nt st ≤ T ∧
    st_max_Nt st0 ≤ st_max_Nt st ∧
    T = T0 + (st_max_Nt st - st_max_Nt st0).
Proof.
  intros Hgen Hsc Hm Hrect Hshape Hskip Hi Hr.
  destruct (reachable_lengths next_uint ams gen sc m Hgen Hsc Hm Hrect Hshape Hskip
              _ _ _ _ _ Hi Hr) as (T0 & T & Hok0 & Hok & (H1 & H2 & H3) & Hle & HT).
  exists T0, T. split; [apply (ok_traj _ _ _ _ Hok0)|].
  split; [apply (ok_traj _ _ _ _ Hok)|]. split; [apply (ok_score _ _ _ _ Hok)|].
  done.
Qed.

Lemma lengths_fit_time_axis_witness :
  ∃ st0 st1,
    initial (Toy.ams 3 1) 0 0 Toy.start = Return st0 ∧
    iteration Toy.next (Toy.ams 3 1) st0 = Return st1 ∧
    rectangular 3 (st_traj st0) ∧ st_max_Nt st0 = 2 ∧
    rectangular 4 (st_traj st1) ∧ rectangular 4 (st_score st1) ∧
    st_max_Nt st1 = 3 ∧
    ∀ i n, st_Nt st1 !! i = Some n → n ≤ 3.
Proof.
  destruct (initial (R:=nat) (Toy.ams 3 1) 0 0 Toy.start) as [st0| |] eqn:E;
    [|by vm_compute in E..].
  destruct (iteration Toy.next (Toy.ams 3 1) st0) as [st1| |] eqn:E1.
  2,3: vm_compute in E; injection E as <-; by vm_compute in E1.
  exists st0, st1. split; [done|]. split; [done|].
  assert (loop_guard (nc (Toy.ams 3 1)) (st_Q st0) = true ∧
          st_max_Nt st0 = 2 ∧ st_traj st0 !! 0 = Some (Toy.walk 0 (Toy.pt (1 # 4) 0)))
    as (Hg & Hm0 & Hrow).
  { vm_compute in E. by injection E as <-. }
  assert (st_max_Nt st1 = 3) as Hm1.
  { vm_compute in E. injection E as <-. vm_compute in E1. by injection E1 as <-. }
  destruct (lengths_fit_time_axis Toy.next (Toy.ams 3 1) Toy.gen Toy.score_x Toy.well
              0 0 Toy.start st0 st1)
    as (T0 & T & H0 & H1 & H2 & _ & H3 & _ & _ & HT); try done.
  - apply Toy_gen_rectangular.
  - apply Toy_score_shape.
  - apply Toy_well_skips_nan.
  - eapply reach_iter; [apply reach_entry | done | done].
  - pose proof (Forall_lookup_1 _ _ _ _ H0 Hrow) as E0. simpl in E0. subst T0.
    rewrite Hm0, Hm1 in HT. simpl in HT. subst T. rewrite Hm1 in H3. done.
Defined.

(** X17. After the steps cloned from its source, a regenerated trajectory
    holds the continuation.  For the [i]-th selected trajectory [t], with
    restart index [r] and a continuation of natural length [l]: [Nt[t]] is
    set to [r + l], which is at most the new [max_Nt], so the continuation
    fits the arrays; and at every step [r + j] with 1 <= j < l the
    trajectory holds step [j] of the continuation and the score holds the
    score of that step, overridden in the two regions (with collaborators
    that honour their shape contracts). *)
Theorem clone_suffix_is_continuation
    {W R : Type} (next_uint : R → nat * R) (ams : AMS W)
    (gen : W → Z → list state → batch * W) (sc : batch → list series) (m : Model)
    g wd init (st0 st st' : loop_state W R) (p : cloning R) (i t r l j : nat) :
  comp_traj ams = Some gen → comp_score ams = Some sc → model ams = Some m →
  generator_rectangular gen → score_shape sc → classifier_skips_nan m →
  initial ams g wd init = Return st0 →
  reachable next_uint ams st0 st →
  plan next_uint ams st = Return p →
  iteration next_uint ams st = Return st' →
  let new_traj := (gen (st_world st) (Z.of_nat (length (cl_idx p)))
                     (init_clone (st_traj st) (cl_new_ind p) (cl_restart p))).1 in
  cl_idx p !! i = Some t →
  cl_restart p !! i = Some r →
  clone_lengths new_traj !! i = Some l →
  st_Nt st' !! t = Some (r + l) ∧
  r + l ≤ st_max_Nt st' ∧
  (1 ≤ j → j < l →
   is_Some ((new_traj !!! i) !! j) ∧
   (st_traj st' !!! t) !! (r + j) = (new_traj !!! i) !! j ∧
   (st_score st' !!! t) !! (r + j)
     = classify m (new_traj !!! i) (sc new_traj !!! i) !! j).
Proof.
  intros Hgen Hsc Hm Hrect Hshape Hskip Hi Hr Hp Hit new_traj Ht Hri Hl.
  destruct (reachable_lengths next_uint ams gen sc m Hgen Hsc Hm Hrect Hshape Hskip
              _ _ _ _ _ Hi Hr) as (T0 & T & _ & Hok & Hlen & _ & _).
  pose proof (reachable_Q next_uint ams _ _ _ _ _ Hi Hr) as HQ.
  destruct (iteration_layout next_uint ams gen sc m Hgen Hsc Hm Hskip
              T st st' p Hok Hlen HQ Hp Hit)
    as (Hokg & Hok' & (_ & HNt' & HT') & _ & Hrows).
  destruct (Hrows i t Ht) as (HNt & Htr & Hsr). clear Hrows.
  fold new_traj in HNt, Htr, Hsr.
  rewrite (list_lookup_total_correct _ _ _ Hri) in HNt, Htr, Hsr.
  rewrite (list_lookup_total_correct _ _ _ Hl) in HNt, Htr, Hsr.
  split; [done|]. split; [by apply (HNt' t)|].
  intros Hj1 Hjl.
  destruct (Hrect (st_world st) (Z.of_nat (length (cl_idx p)))
              (init_clone (st_traj st) (cl_new_ind p) (cl_restart p))) as [T1 HT1].
  fold new_traj in HT1.
  destruct (clone_lengths_le T1 new_traj i l HT1 Hl) as [HlT Hcont].
  pose proof (score_shape_rows sc new_traj i Hshape) as Hcont'.
  destruct (plan_sources _ _ _ _ Hp) as (_ & _ & _ & _ & _ & Hidx).
  assert (t < length (st_traj st)) as Htlt.
  { rewrite <- (ok_rows _ _ _ _ Hok).
    assert (t < length (st_Q st)) as H by (apply Hidx, list_elem_of_lookup; eauto).
    by rewrite HQ, length_fmap in H. }
  destruct (ensemble_rows_total _ _ _ _ t Hokg) as (Hold' & _ & Hold).
  rewrite length_pad_traj in Hold. specialize (Hold Htlt).
  specialize (HNt' _ _ HNt).
  destruct (lookup_lt_is_Some_2 (new_traj !!! i) j) as [s Hs]; [lia|].
  assert (∀ (A : Type) (src cont old : list A),
            length cont = T1 → length old = T + (st_max_Nt st' - st_max_Nt st) →
            clone_row r l src cont old !! (r + j) = cont !! j) as Hsuffix.
  { intros A src cont old Hc Ho.
    rewrite lookup_clone_row_suffix.
    - f_equal. lia.
    - lia.
    - rewrite length_take, length_drop. lia.
    - lia. }
  split; [by exists s|].
  rewrite (list_lookup_total_alt (st_traj st') t), Htr.
  rewrite (list_lookup_total_alt (st_score st') t), Hsr. simpl.
  assert (clone_row r l
            (pad_traj dimension (st_max_Nt st' - st_max_Nt st) (st_traj st)
               !!! (cl_new_ind p !!! i))
            (new_traj !!! i)
            (pad_traj dimension (st_max_Nt st' - st_max_Nt st) (st_traj st) !!! t)
          !! (r + j) = Some s) as Hrow.
  { rewrite Hsuffix; done. }
  split; [by rewrite Hrow|].
  rewrite (lookup_classify _ _ _ _ _ Hrow), (lookup_classify _ _ _ _ _ Hs).
  rewrite Hsuffix; [done | lia | lia].
Qed.

Lemma clone_suffix_is_continuation_witness :
  ∃ st0 st1 p,
    initial (Toy.ams 3 1) 0 0 Toy.start = Return st0 ∧
    plan Toy.next (Toy.ams 3 1) st0 = Return p ∧
    iteration Toy.next (Toy.ams 3 1) st0 = Return st1 ∧
    cl_idx p = [0] ∧ cl_restart p = [1] ∧
    st_Nt st1 !! 0 = Some 3 ∧
    (st_traj st1 !!! 0) !! 2 = Some (Toy.pt 1 2).
Proof.
  destruct (initial (R:=nat) (Toy.ams 3 1) 0 0 Toy.start) as [st0| |] eqn:E;
    [|by vm_compute in E..].
  destruct (plan Toy.next (Toy.ams 3 1) st0) as [p| |] eqn:Ep.
  2,3: vm_compute in E; injection E as <-; by vm_compute in Ep.
  destruct (iteration Toy.next (Toy.ams 3 1) st0) as [st1| |] eqn:E1.
  2,3: vm_compute in E; injection E as <-; by vm_compute in E1.
  assert (cl_idx p = [0] ∧ cl_new_ind p = [1] ∧ cl_restart p = [1])
    as (Hidx & Hni & Hrs).
  { vm_compute in E. injection E as <-. vm_compute in Ep. by injection Ep as <-. }
  exists st0, st1, p. split; [done|]. split; [done|]. split; [done|].
  split; [done|]. split; [done|].
  destruct (clone_suffix_is_continuation Toy.next (Toy.ams 3 1)
              Toy.gen Toy.score_x Toy.well 0 0 Toy.start st0 st0 st1 p 0 0 1 2 1)
    as (HNt & _ & Hj); try done.
  - apply Toy_gen_rectangular.
  - apply Toy_score_shape.
  - apply Toy_well_skips_nan.
  - apply reach_entry.
  - by rewrite Hidx.
  - by rewrite Hrs.
  - rewrite Hidx, Hni, Hrs. vm_compute in E. injection E as <-. by vm_compute.
  - split; [done|]. destruct Hj as (_ & Hj & _); [lia | lia |].
    change (1 + 1) with 2 in Hj.
    rewrite Hj, Hidx, Hni, Hrs. vm_compute in E. injection E as <-.
    by vm_compute.
Defined.

(** X18. Levels never decrease: with collaborators that honour their
    contracts, a trajectory whose level Q[k] is a number before an
    iteration has a level after it that is a number at least as large (a
    surviving trajectory keeps its level, a regenerated one inherits a step
    of its source whose score reaches its old level). *)
Theorem levels_never_decrease
    {W R : Type} (next_uint : R → nat * R) (ams : AMS W)
    (gen : W → Z → list state → batch * W) (sc : batch → list series) (m : Model)
    g wd init (st0 st st' : loop_state W R) (k : nat) (q : Q) :
  comp_traj ams = Some gen → comp_score ams = Some sc → model ams = Some m →
  generator_rectangular gen → score_shape sc → score_propagates sc →
  classifier_skips_nan m →
  initial ams g wd init = Return st0 →
  reachable next_uint ams st0 st →
  iteration next_uint ams st = Return st' →
  st_Q st !! k = Some (Some q) →
  ∃ q', st_Q st' !! k = Some (Some q') ∧ (q <= q')%Q.
Proof.
  intros Hgen Hsc Hm Hrect Hshape Hprop Hskip Hi Hr Hit Hq.
  destruct (reachable_lengths next_uint ams gen sc m Hgen Hsc Hm Hrect Hshape Hskip
              _ _ _ _ _ Hi Hr) as (T0 & T & _ & Hok & Hlen & _ & _).
  destruct (reachable_ok next_uint ams gen sc m Hgen Hsc Hm Hrect Hshape Hskip
              _ _ _ _ _ Hi Hr) as [_ Hdef].
  destruct (Hdef Hprop) as [Hd _].
  pose proof (reachable_Q next_uint ams _ _ _ _ _ Hi Hr) as HQ.
  destruct (iteration_Return _ _ _ _ Hit)
    as (p & gen' & sc' & m' & new_max & Hp & _ & _ & _ & H).
  simpl in H. destruct H as (_ & _ & _ & _ & _ & HQ' & _).
  destruct (decide (k ∈ cl_idx p)) as [Hin|Hout].
  - apply list_elem_of_lookup in Hin as [i Ht].
    destruct (plan_sources _ _ _ _ Hp) as (_ & Hlni & _ & Hsrc & _ & _).
    destruct (lookup_lt_is_Some_2 (cl_new_ind p) i) as [src Hsi].
    { rewrite Hlni. by apply lookup_lt_Some in Ht. }
    destruct (plan_restart next_uint ams m T st p i k src Hok Hd HQ Hp Ht Hsi)
      as (r & q0 & x & s & Hri & Hq0 & Hx & Hqx & _).
    rewrite Hq in Hq0. injection Hq0 as <-.
    destruct (iteration_layout next_uint ams gen sc m Hgen Hsc Hm Hskip
                T st st' p Hok Hlen HQ Hp Hit) as (Hokg & _ & _ & _ & Hrows).
    destruct (Hrows i k Ht) as (_ & _ & Hsr). clear Hrows.
    rewrite (list_lookup_total_correct _ _ _ Hri) in Hsr.
    rewrite (list_lookup_total_correct _ _ _ Hsi) in Hsr.
    assert (src < length (st_traj st)) as Hslt.
    { destruct (plan_Return _ _ _ _ Hp) as (_ & _ & Hother & _).
      assert (src ∈ cl_other_idx p) as Hso.
      { apply Hsrc, list_elem_of_lookup. eauto. }
      rewrite Hother in Hso. apply select_other_range in Hso.
      rewrite HQ, length_fmap, (ok_rows _ _ _ _ Hok) in Hso. done. }
    assert (k < length (st_traj st)) as Hklt.
    { apply lookup_lt_Some in Hq.
      by rewrite HQ, length_fmap, (ok_rows _ _ _ _ Hok) in Hq. }
    destruct (ensemble_rows_total _ _ _ _ src Hok) as (Hs1 & _ & Hs2).
    specialize (Hs2 Hslt).
    destruct (ensemble_rows_total _ _ _ _ src Hokg) as (Hg1 & Hzone & Hg2).
    destruct (ensemble_rows_total _ _ _ _ k Hokg) as (Hk1 & _ & Hk2).
    rewrite length_pad_traj in Hg2, Hk2.
    specialize (Hg2 Hslt). specialize (Hk2 Hklt).
    pose proof (lookup_lt_Some _ _ _ Hx) as Hrlt.
    match type of Hsr with
    | _ = Some (classify _ (clone_row _ ?l ?a ?b ?c) (clone_row _ _ ?a' ?b' ?c')) =>
        pose proof (clone_row_prefix_scores m r l a b c a' b' c' r
                      Hg1 Hk1 ltac:(lia) Hzone ltac:(lia) ltac:(lia)) as Hpre
    end.
    rewrite (lookup_pad_score _ _ _ _ _ Hx) in Hpre.
    destruct (np_nanmax_ge _ _ _ Hpre) as (v & Hv & Hxv).
    exists v. split; [|by apply Qle_trans with x].
    by rewrite HQ', list_lookup_fmap, Hsr, <- Hv.
  - exists q. split; [|apply Qle_refl].
    destruct (iteration_survivor next_uint ams st st' p k
                (ok_rows _ _ _ _ Hok) HQ Hp Hit Hout) as (_ & _ & _ & _ & ->).
    done.
Qed.

Lemma levels_never_decrease_witness :
  ∃ st0 st1,
    initial (Toy.ams 3 1) 0 0 Toy.start = Return st0 ∧
    iteration Toy.next (Toy.ams 3 1) st0 = Return st1 ∧
    st_Q st0 !! 0 = Some (Some (1 # 2)) ∧
    ∃ q', st_Q st1 !! 0 = Some (Some q') ∧ (1 # 2 <= q')%Q.
Proof.
  destruct (initial (R:=nat) (Toy.ams 3 1) 0 0 Toy.start) as [st0| |] eqn:E;
    [|by vm_compute in E..].
  destruct (iteration Toy.next (Toy.ams 3 1) st0) as [st1| |] eqn:E1.
  2,3: vm_compute in E; injection E as <-; by vm_compute in E1.
  assert (st_Q st0 !! 0 = Some (Some (1 # 2))) as HQ.
  { vm_compute in E. by injection E as <-. }
  exists st0, st1. split; [done|]. split; [done|]. split; [done|].
  apply (levels_never_decrease Toy.next (Toy.ams 3 1) Toy.gen Toy.score_x Toy.well
           0 0 Toy.start st0 st0 st1 0 (1 # 2)); try done.
  - apply Toy_gen_rectangular.
  - apply Toy_score_shape.
  - apply Toy_score_propagates.
  - apply Toy_well_skips_nan.
  - apply reach_entry.
Defined.

(** ** Invariants of the stored trajectories *)

(** X19. The region override is an invariant of the stored scores: in
    every state the loop reaches (with collaborators that honour their shape
    contracts), at every step of every trajectory the score is 1 when the
    state lies in the region [is_off] flags, and 0 when it lies in the
    region [is_on] flags and not in the other; an undefined state lies in
    neither. *)
Theorem scores_respect_regions
    {W R : Type} (next_uint : R → nat * R) (ams : AMS W)
    (gen : W → Z → list state → batch * W) (sc : batch → list series) (m : Model)
    g wd init (st0 st : loop_state W R) (k j : nat)
    (tr : trajectory) (s : series) (x : state) (y : float) :
  comp_traj ams = Some gen → comp_score ams = Some sc → model ams = Some m →
  generator_rectangular gen → score_shape sc → classifier_skips_nan m →
  initial ams g wd init = Return st0 →
  reachable next_uint ams st0 st →
  st_traj st !! k = Some tr → st_score st !! k = Some s →
  tr !! j = Some x → s !! j = Some y →
  (is_off m x = true → y = Some 1%Q) ∧
  (is_off m x = false → is_on m x = true → y = Some 0%Q) ∧
  (existsb isnan x = true → is_off m x = false ∧ is_on m x = false).
Proof.
  intros Hgen Hsc Hm Hrect Hshape Hskip Hi Hr Htr Hs Hx Hy.
  destruct (reachable_ok next_uint ams gen sc m Hgen Hsc Hm Hrect Hshape Hskip
              _ _ _ _ _ Hi Hr) as [[T Hok] _].
  destruct (ok_zone _ _ _ _ Hok k tr s j x y Htr Hs Hx Hy) as [Hoff Hon].
  split; [done|]. split; [done|].
  intros Hn. by destruct (Hskip x Hn).
Qed.

Lemma scores_respect_regions_witness :
  ∃ st0 st1,
    initial (Toy.ams 3 1) 0 0 Toy.start = Return st0 ∧
    iteration Toy.next (Toy.ams 3 1) st0 = Return st1 ∧
    (st_traj st1 !!! 0) !! 2 = Some (Toy.pt 1 2) ∧
    is_off Toy.well (Toy.pt 1 2) = true ∧
    (st_score st1 !!! 0) !! 2 = Some (Some 1%Q).
Proof.
  destruct (initial (R:=nat) (Toy.ams 3 1) 0 0 Toy.start) as [st0| |] eqn:E;
    [|by vm_compute in E..].
  destruct (iteration Toy.next (Toy.ams 3 1) st0) as [st1| |] eqn:E1.
  2,3: vm_compute in E; injection E as <-; by vm_compute in E1.
  assert (loop_guard (nc (Toy.ams 3 1)) (st_Q st0) = true) as Hg.
  { vm_compute in E. by injection E as <-. }
  assert (∃ tr s, st_traj st1 !! 0 = Some tr ∧ st_score st1 !! 0 = Some s ∧
                  tr !! 2 = Some (Toy.pt 1 2) ∧ is_Some (s !! 2))
    as (tr & s & Htr & Hs & Hx & [y Hy]).
  { vm_compute in E. injection E as <-. vm_compute in E1. injection E1 as <-.
    eexists _, _. split; [done|]. split; [done|]. split; [done|]. by eexists. }
  exists st0, st1. split; [done|]. split; [done|].
  rewrite (list_lookup_total_correct _ _ _ Htr), (list_lookup_total_correct _ _ _ Hs).
  split; [done|]. split; [done|].
  destruct (scores_respect_regions Toy.next (Toy.ams 3 1) Toy.gen Toy.score_x Toy.well
              0 0 Toy.start st0 st1 0 2 tr s (Toy.pt 1 2) y) as (H1 & _); try done.
  - apply Toy_gen_rectangular.
  - apply Toy_score_shape.
  - apply Toy_well_skips_nan.
  - eapply reach_iter; [apply reach_entry | done | done].
  - rewrite Hy. by rewrite H1.
Defined.

(** X20. With collaborators that honour their contracts, in every state
    the loop reaches the defined states of a trajectory form a prefix
    (every step before a defined state is defined), and a step whose score
    is a number holds a defined state. *)
Theorem defined_states_form_prefixes
    {W R : Type} (next_uint : R → nat * R) (ams : AMS W)
    (gen : W → Z → list state → batch * W) (sc : batch → list series) (m : Model)
    g wd init (st0 st : loop_state W R) (k j : nat)
    (tr : trajectory) (s : series) :
  comp_traj ams = Some gen → comp_score ams = Some sc → model ams = Some m →
  generator_rectangular gen → generator_padded gen →
  score_shape sc → score_propagates sc →
  classifier_skips_nan m →
  initial ams g wd init = Return st0 →
  reachable next_uint ams st0 st →
  st_traj st !! k = Some tr → st_score st !! k = Some s →
  (∀ x, tr !! j = Some x → existsb isnan x = false →
     ∀ j', j' ≤ j → ∃ x', tr !! j' = Some x' ∧ existsb isnan x' = false) ∧
  (∀ y, s !! j = Some (Some y) →
     ∃ x, tr !! j = Some x ∧ existsb isnan x = false).
Proof.
  intros Hgen Hsc Hm Hrect Hpad Hshape Hprop Hskip Hi Hr Htr Hs.
  destruct (reachable_ok next_uint ams gen sc m Hgen Hsc Hm Hrect Hshape Hskip
              _ _ _ _ _ Hi Hr) as [_ Hdef].
  destruct (Hdef Hprop) as [Hd Hc]. specialize (Hc Hpad). split.
  - intros x Hx Hn j' Hj'. by apply (Hc k tr Htr j j' x).
  - intros y Hy. by apply (Hd k tr s j y).
Qed.

Lemma defined_states_form_prefixes_witness :
  ∃ st0 st1,
    initial (Toy.ams 3 1) 0 0 Toy.start = Return st0 ∧
    iteration Toy.next (Toy.ams 3 1) st0 = Return st1 ∧
    (st_traj st1 !!! 0) !! 2 = Some (Toy.pt 1 2) ∧
    ∃ x', (st_traj st1 !!! 0) !! 1 = Some x' ∧ existsb isnan x' = false.
Proof.
  destruct (initial (R:=nat) (Toy.ams 3 1) 0 0 Toy.start) as [st0| |] eqn:E;
    [|by vm_compute in E..].
  destruct (iteration Toy.next (Toy.ams 3 1) st0) as [st1| |] eqn:E1.
  2,3: vm_compute in E; injection E as <-; by vm_compute in E1.
  assert (loop_guard (nc (Toy.ams 3 1)) (st_Q st0) = true) as Hg.
  { vm_compute in E. by injection E as <-. }
  assert (∃ tr s, st_traj st1 !! 0 = Some tr ∧ st_score st1 !! 0 = Some s ∧
                  tr !! 2 = Some (Toy.pt 1 2))
    as (tr & s & Htr & Hs & Hx).
  { vm_compute in E. injection E as <-. vm_compute in E1. injection E1 as <-.
    eexists _, _. split; [done|]. split; done. }
  exists st0, st1. split; [done|]. split; [done|].
  rewrite (list_lookup_total_correct _ _ _ Htr). split; [done|].
  destruct (defined_states_form_prefixes Toy.next (Toy.ams 3 1)
              Toy.gen Toy.score_x Toy.well 0 0 Toy.start st0 st1 0 2 tr s)
    as [H1 _]; try done.
  - apply Toy_gen_rectangular.
  - apply Toy_gen_padded.
  - apply Toy_score_shape.
  - apply Toy_score_propagates.
  - apply Toy_well_skips_nan.
  - eapply reach_iter; [apply reach_entry | done | done].
  - apply (H1 (Toy.pt 1 2) Hx eq_refl 1). lia.
Defined.

(** ** The estimate as a function of [zmax] *)

Lemma count_collapse_mono (q : list float) (z1 z2 : Q) :
  (z1 <= z2)%Q → count_collapse q (Some z2) ≤ count_collapse q (Some z1).
Proof.
  intros Hz. rewrite !count_collapse_filter.
  induction q as [|x q IH]; [done|]. rewrite !filter_cons.
  case_decide as E2; case_decide as E1; cbn [length]; try lia.
  exfalso. apply E1.
  change (float_le (Some z2) x = true) in E2.
  apply float_le_true in E2 as (a & b & [= <-] & -> & Hab).
  apply (float_le_Some z1 b). by apply Qle_trans with z2.
Qed.

(** X21. [zmax] only enters the final count.  If a run returns with
    threshold z1 then, from the same states, it returns with any larger
    threshold z2, after the same iterations, with the same trajectories and
    scores and leaving the same generator states; it counts no more
    transitions and (with a trajectory generator that returns as many
    trajectories as it is asked for) both probabilities are numbers, the
    second no larger than the first. *)
Theorem estimate_decreases_with_zmax
    {W R : Type} (next_uint : R → nat * R) (ams : AMS W)
    (gen : W → Z → list state → batch * W)
    fuel g wd init (z1 z2 : Q) (res1 : result) (g' : R) (wd' : W) :
  comp_traj ams = Some gen →
  generator_rows gen →
  (z1 <= z2)%Q →
  run next_uint ams fuel g wd init (Some z1) = Return (res1, g', wd') →
  ∃ res2,
    run next_uint ams fuel g wd init (Some z2) = Return (res2, g', wd') ∧
    iterations res2 = iterations res1 ∧
    trajectories res2 = trajectories res1 ∧ scores res2 = scores res1 ∧
    nb_transitions res2 ≤ nb_transitions res1 ∧
    ∃ p1 p2 : Q,
      probability res1 = Finite p1 ∧ probability res2 = Finite p2 ∧
      (p2 <= p1)%Q.
Proof.
  intros Hgen Hrows Hz Hrun. unfold run in *.
  destruct (initial ams g wd init) as [st0| |] eqn:Hi; [|done..]. simpl in *.
  destruct (loop next_uint ams fuel st0) as [st| |] eqn:Hl; [|done..].
  simpl in *. injection Hrun as <- <- <-. eexists. split; [done|]. simpl.
  pose proof (count_collapse_mono (st_Q st) z1 z2 Hz) as Hc.
  split; [done|]. split; [done|]. split; [done|]. split; [done|].
  destruct (loop_Return _ _ _ _ _ Hl) as [Hr Hexit].
  pose proof (initial_N_pos ams gen Hgen Hrows _ _ _ _ Hi) as HN.
  destruct (reachable_weight next_uint ams gen Hgen Hrows _ _ _ _ _ Hi Hr)
    as (Hw0 & _).
  unfold np_true_divide. destruct (Z.eqb_spec (N_traj ams) 0) as [E|_]; [lia|].
  eexists _, _. split; [reflexivity|]. split; [reflexivity|].
  assert (∀ c : nat, 0 <= inject_Z (Z.of_nat c))%Q as Hnn.
  { intros c. change 0%Q with (inject_Z 0). rewrite <- Zle_Qle. lia. }
  assert (1 <= b64 (inject_Z (N_traj ams)))%Q as HbN.
  { rewrite <- b64_one. apply b64_mono; [done|].
    change 1%Q with (inject_Z 1). rewrite <- Zle_Qle. lia. }
  assert (b64 (inject_Z (Z.of_nat (count_collapse (st_Q st) (Some z2))))
          <= b64 (inject_Z (Z.of_nat (count_collapse (st_Q st) (Some z1)))))%Q
    as Hcc.
  { apply b64_mono; [apply Hnn|]. rewrite <- Zle_Qle. lia. }
  pose proof (b64_nonneg _ (Hnn (count_collapse (st_Q st) (Some z2)))) as Hc2.
  revert Hcc Hc2.
  generalize (b64 (inject_Z (Z.of_nat (count_collapse (st_Q st) (Some z2)))))
             (b64 (inject_Z (Z.of_nat (count_collapse (st_Q st) (Some z1))))).
  intros c2 c1 Hcc Hc2.
  assert (0 <= st_w st * c2)%Q as Hx0 by (by apply Qmult_le_0_compat).
  assert (st_w st * c2 <= st_w st * c1)%Q as Hx.
  { rewrite !(Qmult_comm (st_w st)). by apply Qmult_le_compat_r. }
  pose proof (b64_nonneg _ Hx0) as Hy0. pose proof (b64_mono _ _ Hx0 Hx) as Hy.
  revert Hy0 Hy. generalize (b64 (st_w st * c2)) (b64 (st_w st * c1)).
  intros y2 y1 Hy0 Hy.
  assert (0 < b64 (inject_Z (N_traj ams)))%Q as HN0 by lra.
  apply b64_mono.
  - apply Qle_shift_div_l; [done|]. by rewrite Qmult_0_l.
  - unfold Qdiv. apply Qmult_le_compat_r; [done|].
    by apply Qlt_le_weak, Qinv_lt_0_compat.
Qed.

Lemma estimate_decreases_with_zmax_witness :
  ∃ res1 res2 p1 p2,
    run Toy.next (Toy.ams 3 1) 2 0 0 Toy.start (Some (3 # 4)) = Return (res1, 2, 5) ∧
    run Toy.next (Toy.ams 3 1) 2 0 0 Toy.start (Some (5 # 4)) = Return (res2, 2, 5) ∧
    nb_transitions res1 = 3 ∧
    nb_transitions res2 ≤ nb_transitions res1 ∧
    probability res1 = Finite p1 ∧ probability res2 = Finite p2 ∧
    (p2 <= p1)%Q.
Proof.
  destruct (run Toy.next (Toy.ams 3 1) 2 0 0 Toy.start (Some (3 # 4)))
    as [[[res1 g'] wd']| |] eqn:E; [|by vm_compute in E..].
  assert (g' = 2 ∧ wd' = 5 ∧ nb_transitions res1 = 3) as (-> & -> & Hn1).
  { vm_compute in E. by injection E as <- <- <-. }
  destruct (estimate_decreases_with_zmax Toy.next (Toy.ams 3 1) Toy.gen
              2 0 0 Toy.start (3 # 4) (5 # 4) res1 2 5)
    as (res2 & E2 & _ & _ & _ & Hn & p1 & p2 & Hp1 & Hp2 & Hp).
  - reflexivity.
  - apply Toy_gen_rows.
  - by vm_compute.
  - exact E.
  - exists res1, res2, p1, p2. repeat split; assumption.
Defined.

(** ** When an iteration completes *)

Lemma Forall_list_inserts {A : Type} (P : A → Prop) (i : nat) (k l : list A) :
  Forall P k → Forall P l → Forall P (list_inserts i k l).
Proof.
  intros Hk. revert i. induction Hk as [|y k Hy Hk IH]; intros i Hl; simpl; [done|].
  apply Forall_insert; [by apply IH | done].
Qed.

Lemma clone_row_Forall {A : Type} (P : A → Prop) (r l : nat) (src cont old : list A) :
  Forall P src → Forall P cont → Forall P old →
  Forall P (clone_row r l src cont old).
Proof.
  intros Hs Hc Ho. unfold clone_row.
  apply Forall_list_inserts; [by apply Forall_take, Forall_drop|].
  apply Forall_list_inserts; [by apply Forall_take | done].
Qed.

Lemma Forall_lookup_total_row {A : Type} (P : A → Prop) (a : list (list A)) (i : nat) :
  Forall (Forall P) a → Forall P (a !!! i).
Proof.
  intros Ha. rewrite list_lookup_total_alt.
  destruct (a !! i) as [row|] eqn:E; simpl; [|constructor].
  by apply (Forall_lookup_1 _ _ _ _ Ha E).
Qed.

Lemma shape1_insert {A : Type} (a : list (list A)) (t : nat) (row : list A) :
  length row = length (a !!! t) → shape1 (<[t:=row]> a) = shape1 a.
Proof.
  intros Hl. destruct a as [|r0 a]; [done|]. destruct t as [|t]; simpl; [|done].
  by rewrite Hl.
Qed.

Section MergeWidth.
Context (m : Model) (idx new_ind restart new_nt : list nat).
Context (new_traj : batch) (new_score : list series).

Lemma foldl_merge_one_width (ts : batch * list series) (l : list nat) :
  width_ok new_traj → width_ok ts.1 →
  width_ok (foldl (merge_one m idx new_ind restart new_nt new_traj new_score) ts l).1 ∧
  shape1 (foldl (merge_one m idx new_ind restart new_nt new_traj new_score) ts l).1
  = shape1 ts.1.
Proof.
  intros Hnew. revert ts. induction l as [|i l IH]; intros ts Hts; simpl; [done|].
  destruct (IH (merge_one m idx new_ind restart new_nt new_traj new_score ts i))
    as [Hw Hs].
  - simpl. apply Forall_insert; [done|].
    apply clone_row_Forall; by apply Forall_lookup_total_row.
  - split; [done|]. rewrite Hs. simpl.
    apply shape1_insert, length_clone_row.
Qed.

Lemma merge_width (traj : batch) (score : list series) :
  width_ok new_traj → width_ok traj →
  width_ok (merge m idx new_ind restart new_nt new_traj new_score traj score).1 ∧
  shape1 (merge m idx new_ind restart new_nt new_traj new_score traj score).1
  = shape1 traj.
Proof. intros Hn Ht. by apply (foldl_merge_one_width (traj, score)). Qed.
End MergeWidth.

Lemma grow_traj_width a b (traj : batch) :
  width_ok traj →
  width_ok (grow_traj a b traj) ∧ shape1 traj ≤ shape1 (grow_traj a b traj).
Proof.
  intros Hw. unfold grow_traj. destruct (a <? b); [|done]. unfold pad_traj. split.
  - apply Forall_fmap. eapply Forall_impl; [exact Hw|]. intros tr Htr. simpl.
    apply Forall_app. split; [done|]. by apply Forall_replicate.
  - destruct traj as [|r0 traj]; simpl; [done|]. rewrite length_app. lia.
Qed.

Lemma shape2_width (traj : batch) :
  width_ok traj → shape1 traj ≠ 0 → shape2 traj = dimension.
Proof.
  intros Hw Hs. destruct traj as [|[|s r0] traj]; [done..|].
  unfold shape2. inversion Hw as [|? ? Hr0 _]. by inversion Hr0.
Qed.

Lemma fits_block_true (n : Z) (traj : batch) (score : list series) :
  (0 < n)%Z → length traj = Z.to_nat n → length score = Z.to_nat n →
  width_ok traj → fits_block n traj score = true.
Proof.
  intros Hn Ht Hs Hw. unfold fits_block.
  assert (Z.of_nat (length traj) = n) as H1 by lia.
  assert (Z.of_nat (length score) = n) as H2 by lia.
  rewrite (bool_decide_eq_true_2 _ H1), (bool_decide_eq_true_2 _ H2).
  rewrite andb_true_r. simpl. clear -Hw.
  induction Hw as [|tr traj' Htr _ IH]; [done|]. simpl.
  rewrite andb_true_iff. split; [|done]. clear -Htr.
  induction Htr as [|s tr Hs _ IH]; [done|]. simpl.
  by rewrite IH, andb_true_r, Nat.eqb_eq.
Qed.

Section Completes.
Context {W R : Type} (next_uint : R → nat * R) (ams : AMS W).
Context (gen : W → Z → list state → batch * W) (sc : batch → list series).
Context (m : Model).
Hypothesis Hgen : comp_traj ams = Some gen.
Hypothesis Hsc : comp_score ams = Some sc.
Hypothesis Hm : model ams = Some m.
Hypothesis Hrows : generator_rows gen.
Hypothesis Hrect : generator_rectangular gen.
Hypothesis Hwidth : generator_width gen.
Hypothesis Hshape : score_shape sc.

(** The ensemble keeps states of [dimension] components on a time axis of
    non-zero length. *)
Lemma reachable_width g wd init (st0 st : loop_state W R) :
  initial ams g wd init = Return st0 →
  reachable next_uint ams st0 st →
  width_ok (st_traj st) ∧ shape1 (st_traj st) ≠ 0.
Proof.
  intros Hi Hr. induction Hr as [|st st' Hr [IHw IHs] Hg Hit].
  - destruct (initial_Return _ _ _ _ _ Hi)
      as (gen' & sc' & m' & Hgen' & _ & _ & Ht & _ & _ & _ & _ & _ & Hsh & _).
    rewrite Hgen in Hgen'. injection Hgen' as <-.
    split; [|done]. rewrite Ht. apply Hwidth.
  - destruct (iteration_Return _ _ _ _ Hit)
      as (p & gen' & sc' & m' & new_max & _ & Hgen' & _ & _ & H).
    rewrite Hgen in Hgen'. injection Hgen' as <-.
    simpl in H. destruct H as (_ & _ & _ & -> & _).
    destruct (grow_traj_width (st_max_Nt st) new_max (st_traj st) IHw) as [Hgw Hgs].
    match goal with
    | |- context [merge ?m ?a ?b ?c ?d ?e ?f ?g ?h] =>
        destruct (merge_width m a b c d e f g h) as [Hmw ->]
    end; [apply Hwidth | done |].
    split; [done | lia].
Qed.

(** With collaborators that honour their contracts the merge loop of an
    iteration is never refused. *)
Lemma merge_never_refused width (wd : W) (n : Z) init (k : nat) :
  width = dimension →
  k ≤ Z.to_nat n →
  merge_refusals width (clone_lengths (gen wd n init).1) (gen wd n init).1
    (sc (gen wd n init).1) k = None.
Proof.
  intros -> Hk. apply merge_refusals_None. intros i Hi.
  apply merge_refusal_None.
  pose proof (Hrows wd n init) as Hlen.
  destruct (lookup_lt_is_Some_2 (gen wd n init).1 i ltac:(lia)) as [cont Hcont].
  destruct (Hshape (gen wd n init).1) as [Hsl Hsrow].
  destruct (lookup_lt_is_Some_2 (sc (gen wd n init).1) i ltac:(lia)) as [s Hs].
  destruct (lookup_lt_is_Some_2 (clone_lengths (gen wd n init).1) i) as [l Hl].
  { unfold clone_lengths. rewrite length_fmap. lia. }
  exists l, cont, s. repeat split; try done.
  - by apply (Forall_lookup_1 _ _ _ _ (Hwidth wd n init) Hcont).
  - intros _. destruct (Hrect wd n init) as [T HT].
    destruct (clone_lengths_le T _ i l HT Hl) as [Hle _].
    rewrite (Hsrow i cont s Hcont Hs).
    by rewrite (Forall_lookup_1 _ _ _ _ HT Hcont).
Qed.
End Completes.

(** X22. In a state the loop reaches, an iteration entered under the
    guard completes, and counts one more iteration, whenever nc is at least
    1, the collaborators are set and honour the shapes of their contracts
    (the generator returns as many trajectories as it is asked for, all of
    one length of at least one time step, of states of two components; the
    score function returns one score per trajectory and time step), and Q
    holds no NaN or more than nc + 1 distinct values. *)
Theorem iteration_completes
    {W R : Type} (next_uint : R → nat * R) (ams : AMS W)
    (gen : W → Z → list state → batch * W) (sc : batch → list series) (m : Model)
    g wd init (st0 st : loop_state W R) :
  comp_traj ams = Some gen → comp_score ams = Some sc → model ams = Some m →
  generator_rows gen → generator_rectangular gen → generator_width gen →
  score_shape sc →
  (∀ wd n init, (0 < n)%Z → shape1 (gen wd n init).1 ≠ 0) →
  (1 ≤ nc ams)%Z →
  initial ams g wd init = Return st0 →
  reachable next_uint ams st0 st →
  loop_guard (nc ams) (st_Q st) = true →
  existsb isnan (st_Q st) = false ∨
    (nc ams + 1 < Z.of_nat (distinct_levels (st_Q st)))%Z →
  ∃ st', iteration next_uint ams st = Return st' ∧
         reachable next_uint ams st0 st' ∧ st_k st' = st_k st + 1.
Proof.
  intros Hgen Hsc Hm Hrows Hrect Hwidth Hshape Hsteps Hc Hi Hr Hg Hcase.
  destruct (reachable_sizes next_uint ams gen sc Hgen Hsc Hrows Hshape
              _ _ _ _ _ Hi Hr) as (HN & Hlt & Hls & _).
  destruct (reachable_width next_uint ams gen Hgen Hwidth _ _ _ _ _ Hi Hr)
    as [Hw Hs1].
  destruct (plan_finds_source next_uint ams st Hc ltac:(lia) Hg Hcase)
    as (p & Hp & _).
  destruct (plan_selection_size _ _ _ _ Hc Hg Hp) as [Hge _].
  assert (length (cl_idx p) ≠ 0) as Hk by (clear -Hc Hge; lia).
  enough (∃ st', iteration next_uint ams st = Return st') as [st' Hit].
  { exists st'. split; [done|]. split; [by apply reach_iter with st|].
    destruct (iteration_Return _ _ _ _ Hit)
      as (p' & gen' & sc' & m' & new_max & _ & _ & _ & _ & H).
    simpl in H. by destruct H as (_ & _ & _ & _ & _ & _ & _ & Hk' & _). }
  unfold iteration. rewrite Hp. simpl. rewrite Hgen. simpl. rewrite Hsc. simpl.
  set (out := gen (st_world st) (Z.of_nat (length (cl_idx p)))
                (init_clone (st_traj st) (cl_new_ind p) (cl_restart p))).
  assert (shape1 out.1 ≠ 0) as Hsh by (apply Hsteps; clear -Hk; lia).
  rewrite (proj2 (Nat.eqb_neq _ _) Hsh).
  assert (broadcast_lengths (length (cl_idx p)) (clone_lengths out.1)
          = Some (clone_lengths out.1)) as ->.
  { unfold broadcast_lengths, clone_lengths. rewrite length_fmap.
    unfold out. by rewrite Hrows, Nat2Z.id, Nat.eqb_refl. }
  simpl.
  destruct (np_max _) as [new_max|] eqn:Hmax;
    [|by destruct (cl_idx p)].
  simpl.
  rewrite (fits_block_true _ _ _ HN Hlt Hls Hw), andb_false_r.
  assert (∀ k, k ≤ length (cl_idx p) →
            merge_refusals (shape2 (grow_traj (st_max_Nt st) new_max (st_traj st)))
              (clone_lengths out.1) out.1 (sc out.1) k = None) as Href.
  { intros k Hle. apply (merge_never_refused gen sc Hrows Hrect Hwidth Hshape);
      [|lia].
    destruct (grow_traj_width (st_max_Nt st) new_max (st_traj st) Hw) as [Hgw Hgs].
    apply shape2_width; [done | lia]. }
  rewrite (Href 1) by lia. simpl. rewrite Hm. simpl.
  rewrite (Href (length (cl_idx p))) by lia. simpl. by eexists.
Qed.

Lemma Stall_move_length (to : Q → Q) (s : state) : length (Stall.move to s) = 3.
Proof. unfold Stall.move. by destruct s as [|[x|] [|[t|] [|c s]]]. Qed.

Lemma Stall_move_width (to : Q → Q) (s : state) :
  Forall (λ s : state, length s = dimension) (Stall.move to s).
Proof.
  unfold Stall.move.
  destruct s as [|[x|] [|[t|] [|c s]]]; by repeat constructor.
Qed.

Lemma Stall_gen_rectangular : generator_rectangular Stall.gen.
Proof.
  intros wd n init. unfold Stall.gen. simpl. destruct wd as [|wd].
  - exists 4. apply Forall_fmap, Forall_forall. intros i _. simpl.
    by destruct (i =? 0).
  - exists 3. apply Forall_fmap, Forall_forall. intros i _. simpl.
    destruct (_ <=? _); apply Stall_move_length.
Qed.

Lemma Stall_gen_width : generator_width Stall.gen.
Proof.
  intros wd n init. unfold Stall.gen. simpl.
  apply Forall_fmap, Forall_forall. intros i _. simpl. destruct wd as [|wd].
  - destruct (i =? 0); by repeat constructor.
  - destruct (_ <=? _); apply Stall_move_width.
Qed.

Lemma iteration_completes_witness :
  ∃ st0 st1,
    initial Stall.ams 0 0 Stall.start = Return st0 ∧
    iteration Toy.next Stall.ams st0 = Return st1 ∧ st_k st1 = st_k st0 + 1.
Proof.
  destruct (initial (R:=nat) Stall.ams 0 0 Stall.start) as [st0| |] eqn:E;
    [|by vm_compute in E..].
  assert (loop_guard (nc Stall.ams) (st_Q st0) = true ∧
          existsb isnan (st_Q st0) = false) as [Hg Hn].
  { vm_compute in E. by injection E as <-. }
  destruct (iteration_completes Toy.next Stall.ams Stall.gen Toy.score_x Toy.well
              0 0 Stall.start st0 st0) as (st1 & H1 & _ & H2).
  - reflexivity.
  - reflexivity.
  - reflexivity.
  - apply Stall_gen_rows.
  - apply Stall_gen_rectangular.
  - apply Stall_gen_width.
  - apply Toy_score_shape.
  - intros wd n init Hn'. unfold Stall.gen. simpl.
    destruct (Z.to_nat n) as [|k] eqn:Ek; [lia|]. simpl.
    destruct wd as [|wd]; [done|].
    unfold Stall.fall, Stall.leap.
    by destruct (_ <=? _); rewrite Stall_move_length.
  - simpl. lia.
  - exact E.
  - apply reach_entry.
  - exact Hg.
  - by left.
  - by exists st0, st1.
Defined.
